(** * Stage decomposition and commander/worker fabric: a shallow embedding

    The first part embeds [enzyme/symbolic_value.py] (discovery of the value
    graph, topological sorting, atomic stages, stage decomposition); the
    second part embeds [mpi_worker_commander.py] (worker variable store,
    result storage with halo exchange, tile ranges). *)

From stdpp Require Import gmap strings list fin_maps.
From Stdlib Require Import ZArith Lia.
From Stdlib Require PrimFloat Uint63.

Set Default Proof Using "Type*".

(** ** Python exceptions and the error monad *)

Inductive exn : Set :=
| AssertionError
| AttributeError
| NameError
| KeyError
| IndexError
| ValueError
| ZeroDivisionError
| RecursionError
| BufferError.

Inductive result (A : Type) : Type :=
| Ok (a : A)
| Raise (e : exn).
Arguments Ok {A} a.
Arguments Raise {A} e.

(** Another name for the type, for where a Python variable is called
    [result]. *)
Notation outcome := result (only parsing).

Definition rbind {A B} (r : result A) (k : A -> result B) : result B :=
  match r with
  | Ok a => k a
  | Raise e => Raise e
  end.

(** A Python [for] loop whose body threads an accumulator and may raise. *)
Fixpoint rfold {A S} (body : A -> S -> result S) (l : list A) (s : S) : result S :=
  match l with
  | [] => Ok s
  | x :: l' => rbind (body x s) (rfold body l')
  end.

Fixpoint rmap {A B} (f : A -> result B) (l : list A) : result (list B) :=
  match l with
  | [] => Ok []
  | x :: l' => rbind (f x) (fun y => rbind (rmap f l') (fun ys => Ok (y :: ys)))
  end.

(** ** Part I: [enzyme/symbolic_value.py] *)

Module Symbolic.
Section Values.

(** Concrete tile values, the things [perform] consumes and produces. *)
Variable C : Type.

(** An element of an [inputs] list is either a value of the symbolic graph,
    named by its object identity, or any other Python object (a constant),
    which has no [owner] attribute. *)
Inductive obj : Type :=
| Val (v : nat)
| Raw (c : C).

(** The capability set of an operation. *)
Record operation : Type := {
  inputs : list obj;
  access_neighbor : bool;
  perform : list C -> C
}.

(** [class stencil_array_value]: a shape and an optional producer. *)
Record stencil_array_value : Type := {
  shape : list nat;
  owner : option operation
}.

(** The object store: the value behind each identity.  It is never written
    by any function below. *)
Definition heap : Type := nat -> stencil_array_value.

Variable G : heap.

(** Values are created after their producer, which is created after its
    inputs: numbering identities in creation order, inputs are smaller. *)
Definition dag : Prop :=
  ∀ v op u, owner (G v) = Some op → Val u ∈ inputs op → u < v.

Definition ndim (v : nat) : nat := length (shape (G v)).

(** The value of an integer kept on 64 bits, in two's complement. *)
Definition int64 (x : Z) : Z := ((x + 2 ^ 63) mod 2 ^ 64 - 2 ^ 63)%Z.

(** [int(np.prod(self.shape))]: numpy multiplies the dimensions as 64-bit
    integers, which is what dimensions below [2^63] are held in, so the
    product wraps around: a shape [(2^32, 2^32)] has size 0.  The product
    over the empty shape is 1. *)
Definition size (v : nat) : Z :=
  int64 (foldr (fun n acc => (Z.of_nat n * acc)%Z) 1%Z (shape (G v))).

Definition _is_like_sa_value (a : obj) : bool :=
  match a with
  | Val v =>
      match owner (G v) with
      | None => true
      | Some _ => true (* every operation exposes [access_neighbor] *)
      end
  | Raw _ => false
  end.

(** *** [discover_values] *)

(** The state of the walk is the pair of lists
    [(discovered_values, discovered_triburary_values)].  The recursion of
    the nested function is bounded by [fuel]; running out of it is Python's
    recursion limit. *)
Fixpoint discover_values_from (fuel : nat) (source_values : list nat)
    (x : obj) (st : list nat * list nat) : result (list nat * list nat) :=
  match x with
  | Raw _ => Ok st
  | Val v =>
      if decide (v ∈ source_values) then Ok st
      else match owner (G v) with
           | None =>
               if decide (v ∈ st.2) then Ok st else Ok (st.1, st.2 ++ [v])
           | Some op =>
               if decide (v ∈ st.1) then Ok st
               else match fuel with
                    | 0 => Raise RecursionError
                    | S fuel' =>
                        rfold (discover_values_from fuel' source_values)
                              (inputs op) (st.1 ++ [v], st.2)
                    end
           end
  end.

(** A depth that no walk from [sink_values] exceeds in a [dag]. *)
Definition walk_depth (sink_values : list nat) : nat :=
  S (foldr Nat.max 0 sink_values).

Definition discover_values (source_values sink_values : list nat)
  : result (list nat * list nat) :=
  rfold (discover_values_from (walk_depth sink_values) source_values)
        (Val <$> sink_values) ([], []).

(** *** [sort_values] *)

Definition is_computable (sorted_values : list nat) (x : obj) : bool :=
  negb (_is_like_sa_value x)
  || match x with
     | Val v => bool_decide (v ∈ sorted_values)
                || match owner (G v) with None => true | Some _ => false end
     | Raw _ => false
     end.

(** [list.remove]: delete the first occurrence. *)
Fixpoint list_remove (v : nat) (l : list nat) : list nat :=
  match l with
  | [] => []
  | x :: l' => if decide (x = v) then l' else x :: list_remove v l'
  end.

(** One execution of the [for v in unsorted_values] loop.  The list iterator
    of Python is an index into the list being mutated: after a removal the
    index still advances, so the element that slid into the freed slot is
    not visited in this pass.  [n] bounds the remaining iterations. *)
Fixpoint sort_pass (n i : nat) (sorted_values unsorted_values : list nat)
    (removed_any : bool) : result (list nat * list nat * bool) :=
  match unsorted_values !! i with
  | None => Ok (sorted_values, unsorted_values, removed_any)
  | Some v =>
      match n with
      | 0 => Raise RecursionError
      | S n' =>
          match owner (G v) with
          | None => Raise AttributeError
          | Some op =>
              if forallb (is_computable sorted_values) (inputs op)
              then sort_pass n' (S i) (sorted_values ++ [v])
                             (list_remove v unsorted_values) true
              else sort_pass n' (S i) sorted_values unsorted_values
                             removed_any
          end
      end
  end.

(** The [while len(unsorted_values)] loop; [n] bounds the number of passes. *)
Fixpoint sort_loop (n : nat) (sorted_values unsorted_values : list nat)
  : result (list nat * list nat) :=
  match unsorted_values with
  | [] => Ok (sorted_values, unsorted_values)
  | _ :: _ =>
      match n with
      | 0 => Raise RecursionError
      | S n' =>
          rbind (sort_pass (length unsorted_values) 0 sorted_values
                           unsorted_values false)
            (fun '(sorted_values', unsorted_values', removed_any) =>
               if removed_any then sort_loop n' sorted_values' unsorted_values'
               else Raise AssertionError)
      end
  end.

(** Both lists are mutated in place; the result is their final contents. *)
Definition sort_values (sorted_values unsorted_values : list nat)
  : result (list nat * list nat) :=
  sort_loop (length unsorted_values) sorted_values unsorted_values.

(** *** [class AtomicStage] *)

Record AtomicStage : Type := {
  source_values : list nat;
  triburary_values : list nat;
  sorted_values : list nat;
  sink_values : list nat
}.

Definition AtomicStage_init (sources sinks : list nat) : result AtomicStage :=
  let sorted0 := sources in
  rbind (discover_values sources sinks) (fun '(unsorted0, triburary) =>
  rbind (sort_values sorted0 unsorted0) (fun '(sorted1, unsorted1) =>
  if decide (unsorted1 = []) then
    Ok {| source_values := take (length sources) sorted1;
          triburary_values := triburary;
          sorted_values := drop (length sources) sorted1;
          sink_values := sinks |}
  else Raise AssertionError)).

(** *** Attributes attached to values at run time

    The functions below attach scratch attributes to value objects and
    (sometimes) delete them again.  One finite map per attribute name records
    which values currently carry it.  [performed] is the log of the calls
    made to [perform], with the value being evaluated and the arguments. *)
Record state : Type := {
  _tmp : gmap nat C;
  _value_id : gmap nat nat;
  create_stage : gmap nat Z;
  discard_stage : gmap nat Z;
  performed : list (nat * list C)
}.

Definition set_tmp (f : gmap nat C → gmap nat C) (s : state) : state :=
  {| _tmp := f (_tmp s); _value_id := _value_id s;
     create_stage := create_stage s; discard_stage := discard_stage s;
     performed := performed s |}.

Definition set_value_id (f : gmap nat nat → gmap nat nat) (s : state) : state :=
  {| _tmp := _tmp s; _value_id := f (_value_id s);
     create_stage := create_stage s; discard_stage := discard_stage s;
     performed := performed s |}.

Definition set_stages (fc fd : gmap nat Z → gmap nat Z) (s : state) : state :=
  {| _tmp := _tmp s; _value_id := _value_id s;
     create_stage := fc (create_stage s); discard_stage := fd (discard_stage s);
     performed := performed s |}.

Definition log_perform (v : nat) (args : list C) (s : state) : state :=
  {| _tmp := _tmp s; _value_id := _value_id s;
     create_stage := create_stage s; discard_stage := discard_stage s;
     performed := performed s ++ [(v, args)] |}.

(** State and exceptions: an exception leaves the state as it was when it
    was raised. *)
Definition M (A : Type) : Type := state → state * result A.

Definition ret {A} (a : A) : M A := fun s => (s, Ok a).
Definition raise {A} (e : exn) : M A := fun s => (s, Raise e).
Definition bind {A B} (m : M A) (k : A → M B) : M B :=
  fun s => match m s with
           | (s', Ok a) => k a s'
           | (s', Raise e) => (s', Raise e)
           end.
Definition lift {A} (r : result A) : M A := fun s => (s, r).
Definition gets {A} (f : state → A) : M A := fun s => (s, Ok (f s)).
Definition modify (f : state → state) : M unit := fun s => (f s, Ok tt).
Definition assert (b : bool) : M unit :=
  if b then ret tt else raise AssertionError.

Notation "x <- m ;; k" := (bind m (fun x => k))
  (at level 100, m at next level, right associativity).
Notation "m ;;; k" := (bind m (fun _ => k))
  (at level 100, right associativity).

Fixpoint forM_ {A} (l : list A) (body : A → M unit) : M unit :=
  match l with
  | [] => ret tt
  | x :: l' => body x ;;; forM_ l' body
  end.

Fixpoint mapM {A B} (f : A → M B) (l : list A) : M (list B) :=
  match l with
  | [] => ret []
  | x :: l' => y <- f x ;; ys <- mapM f l' ;; ret (y :: ys)
  end.

(** [v.a] for an attribute [a] that may be missing. *)
Definition getattr {A} (a : state → gmap nat A) (v : nat) : M A :=
  fun s => match a s !! v with
           | Some x => (s, Ok x)
           | None => (s, Raise AttributeError)
           end.

Definition hasattr {A} (a : state → gmap nat A) (v : nat) : M bool :=
  gets (fun s => bool_decide (is_Some (a s !! v))).

(** *** [AtomicStage.__call__] *)

(** The first argument: a tuple or list, or a single object. *)
Inductive call_arg : Type :=
| Seq (l : list C)
| Single (c : C).

(** The second argument: a callable, an indexable mapping, or neither. *)
Inductive resolver : Type :=
| Callable (f : nat → C)
| Indexable (m : gmap nat C)
| Neither.

(** [assert not hasattr(v, '_tmp'); v._tmp = v_tmp] *)
Definition assign_tmp (p : nat * C) : M unit :=
  h <- hasattr _tmp p.1 ;;
  assert (negb h) ;;;
  modify (set_tmp <[p.1 := p.2]>).

(** [_tmp = lambda v : v._tmp if _is_like_sa_value(v) else v] *)
Definition input_tmp (v_inp : obj) : M C :=
  if _is_like_sa_value v_inp
  then match v_inp with
       | Val u => getattr _tmp u
       | Raw c => ret c
       end
  else match v_inp with
       | Val u => raise AttributeError
       | Raw c => ret c
       end.

(** The body of the loop over [self.sorted_values]. *)
Definition compute_tmp (v : nat) : M unit :=
  h <- hasattr _tmp v ;;
  assert (negb h) ;;;
  op <- match owner (G v) with
        | Some op => ret op
        | None => raise AttributeError
        end ;;
  inputs_tmp <- mapM input_tmp (inputs op) ;;
  modify (log_perform v inputs_tmp) ;;;
  modify (set_tmp <[v := perform op inputs_tmp]>).

(** [del v._tmp] *)
Definition delete_tmp (v : nat) : M unit :=
  h <- hasattr _tmp v ;;
  if h then modify (set_tmp (delete v)) else raise AttributeError.

(** [triburary(v)] or [triburary[v]] for each tributary value; the name
    [triburary_values] stays unbound when neither branch is taken. *)
Definition resolve_triburary (triburary : resolver) (l : list nat)
  : M (option (list C)) :=
  match triburary with
  | Callable f => ret (Some (f <$> l))
  | Indexable m =>
      tv <- mapM (fun v => match m !! v with
                           | Some c => ret c
                           | None => raise KeyError
                           end) l ;;
      ret (Some tv)
  | Neither => ret None
  end.

Definition AtomicStage_call (self : AtomicStage) (source_values0 : call_arg)
    (triburary : resolver) : M (list C) :=
  let source_values1 :=
    match source_values0 with Seq l => l | Single c => [c] end in
  assert (bool_decide (length (source_values self) = length source_values1)) ;;;
  bound_triburary_values <- resolve_triburary triburary (triburary_values self) ;;
  let values := source_values self ++ triburary_values self in
  tmp_values <-
    match bound_triburary_values with
    | Some tv => ret (source_values1 ++ tv)
    | None => raise NameError
    end ;;
  assert (bool_decide (length values = length tmp_values)) ;;;
  forM_ (zip values tmp_values) assign_tmp ;;;
  forM_ (sorted_values self) compute_tmp ;;;
  sink_values1 <- mapM (getattr _tmp) (sink_values self) ;;
  let values1 := values ++ sorted_values self in
  forM_ values1 delete_tmp ;;;
  ret sink_values1.

(** *** [build_graph] *)

(** [enumerate(l)] *)
Definition enumerate {A} (l : list A) : list (nat * A) :=
  zip (seq 0 (length l)) l.

(** [v._value_id = i; weights.append(v.size)] *)
Definition assign_value_id (p : nat * nat) : M Z :=
  modify (set_value_id <[p.2 := p.1]>) ;;;
  ret (size p.2).

(** The edges into [v] contributed by one input of its owner. *)
Definition edge_from (v : nat) (op : operation) (v_inp : obj)
  : M (list (nat * nat * bool)) :=
  match v_inp with
  | Raw _ => ret []
  | Val u =>
      h <- hasattr _value_id u ;;
      if h then
        a <- getattr _value_id u ;;
        b <- getattr _value_id v ;;
        ret [(a, b, access_neighbor op)]
      else ret []
  end.

Definition edges_into (p : nat * nat) : M (list (nat * nat * bool)) :=
  match owner (G p.2) with
  | None => ret []
  | Some op =>
      es <- mapM (edge_from p.2 op) (inputs op) ;;
      ret (concat es)
  end.

(** [del v._value_id] *)
Definition delete_value_id (v : nat) : M unit :=
  h <- hasattr _value_id v ;;
  if h then modify (set_value_id (delete v)) else raise AttributeError.

Definition build_graph (all_values : list nat)
  : M (list Z * list (nat * nat * bool)) :=
  weights <- mapM assign_value_id (enumerate all_values) ;;
  let weights1 := weights ++ [1%Z] in
  edges <- mapM edges_into (enumerate all_values) ;;
  forM_ all_values delete_value_id ;;;
  ret (weights1, concat edges).

(** *** [decompose] *)

(** [decompose_graph] pipes the graph through the external partitioner
    binary, [quarkflow], and loads the table it prints: one row [c d e] of
    three integers per vertex.  The binary is not part of the sources: what
    it prints for a graph, or the failure of the assertion on its error
    stream, is a parameter. *)
Variable quarkflow :
  list Z → list (nat * nat * bool) → result (list (Z * Z * Z)).

(** What the names [c], [d] and [e] are bound to: a numpy integer or a
    one-dimensional numpy array of integers. *)
Inductive np_value : Type :=
| np_int (x : Z)
| np_array (l : list Z).

(** [np.loadtxt(BytesIO(out), int).T], as the sequence of its elements along
    the first axis.  A table of two or more rows is loaded as a
    two-dimensional array, whose transpose consists of the three columns.  A
    table of one row is loaded as a one-dimensional array of three numbers,
    which is its own transpose; no table at all gives an empty array. *)
Definition decompose_graph (weights : list Z)
    (edges : list (nat * nat * bool)) : result (list np_value) :=
  rbind (quarkflow weights edges) (fun rows =>
  match rows with
  | [] => Ok []
  | [(c, d, e)] => Ok [np_int c; np_int d; np_int e]
  | _ => Ok [np_array rows.*1.*1; np_array rows.*1.*2; np_array rows.*2]
  end).

(** [c, d, e = ...] *)
Definition unpack (a : list np_value)
  : result (np_value * np_value * np_value) :=
  match a with
  | [c; d; e] => Ok (c, d, e)
  | _ => Raise ValueError
  end.

(** The maximum of a non-empty array. *)
Definition array_max (d : list Z) : result Z :=
  match d with
  | [] => Raise ValueError
  | x :: d' => Ok (foldl Z.max x d')
  end.

(** [d.max()]: a numpy integer is its own maximum. *)
Definition np_max (d : np_value) : result Z :=
  match d with
  | np_int x => Ok x
  | np_array l => array_max l
  end.

(** An element of an array, for a non-negative index. *)
Definition array_get (c : list Z) (i : nat) : result Z :=
  match c !! i with
  | Some x => Ok x
  | None => Raise IndexError
  end.

(** [c[i]] for a non-negative [i]: a numpy integer cannot be indexed. *)
Definition subscript (c : np_value) (i : nat) : result Z :=
  match c with
  | np_int _ => Raise IndexError
  | np_array l => array_get l i
  end.

(** [v.create_stage <= k and v.discard_stage > k], as the list of the
    values selected: [v] or nothing. *)
Definition select_alive (k : Z) (v : nat) : M (list nat) :=
  cs <- getattr create_stage v ;;
  if bool_decide (cs ≤ k)%Z then
    ds <- getattr discard_stage v ;;
    ret (if bool_decide (ds > k)%Z then [v] else [])
  else ret [].

(** The list comprehension selecting the values alive after stage [k]. *)
Definition next_stage_source (all_values : list nat) (k : Z) : M (list nat) :=
  picked <- mapM (select_alive k) all_values ;;
  ret (concat picked).

(** The [for k in range(1, num_stages)] loop over the state
    [(stages, stage_source)]. *)
Fixpoint decompose_loop (all_values : list nat) (ks : list Z)
    (acc : list AtomicStage * list nat) : M (list AtomicStage * list nat) :=
  match ks with
  | [] => ret acc
  | k :: ks' =>
      next <- next_stage_source all_values k ;;
      stage <- lift (AtomicStage_init acc.2 next) ;;
      decompose_loop all_values ks' (acc.1 ++ [stage], next)
  end.

(** [v.create_stage = c[i]; v.discard_stage = d[i]] *)
Definition assign_stages (c d : np_value) (p : nat * nat) : M unit :=
  ci <- lift (subscript c p.1) ;;
  modify (set_stages <[p.2 := ci]> id) ;;;
  di <- lift (subscript d p.1) ;;
  modify (set_stages id <[p.2 := di]>).

Definition decompose (sources sinks : list nat) : M (list AtomicStage) :=
  discovered <- lift (discover_values sources sinks) ;;
  let all_values := discovered.1 ++ sources in
  graph <- build_graph all_values ;;
  cde <- lift (rbind (decompose_graph graph.1 graph.2) unpack) ;;
  let '(c, d, e) := cde in
  num_stages <- lift (np_max d) ;;
  forM_ (enumerate all_values) (assign_stages c d) ;;;
  loop_end <- decompose_loop all_values (seqZ 1 (num_stages - 1)) ([], sources) ;;
  stage <- lift (AtomicStage_init loop_end.2 sinks) ;;
  ret (loop_end.1 ++ [stage]).

(** Running a list of stages, each stage's output tuple being the next
    stage's first argument. *)
Fixpoint run_stages (stages : list AtomicStage) (concrete : list C)
    (triburary : resolver) : M (list C) :=
  match stages with
  | [] => ret concrete
  | stage :: stages' =>
      out <- AtomicStage_call stage (Seq concrete) triburary ;;
      run_stages stages' out triburary
  end.

End Values.

Arguments Val {C} v.
Arguments Raw {C} c.
Arguments inputs {C} o.
Arguments access_neighbor {C} o.
Arguments perform {C} o args.
Arguments shape {C} s.
Arguments owner {C} s.
Arguments dag {C} G.
Arguments int64 x.
Arguments size {C} G v.
Arguments _is_like_sa_value {C} G a.
Arguments discover_values_from {C} G fuel source_values x st.
Arguments discover_values {C} G source_values sink_values.
Arguments is_computable {C} G sorted_values x.
Arguments sort_pass {C} G n i sorted_values unsorted_values removed_any.
Arguments sort_loop {C} G n sorted_values unsorted_values.
Arguments sort_values {C} G sorted_values unsorted_values.
Arguments AtomicStage_init {C} G sources sinks.
Arguments _tmp {C} s.
Arguments _value_id {C} s.
Arguments create_stage {C} s.
Arguments discard_stage {C} s.
Arguments performed {C} s.
Arguments ret {C A} a s.
Arguments raise {C A} e s.
Arguments bind {C A B} m k s.
Arguments lift {C A} r s.
Arguments gets {C A} f s.
Arguments modify {C} f s.
Arguments assert {C} b s.
Arguments forM_ {C A} l body s.
Arguments mapM {C A B} f l s.
Arguments getattr {C A} a v s.
Arguments hasattr {C A} a v s.
Arguments Seq {C} l.
Arguments Single {C} c.
Arguments Callable {C} f.
Arguments Indexable {C} m.
Arguments Neither {C}.
Arguments assign_tmp {C} p s.
Arguments input_tmp {C} G v_inp s.
Arguments compute_tmp {C} G v s.
Arguments delete_tmp {C} v s.
Arguments resolve_triburary {C} triburary l s.
Arguments AtomicStage_call {C} G self source_values0 triburary s.
Arguments enumerate {A} l.
Arguments np_int x.
Arguments np_array l.
Arguments unpack a.
Arguments array_max d.
Arguments np_max d.
Arguments array_get c i.
Arguments subscript c i.
Arguments assign_value_id {C} G p s.
Arguments edge_from {C} v op v_inp s.
Arguments edges_into {C} G p s.
Arguments delete_value_id {C} v s.
Arguments select_alive {C} k v s.
Arguments assign_stages {C} c d p s.
Arguments build_graph {C} G all_values s.
Arguments next_stage_source {C} all_values k s.
Arguments decompose_loop {C} G all_values ks acc s.
Arguments decompose_graph quarkflow weights edges.
Arguments decompose {C} G quarkflow sources sinks s.
Arguments run_stages {C} G stages concrete triburary s.

End Symbolic.

Import Symbolic.

(** ** Part II: [mpi_worker_commander.py] *)

Module Worker.
Section Arrays.

(** The elements of arrays, with the values [np.ones] and [np.zeros] fill
    with. *)
Variable T : Type.
Variables (one zero : T).

(** A numpy array: its shape, its strides (for each axis, the step in
    memory from one index to the next, counted in items) and the element at
    each index.  Only the elements at indices within the shape are
    meaningful. *)
Record ndarray : Type := {
  shape : list nat;
  strides : list Z;
  item : list nat → T
}.

Definition ndim (a : ndarray) : nat := length (shape a).

Definition in_bounds (sh idx : list nat) : Prop := Forall2 lt idx sh.

(** Equality of arrays as numpy sees it. *)
Definition array_equal (a b : ndarray) : Prop :=
  shape a = shape b ∧ ∀ idx, in_bounds (shape a) idx → item a idx = item b idx.

(** The number of items of a shape. *)
Definition items (sh : list nat) : Z :=
  foldr (fun n acc => (Z.of_nat n * acc)%Z) 1%Z sh.

(** The strides of a new array: it is laid out in C order, the last axis
    varying fastest.  (For a shape without items the strides play no role
    below.) *)
Fixpoint c_strides (sh : list nat) : list Z :=
  match sh with
  | [] => []
  | _ :: sh' => items sh' :: c_strides sh'
  end.

(** numpy's test for a contiguous layout, on the axes from the slowest to
    the fastest: going from the last axis to the first, the stride of every
    axis, those of length 1 apart, is the number of items spanned by the
    axes after it.  The second component is that number for the whole
    list. *)
Fixpoint packed (axes : list (nat * Z)) : bool * Z :=
  match axes with
  | [] => (true, 1%Z)
  | (n, st) :: axes' =>
      let '(ok, sd) := packed axes' in
      (ok && ((n =? 1) || (st =? sd)%Z), (sd * Z.of_nat n)%Z)
  end.

(** Can the array be exposed as one buffer?  mpi4py asks numpy for a
    contiguous buffer, in C order or in Fortran order; an array with an axis
    of length 0 counts as contiguous. *)
Definition is_contiguous (a : ndarray) : bool :=
  existsb (Nat.eqb 0) (shape a)
  || (packed (zip (shape a) (strides a))).1
  || (packed (reverse (zip (shape a) (strides a)))).1.

Definition ones (sh : list nat) : ndarray :=
  {| shape := sh; strides := c_strides sh; item := fun _ => one |}.

Definition zeros (sh : list nat) : ndarray :=
  {| shape := sh; strides := c_strides sh; item := fun _ => zero |}.

(** An integer index into an axis of length [n]; negative indices count from
    the end. *)
Definition axis_index (k : Z) (n : nat) : result nat :=
  if bool_decide (0 ≤ k < Z.of_nat n)%Z then Ok (Z.to_nat k)
  else if bool_decide (- Z.of_nat n ≤ k < 0)%Z then Ok (Z.to_nat (Z.of_nat n + k))
  else Raise IndexError.

(** [a[k, :]], a view of [a] *)
Definition row (a : ndarray) (k : Z) : result ndarray :=
  match shape a with
  | n0 :: n1 :: rest =>
      rbind (axis_index k n0) (fun i =>
      Ok {| shape := n1 :: rest; strides := drop 1 (strides a);
            item := fun idx => item a (i :: idx) |})
  | _ => Raise IndexError
  end.

(** [a[:, k]], a view of [a] *)
Definition column (a : ndarray) (k : Z) : result ndarray :=
  match shape a with
  | n0 :: n1 :: rest =>
      rbind (axis_index k n1) (fun j =>
      Ok {| shape := n0 :: rest;
            strides := take 1 (strides a) ++ drop 2 (strides a);
            item := fun idx => match idx with
                               | i :: idx' => item a (i :: j :: idx')
                               | [] => item a []
                               end |})
  | _ => Raise IndexError
  end.

(** [a[1:-1]], a view of [a] *)
Definition middle (a : ndarray) : result ndarray :=
  match shape a with
  | n :: rest =>
      Ok {| shape := (n - 2) :: rest; strides := strides a;
            item := fun idx => match idx with
                               | i :: idx' => item a (S i :: idx')
                               | [] => item a []
                               end |}
  | [] => Raise IndexError
  end.

(** [a[k, 1:-1]] and [a[1:-1, k]], views of [a] *)
Definition row_strip (a : ndarray) (k : Z) : result ndarray :=
  rbind (row a k) middle.

Definition column_strip (a : ndarray) (k : Z) : result ndarray :=
  rbind (column a k) middle.

(** [a[1:-1, 1:-1]], a view of [a] *)
Definition interior (a : ndarray) : result ndarray :=
  match shape a with
  | n0 :: n1 :: rest =>
      Ok {| shape := (n0 - 2) :: (n1 - 2) :: rest; strides := strides a;
            item := fun idx => match idx with
                               | i :: j :: idx' => item a (S i :: S j :: idx')
                               | _ => item a idx
                               end |}
  | _ => Raise IndexError
  end.

(** Is [k] one of the positions [1:-1] of an axis of length [n]? *)
Definition inner (k n : nat) : bool := (1 <=? k) && (S k <? n).

(** [full[1:-1, 1:-1] = src] *)
Definition set_interior (full src : ndarray) : ndarray :=
  match shape full with
  | n0 :: n1 :: _ =>
      {| shape := shape full; strides := strides full;
         item := fun idx =>
           match idx with
           | i :: j :: idx' =>
               if inner i n0 && inner j n1
               then item src (i - 1 :: j - 1 :: idx')
               else item full idx
           | _ => item full idx
           end |}
  | _ => full
  end.

(** Writing [msg] into the view [full[r, 1:-1]]. *)
Definition set_row_strip (full : ndarray) (r : nat) (msg : list nat → T)
  : ndarray :=
  match shape full with
  | n0 :: n1 :: _ =>
      {| shape := shape full; strides := strides full;
         item := fun idx =>
           match idx with
           | i :: j :: idx' =>
               if (i =? r) && inner j n1 then msg (j - 1 :: idx')
               else item full idx
           | _ => item full idx
           end |}
  | _ => full
  end.

(** Writing [msg] into the view [full[1:-1, c]]. *)
Definition set_column_strip (full : ndarray) (c : nat) (msg : list nat → T)
  : ndarray :=
  match shape full with
  | n0 :: n1 :: _ =>
      {| shape := shape full; strides := strides full;
         item := fun idx =>
           match idx with
           | i :: j :: idx' =>
               if inner i n0 && (j =? c) then msg (i - 1 :: idx')
               else item full idx
           | _ => item full idx
           end |}
  | _ => full
  end.

(** *** Python objects seen by the worker *)

(** The key of a worker variable: a string, or a number drawn from the
    global counter. *)
Definition key : Type := string + nat.

Inductive pyobj : Type :=
| PyNone
| PyArray (a : ndarray)
| PyTuple (l : list pyobj)
| WorkerVariable (k : key)
| PyScalar (x : T)
| PyOpaque (name : string).

Definition is_worker_variable (variable : pyobj) : bool :=
  match variable with
  | WorkerVariable _ => true
  | _ => false
  end.

(** *** The message-passing transport

    [sent] lists the messages posted with [Isend], with their destination.
    [inbox r n] is the [n]-th message that arrives from rank [r], whatever
    the neighbour sent; [received r] counts the messages from [r] already
    taken by [Recv]. *)
Record world : Type := {
  sent : list (nat * ndarray);
  received : nat → nat;
  inbox : nat → nat → list nat → T
}.

(** The transport after [buf] has been posted to [dest], and after the next
    message from [source] has been taken. *)
Definition posted (buf : ndarray) (dest : nat) (net : world) : world :=
  {| sent := sent net ++ [(dest, buf)];
     received := received net; inbox := inbox net |}.

Definition taken (source : nat) (net : world) : world :=
  {| sent := sent net;
     received := fun r => if r =? source then S (received net r)
                          else received net r;
     inbox := inbox net |}.

(** [MPI.COMM_WORLD.Isend(buf, dest)]: the array is handed over as a
    buffer, which a view that is not contiguous cannot give; then nothing is
    posted. *)
Definition Isend (buf : ndarray) (dest : nat) (net : world) : result world :=
  if is_contiguous buf then Ok (posted buf dest net) else Raise BufferError.

(** [MPI.COMM_WORLD.Recv(buf, source)]: the message, to be written into the
    buffer, and the transport afterwards.  A view that is not contiguous is
    refused as for [Isend], and no message is taken. *)
Definition Recv (buf : ndarray) (source : nat) (net : world)
  : result ((list nat → T) * world) :=
  if is_contiguous buf
  then Ok (inbox net source (received net source), taken source net)
  else Raise BufferError.

(** *** [class MPI_Worker] *)

Record MPI_Worker : Type := {
  neighbor_ranks : nat * nat * nat * nat;
  i : ndarray;
  j : ndarray;
  variables : gmap key pyobj
}.

Definition store (w : MPI_Worker) (k : key) (o : pyobj) : MPI_Worker :=
  {| neighbor_ranks := neighbor_ranks w; i := i w; j := j w;
     variables := <[k := o]> (variables w) |}.

(** [MPI_Worker.__init__] *)
Definition MPI_Worker_init (i0 j0 : ndarray) (ranks : nat * nat * nat * nat)
  : result MPI_Worker :=
  if decide (shape i0 = shape j0) then
    Ok {| neighbor_ranks := ranks; i := i0; j := j0;
          variables := {[ inl "i" := PyArray i0; inl "j" := PyArray j0;
                          inl "_z" := PyArray (zeros (shape i0)) ]} |}
  else Raise AssertionError.

(** [_substitute_args] *)
Definition _substitute_args (self : MPI_Worker) (args : list pyobj)
  : result (list pyobj) :=
  rmap (fun arg =>
          match arg with
          | WorkerVariable k =>
              match variables self !! k with
              | Some o => Ok o
              | None => Raise KeyError
              end
          | _ => Ok arg
          end) args.

(** The names bound at module level, besides the builtins. *)
Definition module_globals : list string :=
  ["division"; "sys"; "operator"; "unittest"; "doctest"; "dill"; "MPI"; "np";
   "WorkerVariable"; "is_worker_variable"; "ZERO"; "I"; "J"; "MPI_Worker";
   "mpi_worker_main"; "MPI_Commander"; "TestCustomFunction";
   "TestPassingParamters"; "TestFunctions"].

(** Evaluating a name inside [_substitute_kwargs], whose local names are
    its parameters and the loop variable.  Neither [arg] nor [kwarg] is a
    builtin. *)
Definition lookup_name (self : MPI_Worker) (kwargs : gmap string pyobj)
    (kw : string) (name : string) : result pyobj :=
  if decide (name = "kwargs") then Ok (PyOpaque "kwargs")
  else if decide (name = "self") then Ok (PyOpaque "self")
  else if decide (name = "kw") then Ok (PyOpaque kw)
  else if decide (name ∈ module_globals) then Ok (PyOpaque name)
  else Raise NameError.

(** [_substitute_kwargs]: the loop body evaluates [is_worker_variable(arg)]
    and, in the branch, [kwarg[kw].keys]. *)
Definition _substitute_kwargs (self : MPI_Worker) (kwargs : gmap string pyobj)
  : result (gmap string pyobj) :=
  rfold (fun kw (kwargs : gmap string pyobj) =>
           rbind (lookup_name self kwargs kw "arg") (fun arg =>
           if is_worker_variable arg then
             rbind (lookup_name self kwargs kw "kwarg") (fun kwarg =>
             Raise AttributeError)
           else Ok kwargs))
        (map_to_list kwargs).*1 kwargs.

(** [_update_result_neighbor] *)
Definition _update_result_neighbor (self : MPI_Worker) (net : world)
    (result : ndarray) : world * outcome ndarray :=
  let '(x_m, x_p, y_m, y_p) := neighbor_ranks self in
  match rbind (row result 0) (fun buf => Isend buf x_m net) with
  | Raise e => (net, Raise e)
  | Ok net1 =>
  match rbind (row result (-1)) (fun buf => Isend buf x_p net1) with
  | Raise e => (net1, Raise e)
  | Ok net2 =>
  match rbind (column result 0) (fun buf => Isend buf y_m net2) with
  | Raise e => (net2, Raise e)
  | Ok net3 =>
  match rbind (column result (-1)) (fun buf => Isend buf y_p net3) with
  | Raise e => (net3, Raise e)
  | Ok net4 =>
  match shape result with
  | ni :: nj :: rest =>
      let full0 := ones ((ni + 2) :: (nj + 2) :: rest) in
      let full1 := set_interior full0 result in
      match rbind (row_strip full1 0) (fun buf => Recv buf x_m net4) with
      | Raise e => (net4, Raise e)
      | Ok (m1, net5) =>
      let full2 := set_row_strip full1 0 m1 in
      match rbind (row_strip full2 (-1)) (fun buf => Recv buf x_p net5) with
      | Raise e => (net5, Raise e)
      | Ok (m2, net6) =>
      let full3 := set_row_strip full2 (ni + 1) m2 in
      match rbind (column_strip full3 0) (fun buf => Recv buf y_m net6) with
      | Raise e => (net6, Raise e)
      | Ok (m3, net7) =>
      let full4 := set_column_strip full3 0 m3 in
      match rbind (column_strip full4 (-1)) (fun buf => Recv buf y_p net7) with
      | Raise e => (net7, Raise e)
      | Ok (m4, net8) =>
      let full5 := set_column_strip full4 (nj + 1) m4 in
      (net8, Ok full5)
      end end end end
  | _ => (net4, Raise ValueError)
  end end end end end.

(** [for res, var in zip(result, result_var): self._update_result(res, var)] *)
Definition update_each
    (update : MPI_Worker → world → pyobj → pyobj
              → MPI_Worker * world * outcome pyobj)
  : MPI_Worker → world → list pyobj → list pyobj
    → MPI_Worker * world * outcome pyobj :=
  fix loop (self : MPI_Worker) (net : world) (ress vars : list pyobj)
      {struct vars} :=
    match vars, ress with
    | var :: vars', res :: ress' =>
        match update self net res var with
        | (self', net', Ok _) => loop self' net' ress' vars'
        | (self', net', Raise e) => (self', net', Raise e)
        end
    | _, _ => (self, net, Ok PyNone)
    end.

(** [_update_result]: the worker and the transport afterwards, and what the
    method returns. *)
Fixpoint _update_result (self : MPI_Worker) (net : world)
    (result result_var : pyobj) {struct result_var}
  : MPI_Worker * world * outcome pyobj :=
  match result_var with
  | PyTuple vars =>
      match result with
      | PyTuple ress =>
          if decide (length ress = length vars) then
            update_each _update_result self net ress vars
          else (self, net, Raise AssertionError)
      | _ => (self, net, Raise AssertionError)
      end
  | PyNone => (self, net, Ok result)
  | _ =>
      if negb (is_worker_variable result_var)
      then (self, net, Raise AssertionError)
      else match result with
      | PyArray a =>
          if negb (2 <=? ndim a) then (self, net, Raise AssertionError)
          else
          match shape (i self), shape a, result_var with
          | n0 :: n1 :: _, r0 :: r1 :: _, WorkerVariable k =>
              let ni := (Z.of_nat n0 - 2)%Z in
              let nj := (Z.of_nat n1 - 2)%Z in
              if bool_decide ((Z.of_nat r0, Z.of_nat r1)
                              ≠ ((ni + 2)%Z, (nj + 2)%Z)) then
                if bool_decide ((Z.of_nat r0, Z.of_nat r1) = (ni, nj)) then
                  match _update_result_neighbor self net a with
                  | (net', Ok full) =>
                      (store self k (PyArray full), net', Ok PyNone)
                  | (net', Raise e) => (self, net', Raise e)
                  end
                else (self, net, Raise AssertionError)
              else (store self k (PyArray a), net, Ok PyNone)
          | _, _, _ => (self, net, Raise IndexError)
          end
      | _ => (self, net, Raise AssertionError)
      end
  end.

End Arrays.

Arguments shape {T} n.
Arguments strides {T} n.
Arguments item {T} n idx.
Arguments ndim {T} a.
Arguments array_equal {T} a b.
Arguments items sh.
Arguments c_strides sh.
Arguments packed axes.
Arguments is_contiguous {T} a.
Arguments ones {T} one sh.
Arguments zeros {T} zero sh.
Arguments row {T} a k.
Arguments column {T} a k.
Arguments middle {T} a.
Arguments row_strip {T} a k.
Arguments column_strip {T} a k.
Arguments interior {T} a.
Arguments set_interior {T} full src.
Arguments set_row_strip {T} full r msg.
Arguments set_column_strip {T} full c msg.
Arguments PyNone {T}.
Arguments PyArray {T} a.
Arguments PyTuple {T} l.
Arguments WorkerVariable {T} k.
Arguments PyScalar {T} x.
Arguments PyOpaque {T} name.
Arguments is_worker_variable {T} variable.
Arguments sent {T} w.
Arguments received {T} w r.
Arguments inbox {T} w r n idx.
Arguments posted {T} buf dest net.
Arguments taken {T} source net.
Arguments Isend {T} buf dest net.
Arguments Recv {T} buf source net.
Arguments neighbor_ranks {T} m.
Arguments i {T} m.
Arguments j {T} m.
Arguments variables {T} m.
Arguments store {T} w k o.
Arguments MPI_Worker_init {T} zero i0 j0 ranks.
Arguments _substitute_args {T} self args.
Arguments lookup_name {T} self kwargs kw name.
Arguments _substitute_kwargs {T} self kwargs.
Arguments _update_result_neighbor {T} one self net result.
Arguments update_each {T} update self net ress vars.
Arguments _update_result {T} one self net result result_var.

End Worker.

(** *** The commander's tile ranges

    [MPI_Commander._i_ranges] works in double precision: [ni / niProc] is a
    true division (the module imports [division] from [__future__]), the
    quotient is multiplied by each entry of [np.arange(niProc + 1)], and
    [np.around] rounds every product to the nearest integer, ties to even.
    Doubles are the kernel's binary64 numbers with their IEEE 754
    operations. *)

Module Commander.
Local Open Scope Z_scope.

Definition float := PrimFloat.float.

(** The double of a Python integer; exact below [2^53] in magnitude, which
    is where grid sizes and process counts live, and meant for integers
    below [2^63] in magnitude. *)
Definition float_of_int (n : Z) : float :=
  if n <? 0 then PrimFloat.opp (PrimFloat.of_uint63 (Uint63.of_Z (- n)))
  else PrimFloat.of_uint63 (Uint63.of_Z n).

(** [a / b] on two Python integers under true division. *)
Definition true_divide (a b : Z) : result float :=
  if b =? 0 then Raise ZeroDivisionError
  else Ok (PrimFloat.div (float_of_int a) (float_of_int b)).

(** [np.arange(n)] *)
Definition arange (n : Z) : list Z := seqZ 0 n.

(** The integer nearest to [|x|], ties to even.  [frshiftexp] and
    [normfr_mantissa] give [|x| = m * 2 ^ (e - 2101 - 53)] with
    [2^52 <= m < 2^53] (and [m = 0] for zero): for a non-negative exponent
    [|x|] is an integer already; for an exponent [- d] the quotient of [m]
    by [2^d] is rounded on its remainder, and is below one half once
    [d > 53]. *)
Definition rint (x : float) : Z :=
  let (f, e) := PrimFloat.frshiftexp x in
  let m := PrimFloat.normfr_mantissa f in
  let bias := Uint63.of_Z (2101 + 53) in
  if Uint63.leb bias e then Uint63.to_Z m * 2 ^ Uint63.to_Z (Uint63.sub e bias)
  else
    let d := Uint63.sub bias e in
    if Uint63.ltb (Uint63.of_Z 53) d then 0
    else
      let q := Uint63.lsr m d in
      let r := Uint63.sub m (Uint63.lsl q d) in
      let h := Uint63.lsl (Uint63.of_Z 1) (Uint63.sub d (Uint63.of_Z 1)) in
      Uint63.to_Z
        (if Uint63.ltb r h then q
         else if Uint63.ltb h r then Uint63.add q (Uint63.of_Z 1)
         else if Uint63.is_even q then q else Uint63.add q (Uint63.of_Z 1)).

(** [np.around(x)] for a finite [x], as the integer the returned double
    holds.  (Infinities and NaN, which [np.around] returns unchanged, have
    mantissa 0 here.) *)
Definition around (x : float) : Z :=
  if PrimFloat.ltb x (float_of_int 0) then - rint x else rint x.

(** [a[i]] on a one-dimensional array: negative indices count from the
    end. *)
Definition getitem (a : list Z) (i : Z) : result Z :=
  let n := Z.of_nat (length a) in
  let k := if i <? 0 then i + n else i in
  if (0 <=? k) && (k <? n)
  then match a !! Z.to_nat k with Some x => Ok x | None => Raise IndexError end
  else Raise IndexError.

(** The local variable [iRanges] of [_i_ranges]:
    [np.around(ni / niProc * np.arange(niProc + 1))]. *)
Definition iRanges (ni niProc : Z) : result (list Z) :=
  rbind (true_divide ni niProc) (fun q =>
  Ok ((fun p => around (PrimFloat.mul q (float_of_int p)))
        <$> arange (niProc + 1))).

(** [tuple((iRanges[i], iRanges[i+1]) for i in range(niProc))] *)
Definition _i_ranges (ni niProc : Z) : result (list (Z * Z)) :=
  rbind (iRanges ni niProc) (fun iRanges =>
  rmap (fun i => rbind (getitem iRanges i) (fun lo =>
                 rbind (getitem iRanges (i + 1)) (fun hi => Ok (lo, hi))))
       (seqZ 0 niProc)).

End Commander.

(** ** More of [mpi_worker_commander.py]: handles, calls and the session

    The remaining methods of [MPI_Worker], the worker loop, and the
    commander with the collective operations both sides perform. *)

Module Session.
Import Worker Commander.

(** *** [class WorkerVariable] *)

(** [WorkerVariable.__init__], threading the class attribute
    [__global_variable_key__]: the key of the new handle and the counter
    afterwards. *)
Definition WorkerVariable_init (key : option Worker.key) (counter : nat)
  : Worker.key * nat :=
  match key with
  | None => (inr counter, S counter)
  | Some k => (k, counter)
  end.

(** Handles created one after the other. *)
Fixpoint WorkerVariable_inits (keys : list (option Worker.key)) (counter : nat)
  : list Worker.key * nat :=
  match keys with
  | [] => ([], counter)
  | key :: keys' =>
      let '(k, counter1) := WorkerVariable_init key counter in
      let '(ks, counter2) := WorkerVariable_inits keys' counter1 in
      (k :: ks, counter2)
  end.

(** *** [MPI_Commander.__init__] *)

(** The ranks [(rank_x_m, rank_x_p, rank_y_m, rank_y_p)] computed for the
    worker at [(i, j)]. *)
Definition neighbor_ranks_at (niProc njProc i j : Z) : Z * Z * Z * Z :=
  (((i + niProc - 1) mod niProc * njProc + j)%Z,
   ((i + 1) mod niProc * njProc + j)%Z,
   (i * njProc + (j + njProc - 1) mod njProc)%Z,
   (i * njProc + (j + 1) mod njProc)%Z).

(** [first_message] and the rank it is sent to. *)
Definition first_message : Type := (Z * Z) * (Z * Z) * (Z * Z * Z * Z).

Record MPI_Commander : Type := {
  comm : bool;
  iRanges : list (Z * Z);
  jRanges : list (Z * Z)
}.

(** [__init__], after the workers are spawned: the commander and the
    messages it sends, in order, each with its destination rank. *)
Definition MPI_Commander_init (ni nj niProc njProc : Z)
  : result (MPI_Commander * list (Z * first_message)) :=
  rbind (_i_ranges ni niProc) (fun iRanges =>
  rbind (_i_ranges nj njProc) (fun jRanges =>
  Ok ({| comm := true; iRanges := iRanges; jRanges := jRanges |},
      flat_map (fun '(i, iRange) =>
        (fun '(j, jRange) =>
           let i := Z.of_nat i in
           let j := Z.of_nat j in
           let rank := (i * njProc + j)%Z in
           (rank, (iRange, jRange, neighbor_ranks_at niProc njProc i j)))
        <$> enumerate jRanges)
        (enumerate iRanges)))).

(** The collective operations on the communicator between the commander
    and its workers. *)
Inductive collective : Type := bcast | scatter | gather.

Section Calls.
Context {T : Type} (one : T).

(** A Python callable, as what it returns or raises on positional and
    keyword arguments; it leaves its arguments as they are. *)
Definition callable : Type :=
  list (pyobj T) → gmap string (pyobj T) → result (pyobj T).

(** [getattr(variable, method_name)] on a stored object: the bound method,
    if the object has one of that name. *)
Variable bound_method : pyobj T → string → option callable.

(** The worker together with its [custom_funcs]. *)
Record worker_state : Type := {
  worker : MPI_Worker T;
  custom_funcs : gmap string callable
}.

Definition with_worker (self : worker_state) (w : MPI_Worker T) : worker_state :=
  {| worker := w; custom_funcs := custom_funcs self |}.

(** [MPI_Worker.set_custom_func]: [dill.loads] gives back the function
    [dill.dumps] was given. *)
Definition MPI_Worker_set_custom_func (self : worker_state) (name : string)
    (func : callable) : worker_state :=
  {| worker := worker self; custom_funcs := <[name := func]> (custom_funcs self) |}.

(** [MPI_Worker.func] *)
Definition MPI_Worker_func (self : worker_state) (net : world T)
    (func : string + callable) (args : list (pyobj T))
    (kwargs : gmap string (pyobj T)) (result_var : pyobj T)
  : worker_state * world T * result (pyobj T) :=
  match match func with
        | inl name =>
            match custom_funcs self !! name with
            | Some f => Ok f
            | None => Raise KeyError
            end
        | inr f => Ok f
        end with
  | Raise e => (self, net, Raise e)
  | Ok func =>
  match _substitute_args (worker self) args with
  | Raise e => (self, net, Raise e)
  | Ok args =>
  match _substitute_kwargs (worker self) kwargs with
  | Raise e => (self, net, Raise e)
  | Ok kwargs =>
  match func args kwargs with
  | Raise e => (self, net, Raise e)
  | Ok result =>
      let '(w, net', out) := _update_result one (worker self) net result result_var in
      (with_worker self w, net', out)
  end end end end.

(** [MPI_Worker.method] *)
Definition MPI_Worker_method (self : worker_state) (net : world T)
    (variable : pyobj T) (method_name : string) (args : list (pyobj T))
    (kwargs : gmap string (pyobj T)) (result_var : pyobj T)
  : worker_state * world T * result (pyobj T) :=
  match variable with
  | WorkerVariable k =>
      match variables (worker self) !! k with
      | None => (self, net, Raise KeyError)
      | Some variable =>
      match bound_method variable method_name with
      | None => (self, net, Raise AttributeError)
      | Some method =>
      match _substitute_args (worker self) args with
      | Raise e => (self, net, Raise e)
      | Ok args =>
      match _substitute_kwargs (worker self) kwargs with
      | Raise e => (self, net, Raise e)
      | Ok kwargs =>
      match method args kwargs with
      | Raise e => (self, net, Raise e)
      | Ok result =>
          let '(w, net', out) :=
            _update_result one (worker self) net result result_var in
          (with_worker self w, net', out)
      end end end end end
  | _ => (self, net, Raise AssertionError)
  end.

(** *** The worker loop *)

(** The tasks the commander sends: the name of a method of the worker,
    [set_custom_func], [func] or [method], so that the assertion of the loop
    holds, with the arguments of the method. *)
Inductive task : Type :=
| set_custom_func_task (name : string) (func : callable)
| func_task (func : string + callable) (args : list (pyobj T))
    (kwargs : gmap string (pyobj T)) (result_var : pyobj T)
| method_task (variable : pyobj T) (method_name : string)
    (args : list (pyobj T)) (kwargs : gmap string (pyobj T))
    (result_var : pyobj T).

(** The call of [worker_method] on the arguments of the task. *)
Definition worker_method (self : worker_state) (net : world T) (t : task)
  : worker_state * world T * result (pyobj T) :=
  match t with
  | set_custom_func_task name func =>
      (MPI_Worker_set_custom_func self name func, net, Ok PyNone)
  | func_task func args kwargs result_var =>
      MPI_Worker_func self net func args kwargs result_var
  | method_task variable method_name args kwargs result_var =>
      MPI_Worker_method self net variable method_name args kwargs result_var
  end.

(** What one iteration of the worker loop is handed: ['finalize'], a task
    list by broadcast, or, after ['scatter'], a task list by scatter.  The
    flag [return_result] is [None], [True] or [False]. *)
Inductive delivery : Type :=
| finalize
| broadcast (t : task) (return_result : option bool)
| scattered (t : task) (return_result : option bool).

(** [if return_result is not None: command_comm.gather(return_val, 0)] *)
Definition worker_gather (return_result : option bool) : list collective :=
  match return_result with
  | None => []
  | Some _ => [gather]
  end.

(** The loop of [mpi_worker_main] on the deliveries [inbound]: the worker
    and the transport afterwards, the collective operations it completed,
    and how it stopped: normally, at ['finalize'] or waiting for the next
    broadcast, or with the exception a method raised. *)
Fixpoint mpi_worker_loop (self : worker_state) (net : world T)
    (inbound : list delivery)
  : worker_state * world T * list collective * result unit :=
  match inbound with
  | [] => (self, net, [], Ok tt)
  | finalize :: _ => (self, net, [bcast], Ok tt)
  | broadcast t return_result :: inbound' =>
      match worker_method self net t with
      | (self', net', Raise e) => (self', net', [bcast], Raise e)
      | (self', net', Ok return_val) =>
          let '(self'', net'', ops, out) := mpi_worker_loop self' net' inbound' in
          (self'', net'', bcast :: worker_gather return_result ++ ops, out)
      end
  | scattered t return_result :: inbound' =>
      match worker_method self net t with
      | (self', net', Raise e) => (self', net', [bcast; scatter], Raise e)
      | (self', net', Ok return_val) =>
          let '(self'', net'', ops, out) := mpi_worker_loop self' net' inbound' in
          (self'', net'',
           bcast :: scatter :: worker_gather return_result ++ ops, out)
      end
  end.

(** *** The commander's methods *)

(** What the commander puts on the communicator: a broadcast of
    ['finalize'] or of a task list, the broadcast of ['scatter'] followed by
    the scatter of one task list per worker, or a gather. *)
Inductive event : Type :=
| send_finalize
| send_task (t : task) (return_result : option bool)
| send_scatter (messages : list (task * option bool))
| recv_gather.

(** [self.comm.bcast], [self.comm.scatter] and [self.comm.gather] exist
    only while [self.comm] is not [None]. *)
Definition _broadcast_to_workers (self : MPI_Commander) (e : event)
  : result (list event) :=
  if comm self then Ok [e] else Raise AttributeError.

Definition _scatter_to_workers (self : MPI_Commander)
    (messages : list (task * option bool)) : result (list event) :=
  if comm self then Ok [send_scatter messages] else Raise AttributeError.

Definition _gather_from_workers (self : MPI_Commander) : result (list event) :=
  if comm self then Ok [recv_gather] else Raise AttributeError.

(** [if return_result:] *)
Definition truth (return_result : option bool) : bool :=
  match return_result with
  | Some true => true
  | _ => false
  end.

Definition then_gather (self : MPI_Commander) (return_result : option bool)
    (sent : list event) : result (list event) :=
  if truth return_result
  then rbind (_gather_from_workers self) (fun got => Ok (sent ++ got))
  else Ok sent.

(** The calls made on a commander. *)
Inductive command : Type :=
| call_set_custom_func (name : string) (func : callable)
| call_func (func : string + callable) (args : list (pyobj T))
    (kwargs : gmap string (pyobj T)) (result_var : pyobj T)
    (return_result : option bool)
| call_func_nonuniform_args (func : string + callable)
    (nonuniform_args : list (list (pyobj T)))
    (kwargs : gmap string (pyobj T)) (result_var : pyobj T)
    (return_result : option bool)
| call_method (variable_key : pyobj T) (method_name : string)
    (args : list (pyobj T)) (kwargs : gmap string (pyobj T))
    (result_var : pyobj T) (return_result : option bool)
| call_del.

(** One call: the commander afterwards and the events of the call. *)
Definition MPI_Commander_call (self : MPI_Commander) (c : command)
  : MPI_Commander * result (list event) :=
  match c with
  | call_set_custom_func name func =>
      (self,
       rbind (_broadcast_to_workers self
                (send_task (set_custom_func_task name func) (Some false)))
         (fun sent =>
       rbind (_gather_from_workers self) (fun got => Ok (sent ++ got))))
  | call_func f args kwargs result_var return_result =>
      (self,
       rbind (_broadcast_to_workers self
                (send_task (func_task f args kwargs result_var) return_result))
         (then_gather self return_result))
  | call_func_nonuniform_args f nonuniform_args kwargs result_var return_result =>
      (self,
       if decide (length nonuniform_args
                  = length (iRanges self) * length (jRanges self))
       then
         rbind (_scatter_to_workers self
                  ((fun args => (func_task f args kwargs result_var,
                                 return_result)) <$> nonuniform_args))
           (then_gather self return_result)
       else Raise AssertionError)
  | call_method variable_key method_name args kwargs result_var return_result =>
      (self,
       rbind (_broadcast_to_workers self
                (send_task (method_task variable_key method_name args kwargs
                              result_var) return_result))
         (then_gather self return_result))
  | call_del =>
      if comm self
      then ({| comm := false; iRanges := iRanges self; jRanges := jRanges self |},
            Ok [send_finalize])
      else (self, Ok [])
  end.

(** Calls one after the other, up to the first that raises. *)
Fixpoint MPI_Commander_calls (self : MPI_Commander) (cs : list command)
  : MPI_Commander * result (list event) :=
  match cs with
  | [] => (self, Ok [])
  | c :: cs' =>
      match MPI_Commander_call self c with
      | (self', Ok es) =>
          match MPI_Commander_calls self' cs' with
          | (self'', Ok es') => (self'', Ok (es ++ es'))
          | (self'', Raise e) => (self'', Raise e)
          end
      | (self', Raise e) => (self', Raise e)
      end
  end.

End Calls.

Arguments worker {T} w.
Arguments custom_funcs {T} w.
Arguments with_worker {T} self w.
Arguments MPI_Worker_set_custom_func {T} self name func.
Arguments MPI_Worker_func {T} one self net func args kwargs result_var.
Arguments MPI_Worker_method {T} one bound_method self net variable method_name
  args kwargs result_var.
Arguments worker_method {T} one bound_method self net t.
Arguments mpi_worker_loop {T} one bound_method self net inbound.
Arguments finalize {T}.
Arguments send_finalize {T}.
Arguments recv_gather {T}.
Arguments call_del {T}.
Arguments MPI_Commander_call {T} self c.
Arguments MPI_Commander_calls {T} self cs.

End Session.

(** ** Vocabulary of the specification

    The predicates, reference functions and concrete instances the
    facts and claims below are stated with.  The vocabulary of Part I
    that depends on the graph comes last, inside the section that fixes
    the graph. *)

(** *** Stage boundaries *)

(** The values alive after stage [k]: those [all !! i] with
    [c !! i ≤ k < d !! i], in the order of [all]. *)
Definition alive_at (c d : list Z) (k : Z) (p : nat * nat) : list nat :=
  match c !! p.1, d !! p.1 with
  | Some ci, Some di => if bool_decide (ci ≤ k ∧ di > k)%Z then [p.2] else []
  | _, _ => []
  end.

Definition stage_boundary (all : list nat) (c d : list Z) (k : Z) : list nat :=
  concat (alive_at c d k <$> enumerate all).

(** *** Evaluating a list of optional results *)

Fixpoint option_all {A B} (f : A → option B) (l : list A) : option (list B) :=
  match l with
  | [] => Some []
  | a :: l' =>
      match f a, option_all f l' with
      | Some b, Some bs => Some (b :: bs)
      | _, _ => None
      end
  end.

(** *** Concrete graphs *)

Module Examples.

Definition stencil (ins : list (obj Z)) : operation Z :=
  {| inputs := ins; access_neighbor := true;
     perform := fun args => (1 + foldr Z.add 0 args)%Z |}.

(** A two-step stencil: [a] is value 0 and has no producer,
    [b = stencil(a)] is value 1, [c = stencil(b, 10)] is value 2. *)
Definition two_step : heap Z := fun v =>
  match v with
  | 1 => {| shape := [2; 3]; owner := Some (stencil [Val 0]) |}
  | 2 => {| shape := [2; 3]; owner := Some (stencil [Val 1; Raw 10%Z]) |}
  | _ => {| shape := [2; 3]; owner := None |}
  end.

(** A state in which no value carries a run-time attribute. *)
Definition clean : state Z :=
  {| _tmp := ∅; _value_id := ∅; create_stage := ∅; discard_stage := ∅;
     performed := [] |}.

(** A partitioner answer for [two_step] with sources [a] and sinks [c]: the
    vertices are [c], [b], [a] in this order, one row [c d e] for each. *)
Definition two_step_partition (weights : list Z)
    (edges : list (nat * nat * bool)) : result (list (Z * Z * Z)) :=
  Ok [(2, 2, 0); (1, 2, 0); (0, 1, 0)]%Z.

(** A partitioner answer discarding everything at stage 0. *)
Definition flat_partition (weights : list Z)
    (edges : list (nat * nat * bool)) : result (list (Z * Z * Z)) :=
  Ok [(0, 0, 0); (0, 0, 0)]%Z.

(** A partitioner answer for [two_step] discarding every value in the stage
    that creates it: [c ≤ d] holds in every row, and [a] is no longer there
    when [b] is created. *)
Definition hasty_partition (weights : list Z)
    (edges : list (nat * nat * bool)) : result (list (Z * Z * Z)) :=
  Ok [(2, 2, 0); (1, 1, 0); (0, 0, 0)]%Z.

(** A partitioner answer for a graph of one vertex. *)
Definition single_partition (weights : list Z)
    (edges : list (nat * nat * bool)) : result (list (Z * Z * Z)) :=
  Ok [(0, 1, 0)]%Z.

End Examples.

(** *** Arrays and worker stores *)

Section WorkerVocabulary.
Import Worker.
Context {T : Type} (one : T).

(** The padded array built from [r] and the four received strips. *)
Definition padded (r : ndarray T) (m1 m2 m3 m4 : list nat → T) : ndarray T :=
  match shape r with
  | ni :: nj :: rest =>
      set_column_strip
        (set_column_strip
           (set_row_strip
              (set_row_strip
                 (set_interior (ones one ((ni + 2) :: (nj + 2) :: rest)) r)
                 0 m1)
              (ni + 1) m2)
           0 m3)
        (nj + 1) m4
  | _ => r
  end.

(** An array laid out in C order, as every new array is. *)
Definition c_ordered (a : ndarray T) : Prop := strides a = c_strides (shape a).

(** Induction over Python objects, through the elements of tuples. *)
Section pyobj_induction.
Variable P : pyobj T → Prop.
Hypothesis HNone : P PyNone.
Hypothesis HArray : ∀ a, P (PyArray a).
Hypothesis HTuple : ∀ l, Forall P l → P (PyTuple l).
Hypothesis HVariable : ∀ k, P (WorkerVariable k).
Hypothesis HScalar : ∀ x, P (PyScalar x).
Hypothesis HOpaque : ∀ name, P (PyOpaque name).

Fixpoint pyobj_nested_ind (o : pyobj T) : P o :=
  match o with
  | PyNone => HNone
  | PyArray a => HArray a
  | PyTuple l =>
      HTuple l ((fix all (l : list (pyobj T)) : Forall P l :=
                   match l with
                   | [] => @List.Forall_nil _ P
                   | x :: l' =>
                       @List.Forall_cons _ P x l' (pyobj_nested_ind x) (all l')
                   end) l)
  | WorkerVariable k => HVariable k
  | PyScalar x => HScalar x
  | PyOpaque name => HOpaque name
  end.

End pyobj_induction.

(** An array with at least two dimensions. *)
Definition rank2 (o : pyobj T) : Prop := ∃ a, o = PyArray a ∧ 2 ≤ ndim a.

(** Every variable of [w'] is a variable of [w] or an array with at least
    two dimensions. *)
Definition stores_arrays (w w' : MPI_Worker T) : Prop :=
  ∀ k o, variables w' !! k = Some o → variables w !! k = Some o ∨ rank2 o.

End WorkerVocabulary.

(** *** Concrete workers *)

Module WorkerExamples.
Import Worker.

(** An array whose element at [(p, q, ...)] is [p + 10 q + ...]. *)
Definition ramp (sh : list nat) : ndarray Z :=
  {| shape := sh; strides := c_strides sh;
     item := fun idx => foldr (fun m acc => (Z.of_nat m + 10 * acc)%Z) 0%Z idx |}.

(** A transport delivering, as [n]-th message from rank [r], the constant
    [100 r + n]. *)
Definition quiet : world Z :=
  {| sent := []; received := fun _ => 0;
     inbox := fun r n _ => (100 * Z.of_nat r + Z.of_nat n)%Z |}.

(** A worker owning a 2 x 3 tile: its coordinate arrays are 4 x 5. *)
Definition tile_worker : MPI_Worker Z :=
  {| neighbor_ranks := (1, 2, 3, 4); i := ramp [4; 5]; j := ramp [4; 5];
     variables := {[ inl "i" := PyArray (ramp [4; 5]) ]} |}.

(** A worker owning a tile of one row, 1 x 3: its coordinate arrays are
    3 x 5. *)
Definition row_worker : MPI_Worker Z :=
  {| neighbor_ranks := (1, 2, 3, 4); i := ramp [3; 5]; j := ramp [3; 5];
     variables := {[ inl "i" := PyArray (ramp [3; 5]) ]} |}.

(** A worker whose tile has no rows: its coordinate arrays are 2 x 3. *)
Definition empty_tile_worker : MPI_Worker Z :=
  {| neighbor_ranks := (1, 1, 0, 0); i := ramp [2; 3]; j := ramp [2; 3];
     variables := ∅ |}.

End WorkerExamples.

(** *** Tile bounds *)

Section TilingVocabulary.
Import Commander.
Local Open Scope Z_scope.







End TilingVocabulary.

(** *** Vocabulary of the further properties *)

(** The elements of a list at its even positions, and those at its odd
    positions. *)
Fixpoint alternate {A} (l : list A) : list A * list A :=
  match l with
  | [] => ([], [])
  | x :: l' => (x :: (alternate l').2, (alternate l').1)
  end.

(** The elements at the even positions, then those at the even positions
    of the rest, and so on, for at most [n] rounds. *)
Fixpoint rounds {A} (n : nat) (l : list A) : list A :=
  match n, l with
  | S n', _ :: _ => (alternate l).1 ++ rounds n' (alternate l).2
  | _, _ => []
  end.

(** Further concrete graphs and states. *)

Module Scenarios.
Import Examples.

(** A fan: every value but [a], which is value 0 and has no producer, is
    [stencil(a)]. *)
Definition fan : heap Z := fun v =>
  match v with
  | 0 => {| shape := [2; 3]; owner := None |}
  | _ => {| shape := [2; 3]; owner := Some (stencil [Val 0]) |}
  end.

(** A state in which value 0 still carries a [_tmp] attribute. *)
Definition stale : state Z :=
  {| _tmp := {[ 0 := 7%Z ]}; _value_id := ∅; create_stage := ∅;
     discard_stage := ∅; performed := [] |}.

(** The stage of [two_step] from [a] to [c]. *)
Definition whole : AtomicStage :=
  {| source_values := [0]; triburary_values := [];
     sorted_values := [1; 2]; sink_values := [2] |}.

(** A stage listing its source twice. *)
Definition doubled : AtomicStage :=
  {| source_values := [0; 0]; triburary_values := [];
     sorted_values := []; sink_values := [0] |}.

(** The two stages of [two_step] cut after [b]: from [a] to [b] and from
    [b] to [c]. *)
Definition first_half : AtomicStage :=
  {| source_values := [0]; triburary_values := [];
     sorted_values := [1]; sink_values := [1] |}.

Definition second_half : AtomicStage :=
  {| source_values := [1]; triburary_values := [];
     sorted_values := [2]; sink_values := [2] |}.

(** The state in which [c], [b] and [a] carry the stages of
    [two_step_partition]. *)
Definition staged : state Z :=
  {| _tmp := ∅; _value_id := ∅;
     create_stage := {[ 2 := 2%Z; 1 := 1%Z; 0 := 0%Z ]};
     discard_stage := {[ 2 := 2%Z; 1 := 2%Z; 0 := 1%Z ]};
     performed := [] |}.

(** A graph of one vertex: value 0, without a producer. *)
Definition lone : heap Z := fun _ => {| shape := [2; 3]; owner := None |}.

End Scenarios.

(** *** Exchanges and stores *)

Section ExchangeVocabulary.
Import Worker.
Context {T : Type}.

(** How many of the receives [l], listed by source rank, take a message
    from rank [s]. *)
Definition arrivals (l : list nat) (s : nat) : nat :=
  length (filter (λ r, r = s) l).



(** What [_substitute_args] makes of one argument. *)
Definition substituted (w : MPI_Worker T) (arg out : pyobj T) : Prop :=
  match arg with
  | WorkerVariable k => variables w !! k = Some out
  | _ => out = arg
  end.

(** Every variable of [w] is an array whose leading two dimensions are
    those of the coordinate array [i]. *)
Definition tiled (w : MPI_Worker T) : Prop :=
  ∀ k o, variables w !! k = Some o →
         ∃ a, o = PyArray a ∧ take 2 (shape a) = take 2 (shape (i w)).

End ExchangeVocabulary.

(** *** Sessions *)

Section SessionVocabulary.
Import Worker Session.
Context {T : Type}.

(** The collective operations an event of the commander consists of. *)
Definition collectives_of (e : event (T:=T)) : list collective :=
  match e with
  | send_finalize => [bcast]
  | send_task _ _ => [bcast]
  | send_scatter _ => [bcast; scatter]
  | recv_gather => [gather]
  end.

(** What the events of the commander hand to the loop of the worker of
    rank [rank]. *)
Definition deliveries (rank : nat) (es : list (event (T:=T)))
  : list (delivery (T:=T)) :=
  flat_map (fun e =>
    match e with
    | send_finalize => [finalize]
    | send_task t return_result => [broadcast t return_result]
    | send_scatter messages =>
        match messages !! rank with
        | Some (t, return_result) => [scattered t return_result]
        | None => []
        end
    | recv_gather => []
    end) es.

(** A call of [func], [func_nonuniform_args] or [method] with
    [return_result=False]. *)
Definition silent (c : command (T:=T)) : bool :=
  match c with
  | call_func _ _ _ _ (Some false)
  | call_func_nonuniform_args _ _ _ _ (Some false)
  | call_method _ _ _ _ _ (Some false) => true
  | _ => false
  end.

End SessionVocabulary.

(** *** Two workers and a session *)

Module ExchangeExamples.
Import Worker WorkerExamples.




End ExchangeExamples.

Module SessionExamples.
Import Worker WorkerExamples Session.

(** A function returning its first argument. *)
Definition first_argument : callable (T:=Z) := fun args _ =>
  match args with
  | x :: _ => Ok x
  | [] => Ok PyNone
  end.

(** Objects without methods. *)
Definition no_methods : pyobj Z → string → option (callable (T:=Z)) :=
  fun _ _ => None.

(** The worker of [WorkerExamples], with no function registered. *)
Definition idle : worker_state (T:=Z) :=
  {| worker := tile_worker; custom_funcs := ∅ |}.

(** A commander of one by two workers. *)
Definition one_by_two : MPI_Commander :=
  {| comm := true; iRanges := [(0, 4)%Z]; jRanges := [(0, 4)%Z; (4, 8)%Z] |}.

(** Registering a function, calling it by name on [i] with the result
    kept under a fresh key, calling it with one argument tuple per worker,
    and closing. *)
Definition calls : list (command (T:=Z)) :=
  [ call_set_custom_func "first" first_argument;
    call_func (inl "first") [WorkerVariable (inl "i")] ∅
      (WorkerVariable (inr 0)) (Some true);
    call_func_nonuniform_args (inl "first")
      [[WorkerVariable (inl "i")]; [WorkerVariable (inr 0)]] ∅ PyNone None;
    call_del ].

(** The events of these calls. *)
Definition events : list (event (T:=Z)) :=
  [ send_task (set_custom_func_task "first" first_argument) (Some false);
    recv_gather;
    send_task (func_task (inl "first") [WorkerVariable (inl "i")] ∅
                 (WorkerVariable (inr 0))) (Some true);
    recv_gather;
    send_scatter
      [ (func_task (inl "first") [WorkerVariable (inl "i")] ∅ PyNone, None);
        (func_task (inl "first") [WorkerVariable (inr 0)] ∅ PyNone, None) ];
    send_finalize ].

End SessionExamples.

(** ** Part I: the graph

    One graph [G] is fixed for the vocabulary and the facts of Part I. *)

Section Graph.
Context {C : Type} (G : heap C).

Section Vocabulary.
Implicit Types (v u w : nat) (srcs snks disc trib all : list nat).
Implicit Types (st : list nat * list nat) (x : obj C) (stage : AtomicStage).
Implicit Types (tbl : gmap nat C) (cs : list C) (f : nat → C).

(** *** Discovery *)

(** [x] is a constant, a formal source, an internal value or a tributary. *)
Definition covered srcs st x : Prop :=
  match x with
  | Raw _ => True
  | Val v => v ∈ srcs ∨ v ∈ st.1 ∨ v ∈ st.2
  end.

Definition st_incl st st' : Prop := st.1 ⊆ st'.1 ∧ st.2 ⊆ st'.2.

(** The invariant of the walk.  Values in [P] are those whose inputs are
    still being traversed. *)
Record walk_inv srcs (P : nat → Prop) st : Prop := {
  inv_nodup1 : NoDup st.1;
  inv_nodup2 : NoDup st.2;
  inv_disc : ∀ v, v ∈ st.1 → (v ∉ srcs) ∧ is_Some (owner (G v));
  inv_trib : ∀ v, v ∈ st.2 → (v ∉ srcs) ∧ owner (G v) = None;
  inv_closed : ∀ v op x, v ∈ st.1 → ¬ P v → owner (G v) = Some op →
                         x ∈ inputs op → covered srcs st x
}.

(** *** Sorting *)

(** All inputs of [v] are computable from the values in [s]. *)
Definition ready (s : list nat) v : Prop :=
  ∃ op, owner (G v) = Some op
        ∧ forallb (is_computable G s) (inputs op) = true.

(** Every value of [l] from position [n0] on is ready given the values
    before it. *)
Definition topo (n0 : nat) (l : list nat) : Prop :=
  ∀ i v, n0 ≤ i → l !! i = Some v → ready (take i l) v.

(** Every input of a value still to be sorted is already sorted, unowned, or
    itself still to be sorted. *)
Definition pending_closed (s l : list nat) : Prop :=
  ∀ v, v ∈ l →
    ∃ op, owner (G v) = Some op
          ∧ ∀ w, Val w ∈ inputs op → w ∈ s ∨ owner (G w) = None ∨ w ∈ l.

(** *** Stages *)

(** The invariant of a constructed stage. *)
Record stage_wf stage : Prop := {
  wf_nodup_sorted : NoDup (sorted_values stage);
  wf_nodup_trib : NoDup (triburary_values stage);
  wf_sorted : ∀ v, v ∈ sorted_values stage →
                   (v ∉ source_values stage) ∧ is_Some (owner (G v));
  wf_trib : ∀ v, v ∈ triburary_values stage →
                 (v ∉ source_values stage) ∧ owner (G v) = None;
  wf_closed : ∀ v op x, v ∈ sorted_values stage → owner (G v) = Some op →
                x ∈ inputs op →
                covered (source_values stage)
                        (sorted_values stage, triburary_values stage) x;
  wf_sinks : ∀ v, v ∈ sink_values stage →
                  covered (source_values stage)
                          (sorted_values stage, triburary_values stage) (Val v);
  wf_topo : ∀ i v, sorted_values stage !! i = Some v →
              ∃ op, owner (G v) = Some op
                    ∧ ∀ u, Val u ∈ inputs op →
                           u ∈ source_values stage ∨ owner (G u) = None
                           ∨ u ∈ take i (sorted_values stage)
}.

(** *** Total-correctness triples and attribute maps *)

(** From every state satisfying [P], [m] returns normally, and the result and
    the final state satisfy [Q]. *)
Definition hoare {A} (P : state C → Prop) (m : M C A)
    (Q : A → state C → Prop) : Prop :=
  ∀ s, P s → ∃ a s', m s = (s', Ok a) ∧ Q a s'.

(** Attaching an attribute to, and deleting it from, a list of values. *)
Definition tmp_bind {A} (l : list (nat * A)) (t : gmap nat A) : gmap nat A :=
  foldl (fun t p => <[p.1 := p.2]> t) t l.

Definition tmp_unbind {A} (l : list nat) (t : gmap nat A) : gmap nat A :=
  foldl (fun t v => delete v t) t l.

Definition id_binding (p : nat * nat) : nat * nat := (p.2, p.1).

(** *** Invocation *)

(** The state [s0] with other [_tmp] attributes and another log. *)
Definition with_tmp_log (t : gmap nat C) (lg : list (nat * list C))
    (s0 : state C) : state C :=
  {| _tmp := t; _value_id := _value_id s0; create_stage := create_stage s0;
     discard_stage := discard_stage s0; performed := lg |}.

(** [c] is what the evaluation loop passes for the input [x]. *)
Definition arg_of tbl x (c : C) : Prop :=
  match x with
  | Val u => tbl !! u = Some c
  | Raw c' => c = c'
  end.

(** [v] is bound to [perform] of its owner on the substituted inputs. *)
Definition evaluated tbl v (args : list C) : Prop :=
  ∃ op, owner (G v) = Some op
        ∧ Forall2 (arg_of tbl) (inputs op) args
        ∧ tbl !! v = Some (perform op args).

(** The symbol table of an invocation. *)
Definition symbol_table stage (cs : list C) (f : nat → C) tbl : Prop :=
  (∀ i v c, source_values stage !! i = Some v → cs !! i = Some c →
            tbl !! v = Some c)
  ∧ (∀ v, v ∈ triburary_values stage → tbl !! v = Some (f v))
  ∧ (∀ v, v ∈ sorted_values stage → ∃ args, evaluated tbl v args).

(** The resolver answers [f v] for every tributary [v]. *)
Definition resolves (r : resolver C) (trib : list nat) (f : nat → C) : Prop :=
  match r with
  | Callable g => ∀ v, v ∈ trib → g v = f v
  | Indexable m => ∀ v, v ∈ trib → m !! v = Some (f v)
  | Neither => False
  end.

(** *** Direct evaluation

    The reference the staged evaluation is compared with: the concrete value
    of a node is its binding if it is a source, what the resolver gives if it
    has no producer, and otherwise [perform] applied to the concrete values
    of its inputs. *)

Fixpoint direct_eval_aux srcs cs f (fuel : nat) x : option C :=
  match x with
  | Raw c => Some c
  | Val v =>
      if decide (v ∈ srcs) then
        (list_to_map (zip srcs cs) : gmap nat C) !! v
      else match owner (G v) with
           | None => Some (f v)
           | Some op =>
               match fuel with
               | 0 => None
               | S fuel' =>
                   perform op
                     <$> option_all (direct_eval_aux srcs cs f fuel') (inputs op)
               end
           end
  end.

(** In a [dag] the graph below [v] is no deeper than [v]. *)
Definition direct_eval srcs cs f v : option C :=
  direct_eval_aux srcs cs f (S v) (Val v).

(** *** Reachability *)

(** [u] is an input of the producer of [v]. *)
Definition feeds (u v : nat) : Prop :=
  ∃ op, owner (G v) = Some op ∧ Val u ∈ inputs op.

(** Reachable from the sinks along producer edges. *)
Inductive reachable (snks : list nat) : nat → Prop :=
| reachable_sink v : v ∈ snks → reachable snks v
| reachable_input u v : reachable snks v → feeds u v → reachable snks u.

(** Reachable from the sinks along producer edges without passing through a
    formal source: the walk of a stage stops at its sources. *)
Inductive stage_reachable (srcs snks : list nat) : nat → Prop :=
| stage_reachable_sink v : v ∈ snks → stage_reachable srcs snks v
| stage_reachable_input u v :
    stage_reachable srcs snks v → v ∉ srcs → feeds u v →
    stage_reachable srcs snks u.

End Vocabulary.

Section PipelineVocabulary.
Implicit Types (v u w : nat) (srcs snks disc trib all : list nat).
Implicit Types (cs : list C) (f : nat → C) (c d : list Z) (k N : Z).

(** *** The partitioner and the pipeline *)

(** The stages built along a sequence of cuts: from [prev] to the first cut,
    from each cut to the next. *)
Fixpoint chain_stages (prev : list nat)
    (cuts : list (list nat)) : result (list AtomicStage) :=
  match cuts with
  | [] => Ok []
  | next :: cuts' =>
      rbind (AtomicStage_init G prev next) (fun stage =>
      rbind (chain_stages next cuts') (fun stages =>
      Ok (stage :: stages)))
  end.

(** The sources of the whole computation that a stage from [prev] to
    [next] depends on are among its formal sources: walking from [next] to
    the inputs of the producers and stopping at [prev], no value of [srcs]
    is met that is not in [prev]. *)
Definition carries srcs (prev next : list nat) : Prop :=
  ∀ v, v ∈ srcs → stage_reachable prev next v → v ∈ prev.

(** A chain of cuts along which every stage, run on the direct evaluation
    of its formal sources, returns the direct evaluation of its sinks. *)
Fixpoint chain_ok srcs cs f (prev : list nat) (cuts : list (list nat))
  : Prop :=
  match cuts with
  | [] => True
  | next :: cuts' =>
      NoDup prev
      ∧ (∀ ck, Forall2 (fun v a => direct_eval srcs cs f v = Some a) prev ck →
               ∀ t, t ∈ next → direct_eval prev ck f t = direct_eval srcs cs f t)
      ∧ chain_ok srcs cs f next cuts'
  end.

End PipelineVocabulary.

(** ** Facts about the error monad *)

Section ResultFacts.
Context {A S : Type}.

(** A loop invariant [I], a preorder [R] relating the accumulator before and
    after, and a fact [Q] established for each visited element and kept
    along [R]. *)
Lemma rfold_inv (body : A → S → result S) (I : S → Prop) (R : S → S → Prop)
    (Q : S → A → Prop) (l : list A) :
  (∀ s, R s s) →
  (∀ s1 s2 s3, R s1 s2 → R s2 s3 → R s1 s3) →
  (∀ s s' x, R s s' → Q s x → Q s' x) →
  (∀ x s s', x ∈ l → body x s = Ok s' → I s → I s' ∧ R s s' ∧ Q s' x) →
  ∀ s s', rfold body l s = Ok s' → I s →
          I s' ∧ R s s' ∧ ∀ x, x ∈ l → Q s' x.
Proof.
  intros Hrefl Htrans Hmono.
  induction l as [|x l IH]; intros Hbody s s' Hrun HI; simpl in Hrun.
  - inversion Hrun; subst. split_and!; auto. intros x Hx. inversion Hx.
  - destruct (body x s) as [s1|e] eqn:Hx; simpl in Hrun; [|discriminate].
    destruct (Hbody x s s1) as (HI1 & HR1 & HQ1); auto; [left|].
    destruct (IH (fun y t t' Hy => Hbody y t t' (list_elem_of_further _ _ _ Hy))
                 s1 s' Hrun HI1) as (HI' & HR' & HQ').
    split_and!; eauto.
    intros y Hy. apply elem_of_cons in Hy as [->|Hy]; eauto.
Qed.

(** A loop whose body cannot fail does not fail. *)
Lemma rfold_total (body : A → S → result S) (l : list A) :
  (∀ x s, x ∈ l → ∃ s', body x s = Ok s') →
  ∀ s, ∃ s', rfold body l s = Ok s'.
Proof.
  induction l as [|x l IH]; intros Hbody s; simpl; [eauto|].
  destruct (Hbody x s) as [s1 ->]; [left|]. simpl.
  apply IH. intros y t Hy. apply Hbody. by right.
Qed.

End ResultFacts.

(** ** Facts about [discover_values] *)

Section DiscoverFacts.
Implicit Types (v u : nat) (st : list nat * list nat) (x : obj C).
Implicit Types (srcs : list nat).

Lemma st_incl_refl st : st_incl st st.
Proof. by split. Qed.

Lemma st_incl_trans st1 st2 st3 :
  st_incl st1 st2 → st_incl st2 st3 → st_incl st1 st3.
Proof. intros [? ?] [? ?]. split; set_solver. Qed.

Lemma covered_mono srcs st st' x :
  st_incl st st' → covered srcs st x → covered srcs st' x.
Proof. intros [? ?]. destruct x; simpl; [|done]. set_solver. Qed.

Lemma discover_values_from_spec srcs fuel :
  ∀ x st st' P,
    discover_values_from G fuel srcs x st = Ok st' →
    walk_inv srcs P st →
    walk_inv srcs P st' ∧ st_incl st st' ∧ covered srcs st' x.
Proof.
  induction fuel as [|fuel IH]; intros x [disc trib] st' P Hrun Hinv;
    destruct x as [v|c]; simpl in Hrun;
    try (inversion Hrun; subst; split_and!; [done|apply st_incl_refl|done]).
  - destruct (decide (v ∈ srcs)).
    { inversion Hrun; subst. split_and!; [done|apply st_incl_refl|by left]. }
    destruct (owner (G v)) as [op|] eqn:Hown.
    + destruct (decide (v ∈ disc)); [|discriminate].
      inversion Hrun; subst. split_and!; [done|apply st_incl_refl|].
      right; by left.
    + destruct (decide (v ∈ trib)).
      * inversion Hrun; subst. split_and!; [done|apply st_incl_refl|].
        right; by right.
      * inversion Hrun; subst. destruct Hinv as [H1 H2 H3 H4 H5]. simpl in *.
        split_and!.
        -- split; simpl; auto.
           ++ apply NoDup_app. split_and!; auto.
              ** intros y Hy Hy'. apply list_elem_of_singleton in Hy'. by subst.
              ** apply NoDup_singleton.
           ++ intros y Hy. apply elem_of_app in Hy as [Hy|Hy]; auto.
              apply list_elem_of_singleton in Hy. by subst.
           ++ intros y op x Hy HP Hop Hx.
              eapply covered_mono; [|by eapply H5].
              split; simpl; [done|]. set_solver.
        -- split; simpl; [done|]. set_solver.
        -- right; right. set_solver.
  - destruct (decide (v ∈ srcs)).
    { inversion Hrun; subst. split_and!; [done|apply st_incl_refl|by left]. }
    destruct (owner (G v)) as [op|] eqn:Hown.
    + destruct (decide (v ∈ disc)).
      { inversion Hrun; subst. split_and!; [done|apply st_incl_refl|].
        right; by left. }
      simpl in Hrun. destruct Hinv as [H1 H2 H3 H4 H5]. simpl in *.
      (* [v] joins the discovered values; its inputs are walked with [v]
         among the pending values *)
      assert (Hinv1 : walk_inv srcs (fun w => P w ∨ w = v) (disc ++ [v], trib)).
      { split; simpl; auto.
        - apply NoDup_app. split_and!; auto.
          + intros y Hy Hy'. apply list_elem_of_singleton in Hy'. by subst.
          + apply NoDup_singleton.
        - intros y Hy. apply elem_of_app in Hy as [Hy|Hy]; auto.
          apply list_elem_of_singleton in Hy. subst. split; [done|].
          rewrite Hown. eauto.
        - intros y op' x Hy HP Hop Hx.
          apply elem_of_app in Hy as [Hy|Hy].
          + eapply covered_mono; [|eapply (H5 y); eauto].
            split; simpl; [|done]. set_solver.
          + apply list_elem_of_singleton in Hy. subst. destruct HP. by right. }
      destruct (rfold_inv (discover_values_from G fuel srcs)
                  (walk_inv srcs (fun w => P w ∨ w = v)) st_incl
                  (covered srcs) (inputs op) st_incl_refl st_incl_trans
                  (fun s s' x => covered_mono srcs s s' x)
                  (fun x s s' _ Hb Hi => IH x s s' _ Hb Hi)
                  _ _ Hrun Hinv1) as (Hinv' & Hincl' & Hcov').
      destruct Hinv' as [K1 K2 K3 K4 K5].
      split_and!.
      * split; auto.
        intros y op' x Hy HP Hop Hx.
        destruct (decide (y = v)) as [->|Hne].
        -- rewrite Hown in Hop. inversion Hop; subst. by apply Hcov'.
        -- eapply K5; eauto. intros [?|?]; done.
      * destruct Hincl' as [I1 I2]. split; simpl in *; [|done]. set_solver.
      * right; left. destruct Hincl' as [I1 I2]. simpl in *. set_solver.
    + destruct (decide (v ∈ trib)).
      * inversion Hrun; subst. split_and!; [done|apply st_incl_refl|].
        right; by right.
      * inversion Hrun; subst. destruct Hinv as [H1 H2 H3 H4 H5]. simpl in *.
        split_and!.
        -- split; simpl; auto.
           ++ apply NoDup_app. split_and!; auto.
              ** intros y Hy Hy'. apply list_elem_of_singleton in Hy'. by subst.
              ** apply NoDup_singleton.
           ++ intros y Hy. apply elem_of_app in Hy as [Hy|Hy]; auto.
              apply list_elem_of_singleton in Hy. by subst.
           ++ intros y op x Hy HP Hop Hx.
              eapply covered_mono; [|by eapply H5].
              split; simpl; [done|]. set_solver.
        -- split; simpl; [done|]. set_solver.
        -- right; right. set_solver.
Qed.

Lemma discover_values_from_total srcs fuel :
  dag G →
  ∀ x st, (∀ v, x = Val v → v < fuel) →
          ∃ st', discover_values_from G fuel srcs x st = Ok st'.
Proof.
  intros Hdag. induction fuel as [|fuel IH]; intros x st Hlt;
    destruct x as [v|c]; simpl; eauto.
  - specialize (Hlt v eq_refl). lia.
  - destruct (decide (v ∈ srcs)); eauto.
    destruct (owner (G v)) as [op|] eqn:Hown.
    + destruct (decide (v ∈ st.1)); eauto.
      apply rfold_total. intros x t Hx. apply IH. intros u ->.
      specialize (Hlt v eq_refl). specialize (Hdag v op u Hown Hx). lia.
    + destruct (decide (v ∈ st.2)); eauto.
Qed.

Lemma le_foldr_max (l : list nat) v : v ∈ l → v ≤ foldr Nat.max 0 l.
Proof.
  induction l as [|y l IH]; intros Hv; [inversion Hv|].
  apply elem_of_cons in Hv as [->|Hv]; simpl; [lia|].
  specialize (IH Hv). lia.
Qed.

Lemma walk_inv_nil srcs P : walk_inv srcs P ([], []).
Proof.
  split; simpl; try apply NoDup_nil_2; intros v.
  - intros Hv. inversion Hv.
  - intros Hv. inversion Hv.
  - intros op x Hv. inversion Hv.
Qed.

(** What [discover_values] returns: two duplicate-free lists, the first of
    owned and the second of unowned values, none of them a source, which
    together with the sources contain the sinks and every input of a
    discovered value. *)
Lemma discover_values_spec srcs snks disc trib :
  discover_values G srcs snks = Ok (disc, trib) →
  walk_inv srcs (fun _ => False) (disc, trib)
  ∧ ∀ v, v ∈ snks → covered srcs (disc, trib) (Val v).
Proof.
  unfold discover_values. intros Hrun.
  destruct (rfold_inv (discover_values_from G (walk_depth snks) srcs)
              (walk_inv srcs (fun _ => False)) st_incl
              (covered srcs) (Val <$> snks) st_incl_refl st_incl_trans
              (fun s s' x => covered_mono srcs s s' x)
              (fun x s s' _ Hb Hi =>
                 discover_values_from_spec srcs _ x s s' _ Hb Hi)
              _ _ Hrun (walk_inv_nil srcs _)) as (Hinv & _ & Hcov).
  split; [done|]. intros v Hv. apply Hcov. by apply list_elem_of_fmap_2.
Qed.

Lemma discover_values_total srcs snks :
  dag G → ∃ st, discover_values G srcs snks = Ok st.
Proof.
  intros Hdag. unfold discover_values. apply rfold_total.
  intros x st Hx. apply discover_values_from_total; [done|].
  intros v ->. apply list_elem_of_fmap in Hx as (u & Hu & Hin).
  inversion Hu; subst. unfold walk_depth.
  pose proof (le_foldr_max _ _ Hin). lia.
Qed.

End DiscoverFacts.

(** ** Facts about [sort_values] *)

Section SortFacts.
Implicit Types (v u w : nat) (s l m : list nat) (x : obj C).

Lemma list_remove_perm v l : v ∈ l → l ≡ₚ v :: list_remove v l.
Proof.
  induction l as [|y l IH]; intros Hv; [inversion Hv|]. simpl.
  destruct (decide (y = v)) as [->|Hne]; [done|].
  apply elem_of_cons in Hv as [->|Hv]; [done|].
  rewrite (IH Hv) at 1. apply Permutation_swap.
Qed.

Lemma list_remove_subseteq v l : list_remove v l ⊆ l.
Proof.
  induction l as [|y l IH]; simpl; [done|].
  destruct (decide (y = v)); set_solver.
Qed.

Lemma list_remove_length v l :
  v ∈ l → S (length (list_remove v l)) = length l.
Proof.
  intros Hv. by rewrite (Permutation_length (list_remove_perm v l Hv)).
Qed.

Lemma topo_snoc n0 l v : topo n0 l → ready l v → topo n0 (l ++ [v]).
Proof.
  intros Ht Hr i w Hi Hw.
  destruct (decide (i < length l)) as [Hlt|Hge].
  - rewrite lookup_app_l in Hw by done.
    rewrite take_app_le by lia. by apply Ht.
  - assert (i = length l) as ->.
    { apply lookup_lt_Some in Hw. rewrite length_app in Hw. simpl in Hw. lia. }
    rewrite list_lookup_middle in Hw by done. inversion Hw; subst.
    by rewrite take_app_length.
Qed.

Lemma sort_pass_spec n0 n :
  ∀ i s l b s' l' b',
    sort_pass G n i s l b = Ok (s', l', b') →
    topo n0 s →
    ∃ m, s' = s ++ m ∧ l ≡ₚ m ++ l' ∧ topo n0 s'
         ∧ (b = true → b' = true)
         ∧ (b' = true → b = true ∨ length l' < length l).
Proof.
  induction n as [|n IH]; intros i s l b s' l' b' Hrun Ht; simpl in Hrun;
    destruct (l !! i) as [v|] eqn:Hi; try discriminate;
    try solve [inversion Hrun; subst; exists []; rewrite app_nil_r;
               split_and!; auto].
  destruct (owner (G v)) as [op|] eqn:Hown; [|discriminate].
  assert (Hv : v ∈ l) by (by eapply list_elem_of_lookup_2).
  destruct (forallb (is_computable G s) (inputs op)) eqn:Hready.
  - assert (Ht1 : topo n0 (s ++ [v])).
    { apply topo_snoc; [done|]. by exists op. }
    destruct (IH _ _ _ _ _ _ _ Hrun Ht1) as (m & -> & Hperm & Ht' & Hb & Hlen).
    exists (v :: m). split_and!.
    + by rewrite <- app_assoc.
    + rewrite (list_remove_perm v l Hv) at 1. simpl. by rewrite Hperm.
    + done.
    + auto.
    + intros _. right.
      pose proof (list_remove_length v l Hv) as Hl.
      apply Permutation_length in Hperm. rewrite length_app in Hperm. lia.
  - by apply (IH _ _ _ _ _ _ _ Hrun).
Qed.

Lemma sort_loop_spec n0 n :
  ∀ s l s' l',
    sort_loop G n s l = Ok (s', l') →
    topo n0 s →
    l' = [] ∧ ∃ m, s' = s ++ m ∧ m ≡ₚ l ∧ topo n0 s'.
Proof.
  induction n as [|n IH]; intros s l s' l' Hrun Ht; simpl in Hrun;
    destruct l as [|y l]; try discriminate;
    try solve [inversion Hrun; subst; split; [done|]; exists [];
               rewrite app_nil_r; by split_and!].
  destruct (sort_pass G (length (y :: l)) 0 s (y :: l) false)
    as [[[s1 l1] b1]|e] eqn:Hpass; simpl in Hrun; [|discriminate].
  destruct b1; [|discriminate].
  destruct (sort_pass_spec n0 _ _ _ _ _ _ _ _ Hpass Ht)
    as (m1 & -> & Hperm1 & Ht1 & _ & _).
  destruct (IH _ _ _ _ Hrun Ht1) as (-> & m2 & -> & Hperm2 & Ht2).
  split; [done|]. exists (m1 ++ m2). split_and!.
  - by rewrite app_assoc.
  - by rewrite Hperm1, Hperm2.
  - done.
Qed.

(** *** The sort succeeds on a [dag] *)

Lemma sort_pass_total n :
  ∀ i s l b,
    (∀ v, v ∈ l → is_Some (owner (G v))) →
    length l ≤ n + i →
    ∃ r, sort_pass G n i s l b = Ok r.
Proof.
  induction n as [|n IH]; intros i s l b Hown Hlen; simpl;
    destruct (l !! i) as [v|] eqn:Hi; eauto.
  - apply lookup_lt_Some in Hi. lia.
  - assert (Hv : v ∈ l) by (by eapply list_elem_of_lookup_2).
    destruct (Hown v Hv) as [op ->].
    destruct (forallb (is_computable G s) (inputs op)).
    + apply IH.
      * intros w Hw. apply Hown. by apply (list_remove_subseteq v l).
      * pose proof (list_remove_length v l Hv). lia.
    + apply IH; [done|lia].
Qed.

Lemma topo_init s : topo (length s) s.
Proof. intros i v Hi Hv. apply lookup_lt_Some in Hv. lia. Qed.

Lemma sort_pass_flag n i s l s' l' b' :
  sort_pass G n i s l true = Ok (s', l', b') → b' = true.
Proof.
  intros Hrun.
  destruct (sort_pass_spec _ _ _ _ _ _ _ _ _ Hrun (topo_init s))
    as (_ & _ & _ & _ & Hb & _). by apply Hb.
Qed.

(** Before the first removal of a pass the list is unchanged, so the pass
    reaches the first ready value. *)
Lemma sort_pass_progress k :
  ∀ n i s l v,
    (∀ w, w ∈ l → is_Some (owner (G w))) →
    length l ≤ n + i →
    l !! (i + k) = Some v → ready s v →
    ∃ s' l', sort_pass G n i s l false = Ok (s', l', true).
Proof.
  induction k as [|k IH]; intros n i s l v Hown Hlen Hj Hr.
  - rewrite Nat.add_0_r in Hj.
    destruct n as [|n]; [apply lookup_lt_Some in Hj; lia|].
    simpl. rewrite Hj. destruct Hr as (op & -> & ->).
    assert (Hv : v ∈ l) by (by eapply list_elem_of_lookup_2).
    destruct (sort_pass_total n (S i) (s ++ [v]) (list_remove v l) true)
      as [[[s1 l1] b1] Hrun].
    { intros w Hw. apply Hown. by apply (list_remove_subseteq v l). }
    { pose proof (list_remove_length v l Hv). lia. }
    rewrite Hrun. rewrite (sort_pass_flag _ _ _ _ _ _ _ Hrun). eauto.
  - assert (Hi : is_Some (l !! i)).
    { apply lookup_lt_is_Some. apply lookup_lt_Some in Hj. lia. }
    destruct Hi as [w Hi].
    destruct n as [|n]; [apply lookup_lt_Some in Hi; lia|].
    simpl. rewrite Hi.
    assert (Hw : w ∈ l) by (by eapply list_elem_of_lookup_2).
    destruct (Hown w Hw) as [op ->].
    destruct (forallb (is_computable G s) (inputs op)).
    + destruct (sort_pass_total n (S i) (s ++ [w]) (list_remove w l) true)
        as [[[s1 l1] b1] Hrun].
      { intros u Hu. apply Hown. by apply (list_remove_subseteq w l). }
      { pose proof (list_remove_length w l Hw). lia. }
      rewrite Hrun. rewrite (sort_pass_flag _ _ _ _ _ _ _ Hrun). eauto.
    + apply (IH n (S i) s l v); auto; [lia|].
      by replace (S i + k) with (i + S k) by lia.
Qed.

Lemma forallb_false_witness {A} (f : A → bool) (xs : list A) :
  forallb f xs = false → ∃ a, a ∈ xs ∧ f a = false.
Proof.
  induction xs as [|a xs IH]; simpl; [discriminate|].
  destruct (f a) eqn:Ha; simpl.
  - intros H. destruct (IH H) as (y & Hy & Hfy). exists y. split; [by right|done].
  - intros _. exists a. split; [by left|done].
Qed.

Lemma is_computable_Val s w :
  is_computable G s (Val w) = false → w ∉ s ∧ is_Some (owner (G w)).
Proof.
  unfold is_computable. simpl.
  destruct (owner (G w)) eqn:Hw; simpl; [|by rewrite orb_true_r].
  rewrite orb_false_r. intros Hb. apply bool_decide_eq_false in Hb. eauto.
Qed.

Lemma is_computable_Raw s (c : C) : is_computable G s (Raw c) = true.
Proof. done. Qed.

(** In a [dag], below every pending value there is a ready one. *)
Lemma ready_exists s l :
  dag G → pending_closed s l →
  ∀ v, v ∈ l → ∃ v', v' ∈ l ∧ ready s v'.
Proof.
  intros Hdag Hcl v. induction (lt_wf v) as [v _ IH]. intros Hv.
  destruct (Hcl v Hv) as (op & Hown & Hin).
  destruct (forallb (is_computable G s) (inputs op)) eqn:Hall.
  - exists v. split; [done|]. by exists op.
  - apply forallb_false_witness in Hall as (x & Hx & Hfx).
    destruct x as [w|c]; [|by rewrite is_computable_Raw in Hfx].
    apply is_computable_Val in Hfx as [Hws [opw Hopw]].
    destruct (Hin w Hx) as [?|[Hnone|Hwl]]; [done|congruence|].
    apply (IH w); [|done]. by eapply Hdag.
Qed.

Lemma sort_loop_total n :
  ∀ s l,
    dag G → pending_closed s l → length l ≤ n →
    ∃ s', sort_loop G n s l = Ok (s', []).
Proof.
  induction n as [|n IH]; intros s l Hdag Hcl Hlen;
    destruct l as [|y l]; cbn [sort_loop]; eauto; [simpl in Hlen; lia|].
  assert (Hown : ∀ w, w ∈ y :: l → is_Some (owner (G w))).
  { intros w Hw. destruct (Hcl w Hw) as (op & -> & _). eauto. }
  destruct (ready_exists s (y :: l) Hdag Hcl y) as (v & Hv & Hr); [by left|].
  apply list_elem_of_lookup in Hv as [j Hj].
  destruct (sort_pass_progress j (length (y :: l)) 0 s (y :: l) v)
    as (s1 & l1 & Hpass); auto; [lia|].
  rewrite Hpass. cbn [rbind].
  destruct (sort_pass_spec _ _ _ _ _ _ _ _ _ Hpass (topo_init s))
    as (m & -> & Hperm & _ & _ & Hlt).
  destruct (Hlt eq_refl) as [?|Hlt']; [done|]. simpl in Hlt', Hlen.
  apply IH; [done| |lia].
  intros v' Hv'.
  assert (Hv'l : v' ∈ y :: l) by (rewrite Hperm; set_solver).
  destruct (Hcl v' Hv'l) as (op & Hop & Hin). exists op. split; [done|].
  intros w Hw. destruct (Hin w Hw) as [?|[?|Hwl]]; [set_solver|auto|].
  rewrite Hperm in Hwl. set_solver.
Qed.

End SortFacts.

(** ** Facts about [AtomicStage.__init__] *)

Section StageFacts.
Implicit Types (v u w : nat) (s l m srcs snks : list nat) (x : obj C).
Implicit Types (stage : AtomicStage).

Lemma is_computable_true s u :
  is_computable G s (Val u) = true → u ∈ s ∨ owner (G u) = None.
Proof.
  unfold is_computable. simpl.
  destruct (owner (G u)) eqn:Hu; simpl; [|by right].
  rewrite orb_false_r. intros Hb. apply bool_decide_eq_true in Hb. by left.
Qed.

Lemma AtomicStage_init_spec srcs snks stage :
  AtomicStage_init G srcs snks = Ok stage →
  source_values stage = srcs ∧ sink_values stage = snks
  ∧ (∃ disc, discover_values G srcs snks = Ok (disc, triburary_values stage)
             ∧ sorted_values stage ≡ₚ disc)
  ∧ stage_wf stage.
Proof.
  unfold AtomicStage_init. intros Hrun.
  destruct (discover_values G srcs snks) as [[disc trib]|e] eqn:Hdisc;
    simpl in Hrun; [|discriminate].
  destruct (sort_values G srcs disc) as [[s1 l1]|e] eqn:Hsort;
    simpl in Hrun; [|discriminate].
  destruct (decide (l1 = [])) as [->|]; [|discriminate].
  destruct (sort_loop_spec (length srcs) _ _ _ _ _ Hsort (topo_init srcs))
    as (_ & m & -> & Hperm & Htopo).
  destruct (discover_values_spec _ _ _ _ Hdisc) as ([H1 H2 H3 H4 H5] & Hcov).
  simpl in *.
  inversion Hrun; subst; clear Hrun. simpl.
  rewrite take_app_length, drop_app_length.
  split_and!; [done|done|by exists disc|].
  split; simpl.
  - by rewrite Hperm.
  - done.
  - intros v Hv. rewrite Hperm in Hv. auto.
  - done.
  - intros v op x Hv Hop Hx. rewrite Hperm in Hv.
    specialize (H5 v op x Hv (fun f => f) Hop Hx).
    destruct x as [u|c]; simpl in *; [|done]. rewrite Hperm. done.
  - intros v Hv. specialize (Hcov v Hv). simpl in *. by rewrite Hperm.
  - intros i v Hi.
    destruct (Htopo (length srcs + i) v) as (op & Hop & Hall); [lia| |].
    { rewrite lookup_app_r by lia. by replace (length srcs + i - length srcs) with i by lia. }
    exists op. split; [done|]. intros u Hu.
    rewrite forallb_forall in Hall. specialize (Hall (Val u)).
    rewrite take_app_ge in Hall by lia.
    replace (length srcs + i - length srcs) with i in Hall by lia.
    apply list_elem_of_In in Hu. specialize (Hall Hu).
    apply is_computable_true in Hall as [Hin|?]; [|auto].
    apply elem_of_app in Hin as [?|?]; auto.
Qed.

(** Construction succeeds on every [dag]. *)
Lemma AtomicStage_init_total srcs snks :
  dag G → ∃ stage, AtomicStage_init G srcs snks = Ok stage.
Proof.
  intros Hdag. unfold AtomicStage_init.
  destruct (discover_values_total srcs snks Hdag) as [[disc trib] Hdisc].
  rewrite Hdisc. simpl.
  destruct (discover_values_spec _ _ _ _ Hdisc) as ([H1 H2 H3 H4 H5] & Hcov).
  simpl in *.
  destruct (sort_loop_total (length disc) srcs disc Hdag) as [s' Hs']; [|done|].
  { intros v Hv. destruct (H3 v Hv) as [_ [op Hop]]. exists op. split; [done|].
    intros w Hw. specialize (H5 v op (Val w) Hv (fun f => f) Hop Hw).
    simpl in H5. destruct H5 as [?|[?|Ht]]; auto.
    right; left. by apply H4. }
  unfold sort_values. rewrite Hs'. simpl. eauto.
Qed.

End StageFacts.

(** ** A total-correctness triple for the state and exception monad *)

Section Hoare.
Implicit Types (s : state C).

Lemma hoare_ret {A} (P : state C → Prop) (a : A) (Q : A → state C → Prop) :
  (∀ s, P s → Q a s) → hoare P (ret a) Q.
Proof using Type. intros H s Hs. exists a, s. split; [done|auto]. Qed.

Lemma hoare_bind {A B} P (m : M C A) (k : A → M C B) R Q :
  hoare P m R → (∀ a, hoare (R a) (k a) Q) → hoare P (bind m k) Q.
Proof using Type.
  intros Hm Hk s Hs. destruct (Hm s Hs) as (a & s1 & Hrun & HR).
  destruct (Hk a s1 HR) as (b & s2 & Hrun2 & HQ).
  exists b, s2. unfold bind. rewrite Hrun. done.
Qed.

Lemma hoare_conseq {A} (P P' : state C → Prop) (m : M C A)
    (Q Q' : A → state C → Prop) :
  (∀ s, P s → P' s) → (∀ a s, Q' a s → Q a s) →
  hoare P' m Q' → hoare P m Q.
Proof using Type.
  intros HP HQ Hm s Hs. destruct (Hm s (HP s Hs)) as (a & s' & Hrun & Hq).
  exists a, s'. auto.
Qed.

Lemma hoare_modify (f : state C → state C) (Q : unit → state C → Prop) :
  hoare (fun s => Q tt (f s)) (modify f) Q.
Proof using Type. intros s Hs. exists tt, (f s). done. Qed.

Lemma hoare_gets {A} (f : state C → A) (Q : A → state C → Prop) :
  hoare (fun s => Q (f s) s) (gets f) Q.
Proof using Type. intros s Hs. exists (f s), s. done. Qed.

Lemma hoare_assert (b : bool) (P : state C → Prop) :
  b = true → hoare P (assert b) (fun _ => P).
Proof using Type. intros -> s Hs. exists tt, s. done. Qed.

Lemma hoare_lift {A} (r : result A) (a : A) (P : state C → Prop) :
  r = Ok a → hoare P (lift r) (fun a' s => a' = a ∧ P s).
Proof using Type. intros -> s Hs. exists a, s. done. Qed.

Lemma hoare_getattr {A} (a : state C → gmap nat A) v
    (Q : A → state C → Prop) :
  hoare (fun s => ∃ c, a s !! v = Some c ∧ Q c s) (getattr a v) Q.
Proof using Type.
  intros s (c & Hc & HQ). exists c, s. unfold getattr. by rewrite Hc.
Qed.

(** A [for] loop with an invariant indexed by the elements already
    visited. *)
Lemma hoare_forM_ {A} (l : list A) (body : A → M C unit) :
  ∀ I : list A → state C → Prop,
    (∀ pre a post, l = pre ++ a :: post →
                   hoare (I pre) (body a) (fun _ => I (pre ++ [a]))) →
    hoare (I []) (forM_ l body) (fun _ => I l).
Proof using Type.
  induction l as [|a l IH]; intros I Hbody; simpl.
  - by apply hoare_ret.
  - eapply hoare_bind; [apply (Hbody [] a l eq_refl)|]. intros [].
    apply (IH (fun p => I (a :: p))).
    intros pre b post Heq. apply (Hbody (a :: pre) b post). by rewrite Heq.
Qed.

(** The same for a loop collecting results. *)
Lemma hoare_mapM {A B} (l : list A) (f : A → M C B) :
  ∀ I : list A → list B → state C → Prop,
    (∀ pre bs a post, l = pre ++ a :: post →
                      hoare (I pre bs) (f a)
                            (fun b => I (pre ++ [a]) (bs ++ [b]))) →
    hoare (I [] []) (mapM f l) (fun bs => I l bs).
Proof using Type.
  induction l as [|a l IH]; intros I Hbody; simpl.
  - by apply hoare_ret.
  - eapply hoare_bind; [apply (Hbody [] [] a l eq_refl)|]. intros b.
    eapply hoare_bind.
    + apply (IH (fun p q => I (a :: p) (b :: q))).
      intros pre bs a' post Heq.
      apply (Hbody (a :: pre) (b :: bs) a' post). by rewrite Heq.
    + intros bs. by apply hoare_ret.
Qed.

End Hoare.

(** ** Attribute maps *)

Section AttrFacts.
Context {A : Type}.
Implicit Types (v w : nat) (l : list nat) (t : gmap nat A).

Lemma tmp_bind_cons (bs : list (nat * A)) t v (c : A) :
  tmp_bind ((v, c) :: bs) t = tmp_bind bs (<[v := c]> t).
Proof. done. Qed.

Lemma lookup_tmp_bind_notin (bs : list (nat * A)) t v :
  v ∉ bs.*1 → tmp_bind bs t !! v = t !! v.
Proof.
  revert t. induction bs as [|[w c] bs IH]; intros t Hv; [done|].
  rewrite fmap_cons, not_elem_of_cons in Hv. destruct Hv as [Hne Hv].
  rewrite tmp_bind_cons, IH by done. simpl in Hne.
  by rewrite lookup_insert_ne.
Qed.

Lemma lookup_tmp_bind_in (bs : list (nat * A)) t v (c : A) :
  NoDup bs.*1 → (v, c) ∈ bs → tmp_bind bs t !! v = Some c.
Proof.
  revert t. induction bs as [|[w d] bs IH]; intros t Hnd Hin; [inversion Hin|].
  rewrite fmap_cons in Hnd. apply NoDup_cons in Hnd as [Hw Hnd].
  rewrite tmp_bind_cons.
  apply elem_of_cons in Hin as [Heq|Hin].
  - inversion Heq; subst.
    rewrite lookup_tmp_bind_notin by done. by rewrite lookup_insert_eq.
  - by apply IH.
Qed.

Lemma tmp_bind_snoc (bs : list (nat * A)) t v (c : A) :
  tmp_bind (bs ++ [(v, c)]) t = <[v := c]> (tmp_bind bs t).
Proof. unfold tmp_bind. by rewrite foldl_app. Qed.

Lemma tmp_unbind_cons l t v : tmp_unbind (v :: l) t = tmp_unbind l (delete v t).
Proof. done. Qed.

Lemma lookup_tmp_unbind l t v :
  tmp_unbind l t !! v = if decide (v ∈ l) then None else t !! v.
Proof.
  revert t. induction l as [|w l IH]; intros t.
  - by destruct (decide (v ∈ [])) as [H|]; [inversion H|].
  - rewrite tmp_unbind_cons, IH.
    destruct (decide (v ∈ l)), (decide (v ∈ w :: l)) as [Hin|Hnin];
      try done; try set_solver.
    + apply elem_of_cons in Hin as [->|?]; [|done]. by rewrite lookup_delete_eq.
    + rewrite lookup_delete_ne; [done|]. set_solver.
Qed.

Lemma tmp_unbind_snoc l t v : tmp_unbind (l ++ [v]) t = delete v (tmp_unbind l t).
Proof. unfold tmp_unbind. by rewrite foldl_app. Qed.

Lemma lookup_tmp_bind_is_Some (bs : list (nat * A)) t v :
  v ∈ bs.*1 → is_Some (tmp_bind bs t !! v).
Proof.
  revert t. induction bs as [|[w c] bs IH]; intros t Hv; [inversion Hv|].
  rewrite tmp_bind_cons. destruct (decide (v ∈ bs.*1)) as [Hin|Hnin]; [by apply IH|].
  rewrite fmap_cons in Hv. apply elem_of_cons in Hv as [->|?]; [|done].
  rewrite lookup_tmp_bind_notin by done. simpl. rewrite lookup_insert_eq. eauto.
Qed.

Lemma tmp_unbind_bind_fresh (bs : list (nat * A)) t :
  (∀ v, v ∈ bs.*1 → t !! v = None) →
  tmp_unbind bs.*1 (tmp_bind bs t) = t.
Proof.
  intros Hfresh. apply map_eq. intros v. rewrite lookup_tmp_unbind.
  destruct (decide (v ∈ bs.*1)) as [Hv|Hv].
  - symmetry. by apply Hfresh.
  - by apply lookup_tmp_bind_notin.
Qed.

End AttrFacts.

(** ** Facts about [AtomicStage.__call__] *)

Section CallFacts.
Implicit Types (v u w : nat) (l srcs snks : list nat) (x : obj C).
Implicit Types (t tbl : gmap nat C) (s : state C) (stage : AtomicStage).

Lemma arg_of_weaken tbl tbl' x c :
  tbl ⊆ tbl' → arg_of tbl x c → arg_of tbl' x c.
Proof. intros Hsub. destruct x; simpl; [|done]. intros. by eapply lookup_weaken. Qed.

Lemma evaluated_weaken tbl tbl' v args :
  tbl ⊆ tbl' → evaluated tbl v args → evaluated tbl' v args.
Proof.
  intros Hsub (op & Hop & Hargs & Hv). exists op. split_and!; [done| |].
  - eapply Forall2_impl; [done|]. intros x c. by apply arg_of_weaken.
  - by eapply lookup_weaken.
Qed.

Lemma set_tmp_with_tmp_log (g : gmap nat C → gmap nat C) t lg s0 :
  set_tmp C g (with_tmp_log t lg s0) = with_tmp_log (g t) lg s0.
Proof. done. Qed.

(** The loop binding sources and tributaries. *)
Lemma assign_loop_run (bs : list (nat * C)) s0 :
  NoDup bs.*1 →
  (∀ v, v ∈ bs.*1 → _tmp s0 !! v = None) →
  forM_ bs assign_tmp s0 = (set_tmp C (tmp_bind bs) s0, Ok tt).
Proof.
  intros Hnd Hfresh.
  destruct (hoare_forM_ bs assign_tmp
              (fun pre s => s = set_tmp C (tmp_bind pre) s0)) with (s := s0)
    as ([] & s' & -> & ->); [|by destruct s0|done].
  intros pre [v c] post Hbs s ->.
  exists tt, (set_tmp C (tmp_bind (pre ++ [(v, c)])) s0). split; [|done].
  assert (Hv : tmp_bind pre (_tmp s0) !! v = None).
  { rewrite lookup_tmp_bind_notin.
    - apply Hfresh. rewrite Hbs, fmap_app, fmap_cons. set_solver.
    - rewrite Hbs, fmap_app, fmap_cons in Hnd.
      apply NoDup_app in Hnd as (_ & Hd & _). intros Hin.
      apply (Hd v Hin). by left. }
  unfold assign_tmp, bind, hasattr, gets. simpl. rewrite Hv. simpl.
  unfold modify, set_tmp. simpl. by rewrite tmp_bind_snoc.
Qed.

(** The loop deleting the scratch attribute. *)
Lemma delete_loop_run l s0 :
  NoDup l →
  (∀ v, v ∈ l → is_Some (_tmp s0 !! v)) →
  forM_ l delete_tmp s0 = (set_tmp C (tmp_unbind l) s0, Ok tt).
Proof.
  intros Hnd Hbound.
  destruct (hoare_forM_ l delete_tmp
              (fun pre s => s = set_tmp C (tmp_unbind pre) s0)) with (s := s0)
    as ([] & s' & -> & ->); [|by destruct s0|done].
  intros pre v post Hl s ->.
  exists tt, (set_tmp C (tmp_unbind (pre ++ [v])) s0). split; [|done].
  assert (Hv : is_Some (tmp_unbind pre (_tmp s0) !! v)).
  { rewrite lookup_tmp_unbind. rewrite Hl in Hnd.
    apply NoDup_app in Hnd as (_ & Hd & _).
    destruct (decide (v ∈ pre)) as [Hin|_].
    - destruct (Hd v Hin). by left.
    - apply Hbound. rewrite Hl. set_solver. }
  destruct Hv as [c Hv].
  unfold delete_tmp, bind, hasattr, gets. simpl. rewrite Hv. simpl.
  unfold modify, set_tmp. simpl. by rewrite tmp_unbind_snoc.
Qed.

(** Reading the inputs of an operation leaves the state alone. *)
Lemma input_tmp_run s ins (args : list C) :
  Forall2 (arg_of (_tmp s)) ins args →
  mapM (input_tmp G) ins s = (s, Ok args).
Proof.
  induction 1 as [|x c ins args Hx _ IH]; simpl; [done|].
  assert (Hrun : input_tmp G x s = (s, Ok c)).
  { destruct x as [u|c']; simpl in Hx.
    - unfold input_tmp, _is_like_sa_value.
      destruct (owner (G u)); unfold getattr; by rewrite Hx.
    - by subst. }
  unfold bind. by rewrite Hrun, IH.
Qed.

Lemma sink_tmp_run s l (outs : list C) :
  Forall2 (fun v c => _tmp s !! v = Some c) l outs →
  mapM (getattr (_tmp (C:=C))) l s = (s, Ok outs).
Proof.
  induction 1 as [|v c l outs Hv _ IH]; simpl; [done|].
  unfold bind. unfold getattr at 1. by rewrite Hv, IH.
Qed.

Lemma Forall2_from_each {A B} (R : A → B → Prop) (xs : list A) :
  (∀ a, a ∈ xs → ∃ b, R a b) → ∃ bs, Forall2 R xs bs.
Proof.
  induction xs as [|a xs IH]; intros H; [by exists []|].
  destruct (H a) as [b Hb]; [by left|].
  destruct IH as [bs Hbs]; [intros a' Ha'; apply H; by right|].
  exists (b :: bs). by constructor.
Qed.

(** The evaluation loop: every value of [l] is fresh, and its inputs are
    bound already or computed earlier in [l]. *)
Lemma compute_loop_run l s1 :
  NoDup l →
  (∀ v, v ∈ l → _tmp s1 !! v = None) →
  (∀ i v, l !! i = Some v →
     ∃ op, owner (G v) = Some op
           ∧ ∀ u, Val u ∈ inputs op → is_Some (_tmp s1 !! u) ∨ u ∈ take i l) →
  ∃ T2 lg,
    forM_ l (compute_tmp G) s1
    = (with_tmp_log T2 (performed s1 ++ lg) s1, Ok tt)
    ∧ _tmp s1 ⊆ T2
    ∧ (∀ v, v ∈ l → is_Some (T2 !! v))
    ∧ (∀ v, v ∉ l → T2 !! v = _tmp s1 !! v)
    ∧ Forall2 (fun v e => e.1 = v ∧ evaluated T2 v e.2) l lg.
Proof.
  intros Hnd Hfresh Hdeps.
  destruct (hoare_forM_ l (compute_tmp G)
    (fun pre s => ∃ t lg,
       s = with_tmp_log t (performed s1 ++ lg) s1
       ∧ _tmp s1 ⊆ t
       ∧ (∀ v, v ∈ pre → is_Some (t !! v))
       ∧ (∀ v, v ∉ pre → t !! v = _tmp s1 !! v)
       ∧ Forall2 (fun v e => e.1 = v ∧ evaluated t v e.2) pre lg))
    with (s := s1) as ([] & s' & Hrun & T2 & lg & -> & H1 & H2 & H3 & H4).
  - intros pre v post Hl s (t & lg & -> & Hsub & Hpre & Hout & Hlog).
    assert (Hvpre : v ∉ pre).
    { rewrite Hl in Hnd. apply NoDup_app in Hnd as (_ & Hd & _).
      intros Hin. apply (Hd v Hin). by left. }
    assert (Hv : t !! v = None).
    { rewrite Hout by done. apply Hfresh. rewrite Hl. set_solver. }
    destruct (Hdeps (length pre) v) as (op & Hop & Hins).
    { rewrite Hl. by rewrite list_lookup_middle. }
    rewrite Hl, take_app_length in Hins.
    destruct (Forall2_from_each (arg_of t) (inputs op)) as [args Hargs].
    { intros [u|c] Hx; simpl; [|eauto].
      destruct (Hins u Hx) as [[c Hc]|Hu].
      - exists c. by eapply lookup_weaken.
      - destruct (Hpre u Hu) as [c Hc]. eauto. }
    exists tt.
    exists (with_tmp_log (<[v := perform op args]> t)
                         (performed s1 ++ lg ++ [(v, args)]) s1).
    split.
    + unfold compute_tmp, bind, hasattr, gets. simpl. rewrite Hv. simpl.
      rewrite Hop. unfold ret at 1.
      rewrite (input_tmp_run _ _ args) by done.
      unfold modify, log_perform, set_tmp, with_tmp_log. simpl.
      by rewrite app_assoc.
    + exists (<[v := perform op args]> t), (lg ++ [(v, args)]).
      assert (Hsub' : t ⊆ <[v := perform op args]> t) by (by apply insert_subseteq).
      split_and!.
      * done.
      * by etrans.
      * intros w Hw. apply elem_of_app in Hw as [Hw|Hw].
        -- destruct (Hpre w Hw) as [c Hc]. exists c. by eapply lookup_weaken.
        -- apply list_elem_of_singleton in Hw as ->. rewrite lookup_insert_eq. eauto.
      * intros w Hw. rewrite not_elem_of_app in Hw. destruct Hw as [Hw1 Hw2].
        rewrite lookup_insert_ne; [by apply Hout|].
        intros ->. apply Hw2. by left.
      * apply Forall2_app.
        -- eapply Forall2_impl; [done|]. intros w e [? He]. split; [done|].
           by eapply evaluated_weaken.
        -- constructor; [|constructor]. split; [done|]. exists op. simpl.
           split_and!; [done| |by rewrite lookup_insert_eq].
           eapply Forall2_impl; [done|]. intros x c. by apply arg_of_weaken.
  - exists (_tmp s1), []. rewrite app_nil_r. split_and!; try done.
    + by destruct s1.
    + intros v Hv. inversion Hv.
  - exists T2, lg. by split_and!.
Qed.

Lemma resolve_triburary_run r trib f s :
  resolves r trib f →
  resolve_triburary r trib s = (s, Ok (Some (f <$> trib))).
Proof.
  destruct r as [g|m|]; simpl; [| |done]; intros Hr.
  - unfold ret. do 3 f_equal. apply list_fmap_ext.
    intros i v Hv. apply Hr. by eapply list_elem_of_lookup_2.
  - assert (Hrun : mapM (fun v => match m !! v with
                                   | Some c => ret c
                                   | None => raise KeyError
                                   end) trib s = (s, Ok (f <$> trib))).
    { induction trib as [|v trib IH]; [done|]. simpl. unfold bind.
      rewrite (Hr v) by (by left). unfold ret at 1.
      rewrite IH; [done|]. intros w Hw. apply Hr. by right. }
    unfold bind. by rewrite Hrun.
Qed.

Lemma AtomicStage_call_ok stage (cs : list C) r (f : nat → C) s0 :
  stage_wf stage →
  NoDup (source_values stage) →
  length cs = length (source_values stage) →
  resolves r (triburary_values stage) f →
  (∀ v, v ∈ source_values stage ++ triburary_values stage
              ++ sorted_values stage → _tmp s0 !! v = None) →
  ∃ tbl lg outs,
    AtomicStage_call G stage (Seq cs) r s0
    = (with_tmp_log (_tmp s0) (performed s0 ++ lg) s0, Ok outs)
    ∧ symbol_table stage cs f tbl
    ∧ Forall2 (fun v e => e.1 = v ∧ evaluated tbl v e.2)
              (sorted_values stage) lg
    ∧ Forall2 (fun v c => tbl !! v = Some c) (sink_values stage) outs.
Proof.
  intros [W1 W2 W3 W4 W5 W6 W7] Hnd Hlen Hres Hfresh.
  set (srcs := source_values stage) in *.
  set (trib := triburary_values stage) in *.
  set (sorted := sorted_values stage) in *.
  set (values := srcs ++ trib).
  set (tmp_values := cs ++ (f <$> trib)).
  set (bs := zip values tmp_values).
  assert (Hlen2 : length values = length tmp_values).
  { unfold values, tmp_values. rewrite !length_app, length_fmap. lia. }
  assert (Hfst : bs.*1 = values) by (apply fst_zip; lia).
  assert (Hndv : NoDup values).
  { apply NoDup_app. split_and!; [done| |done].
    intros v Hv Hv'. by destruct (W4 v Hv'). }
  assert (Hndall : NoDup (values ++ sorted)).
  { apply NoDup_app. split_and!; [done| |done].
    intros v Hv Hv'. destruct (W3 v Hv') as [Hns [op Hop]].
    apply elem_of_app in Hv as [?|Hv]; [done|].
    destruct (W4 v Hv) as [_ Hnone]. congruence. }
  set (T1 := tmp_bind bs (_tmp s0)).
  assert (Hbound : ∀ v, v ∈ values → is_Some (T1 !! v)).
  { intros v Hv. rewrite <- Hfst in Hv.
    apply list_elem_of_fmap in Hv as ([w c] & -> & Hin). exists c.
    apply lookup_tmp_bind_in; [by rewrite Hfst|done]. }
  assert (Hrun1 : forM_ bs assign_tmp s0 = (set_tmp C (tmp_bind bs) s0, Ok tt)).
  { apply assign_loop_run; rewrite Hfst; [done|].
    intros v Hv. apply Hfresh. fold values. rewrite app_assoc. set_solver. }
  destruct (compute_loop_run sorted (set_tmp C (tmp_bind bs) s0))
    as (T2 & lg & Hrun2 & Hsub & Hin2 & Hout2 & Hlog); [done| | |].
  { intros v Hv. simpl. fold T1. unfold T1. rewrite lookup_tmp_bind_notin.
    - apply Hfresh. set_solver.
    - rewrite Hfst. intros Hv'. apply NoDup_app in Hndall as (_ & Hd & _).
      by apply (Hd v Hv'). }
  { intros i v Hi. destruct (W7 i v Hi) as (op & Hop & Hins).
    exists op. split; [done|]. intros u Hu. simpl. fold T1.
    destruct (Hins u Hu) as [Hs|[Hnone|Ht]]; [| |by right].
    - left. apply Hbound. unfold values. set_solver.
    - left. apply Hbound.
      assert (Hvs : v ∈ sorted) by (by eapply list_elem_of_lookup_2).
      destruct (W5 v op (Val u) Hvs Hop Hu) as [?|[Hs|?]];
        unfold values; [set_solver| |set_solver].
      simpl in Hs. destruct (W3 u Hs) as [_ [? ?]]. congruence. }
  simpl in Hsub, Hout2. fold T1 in Hsub, Hout2.
  destruct (Forall2_from_each (fun v c => T2 !! v = Some c) (sink_values stage))
    as [outs Houts].
  { intros v Hv. destruct (W6 v Hv) as [Hs|[Hs|Hs]]; simpl in Hs.
    - destruct (Hbound v) as [c Hc]; [unfold values; set_solver|].
      exists c. by eapply lookup_weaken.
    - destruct (Hin2 v Hs) as [c Hc]. eauto.
    - destruct (Hbound v) as [c Hc]; [unfold values; set_solver|].
      exists c. by eapply lookup_weaken. }
  set (s2 := with_tmp_log T2
               (performed (set_tmp C (tmp_bind bs) s0) ++ lg)
               (set_tmp C (tmp_bind bs) s0)) in *.
  assert (Hrun3 : mapM (getattr (_tmp (C:=C))) (sink_values stage) s2 = (s2, Ok outs)).
  { by apply sink_tmp_run. }
  assert (Hrun4 : forM_ (values ++ sorted) delete_tmp s2
                  = (set_tmp C (tmp_unbind (values ++ sorted)) s2, Ok tt)).
  { apply delete_loop_run; [done|]. intros v Hv. simpl.
    apply elem_of_app in Hv as [Hv|Hv]; [|by apply Hin2].
    destruct (Hbound v Hv) as [c Hc]. exists c. by eapply lookup_weaken. }
  exists T2, lg, outs. split_and!; [| |done|done].
  - unfold AtomicStage_call. fold srcs trib sorted.
    unfold bind at 1. unfold assert at 1.
    rewrite bool_decide_eq_true_2 by done.
    unfold ret at 1. unfold bind at 1.
    rewrite (resolve_triburary_run r trib f s0 Hres).
    unfold bind at 1. unfold ret at 1. fold values tmp_values.
    unfold bind at 1. unfold assert at 1.
    rewrite bool_decide_eq_true_2 by done.
    unfold ret at 1. fold bs.
    unfold bind at 1. rewrite Hrun1.
    unfold bind at 1. rewrite Hrun2. fold s2.
    unfold bind at 1. rewrite Hrun3.
    unfold bind at 1. rewrite Hrun4. unfold ret.
    f_equal. unfold set_tmp, with_tmp_log, s2. simpl. f_equal.
    apply map_eq. intros v. rewrite lookup_tmp_unbind.
    destruct (decide (v ∈ values ++ sorted)) as [Hv|Hv].
    + symmetry. apply Hfresh. fold values. by rewrite app_assoc.
    + rewrite not_elem_of_app in Hv. destruct Hv as [Hv1 Hv2].
      rewrite Hout2 by done. unfold T1. apply lookup_tmp_bind_notin.
      by rewrite Hfst.
  - split_and!.
    + intros i v c Hi Hc. eapply lookup_weaken; [|done].
      apply lookup_tmp_bind_in; [by rewrite Hfst|].
      apply list_elem_of_lookup. exists i. unfold bs.
      rewrite lookup_zip_with. unfold values, tmp_values.
      rewrite lookup_app_l by (by eapply lookup_lt_Some).
      rewrite lookup_app_l by (by eapply lookup_lt_Some).
      fold srcs in Hi. by rewrite Hi, Hc.
    + intros v Hv. eapply lookup_weaken; [|done].
      apply lookup_tmp_bind_in; [by rewrite Hfst|].
      apply list_elem_of_lookup in Hv as [j Hj].
      apply list_elem_of_lookup. exists (length srcs + j). unfold bs.
      rewrite lookup_zip_with. unfold values, tmp_values.
      rewrite (lookup_app_r srcs) by lia.
      rewrite (lookup_app_r cs) by lia.
      replace (length srcs + j - length srcs) with j by lia.
      replace (length srcs + j - length cs) with j by lia.
      fold trib in Hj. rewrite list_lookup_fmap, Hj. done.
    + intros v Hv. apply list_elem_of_lookup in Hv as [i Hi].
      destruct (Forall2_lookup_l _ _ _ _ _ Hlog Hi) as (e & _ & _ & He).
      eauto.
Qed.

End CallFacts.

Section DirectEval.
Implicit Types (v u w : nat) (l srcs snks : list nat) (x : obj C).
Implicit Types (cs : list C) (f : nat → C).

Lemma option_all_ext {A B} (g h : A → option B) (xs : list A) :
  (∀ a, a ∈ xs → g a = h a) → option_all g xs = option_all h xs.
Proof.
  induction xs as [|a xs IH]; intros H; simpl; [done|].
  rewrite (H a) by (by left). rewrite IH; [done|].
  intros a' Ha'. apply H. by right.
Qed.

Lemma option_all_Forall2 {A B} (g : A → option B) (xs : list A) (bs : list B) :
  Forall2 (fun a b => g a = Some b) xs bs → option_all g xs = Some bs.
Proof. induction 1 as [|a b xs bs Ha _ IH]; simpl; [done|]. by rewrite Ha, IH. Qed.

Lemma direct_eval_aux_fuel srcs cs f n :
  dag G →
  ∀ n' x, (∀ v, x = Val v → v < n ∧ v < n') →
          direct_eval_aux srcs cs f n x = direct_eval_aux srcs cs f n' x.
Proof.
  intros Hdag. induction n as [|n IH]; intros n' [v|c] Hlt;
    try (by destruct n').
  - destruct (Hlt v eq_refl). lia.
  - destruct (Hlt v eq_refl) as [Hv Hv']. destruct n' as [|n']; [lia|].
    simpl. destruct (decide (v ∈ srcs)); [done|].
    destruct (owner (G v)) as [op|] eqn:Hop; [|done].
    f_equal. apply option_all_ext. intros x Hx. apply IH.
    intros u ->. specialize (Hdag v op u Hop Hx). lia.
Qed.

(** Unfolding [direct_eval] at a value with a producer. *)
Lemma direct_eval_owned srcs cs f v op :
  dag G → v ∉ srcs → owner (G v) = Some op →
  direct_eval srcs cs f v
  = perform op <$> option_all (fun x => match x with
                                        | Val u => direct_eval srcs cs f u
                                        | Raw c => Some c
                                        end) (inputs op).
Proof.
  intros Hdag Hv Hop. unfold direct_eval at 1. cbn [direct_eval_aux].
  destruct (decide (v ∈ srcs)); [done|]. rewrite Hop. f_equal.
  apply option_all_ext. intros [u|c] Hx; [|by destruct v].
  unfold direct_eval.
  apply direct_eval_aux_fuel; [done|]. intros w Hw. inversion Hw; subst.
  specialize (Hdag v op w Hop Hx). lia.
Qed.

Lemma direct_eval_source srcs cs f v :
  v ∈ srcs →
  direct_eval srcs cs f v = (list_to_map (zip srcs cs) : gmap nat C) !! v.
Proof. intros Hv. unfold direct_eval. simpl. by rewrite decide_True. Qed.

Lemma direct_eval_unowned srcs cs f v :
  v ∉ srcs → owner (G v) = None → direct_eval srcs cs f v = Some (f v).
Proof.
  intros Hv Hop. unfold direct_eval. simpl. rewrite decide_False by done.
  by rewrite Hop.
Qed.

(** The symbol table of an invocation holds the direct evaluation of every
    value of the stage, relative to the stage's own sources. *)
Lemma symbol_table_direct_eval stage cs f tbl :
  dag G → stage_wf stage → NoDup (source_values stage) →
  length cs = length (source_values stage) →
  symbol_table stage cs f tbl →
  ∀ v, covered (source_values stage)
         (sorted_values stage, triburary_values stage) (Val v) →
       tbl !! v = direct_eval (source_values stage) cs f v.
Proof.
  intros Hdag [W1 W2 W3 W4 W5 W6 W7] Hnd Hlen (T1 & T2 & T3) v.
  induction (lt_wf v) as [v _ IH]. intros [Hv|[Hv|Hv]]; simpl in Hv.
  - rewrite direct_eval_source by done.
    apply list_elem_of_lookup in Hv as [i Hi].
    destruct (lookup_lt_is_Some_2 cs i) as [c Hc].
    { rewrite Hlen. by eapply lookup_lt_Some. }
    rewrite (T1 i v c Hi Hc). symmetry.
    apply elem_of_list_to_map_1; [rewrite fst_zip; [done|lia]|].
    apply list_elem_of_lookup. exists i. rewrite lookup_zip_with.
    by rewrite Hi, Hc.
  - destruct (W3 v Hv) as [Hns [op Hop]].
    destruct (T3 v Hv) as (args & op' & Hop' & Hargs & Htbl).
    rewrite Hop in Hop'. inversion Hop'; subst op'. clear Hop'.
    rewrite (direct_eval_owned _ _ _ _ op) by done. rewrite Htbl.
    erewrite option_all_Forall2; [done|].
    assert (Hcov : ∀ x, x ∈ inputs op →
              covered (source_values stage)
                (sorted_values stage, triburary_values stage) x).
    { intros x Hx. by eapply W5. }
    assert (Hlt : ∀ u, Val u ∈ inputs op → u < v).
    { intros u Hu. by eapply Hdag. }
    clear Htbl. induction Hargs as [|x c ins args Hx _ IHargs]; [done|].
    constructor.
    + destruct x as [u|c']; simpl in Hx; [|by subst].
      rewrite <- Hx. symmetry. apply IH.
      * apply Hlt. by left.
      * apply (Hcov (Val u)). by left.
    + apply IHargs.
      * intros y Hy. apply Hcov. by right.
      * intros u Hu. apply Hlt. by right.
  - destruct (W4 v Hv) as [Hns Hnone].
    rewrite direct_eval_unowned by done. by apply T2.
Qed.

(** An invocation of a constructed stage returns, and what it returns is the
    direct evaluation of its sinks from its own sources. *)
Lemma AtomicStage_call_direct_eval stage cs f s0 :
  dag G → stage_wf stage → NoDup (source_values stage) →
  length cs = length (source_values stage) →
  (∀ v, v ∈ source_values stage ++ triburary_values stage
              ++ sorted_values stage → _tmp s0 !! v = None) →
  ∃ lg outs,
    AtomicStage_call G stage (Seq cs) (Callable f) s0
    = (with_tmp_log (_tmp s0) (performed s0 ++ lg) s0, Ok outs)
    ∧ Forall2 (fun v c => direct_eval (source_values stage) cs f v = Some c)
              (sink_values stage) outs.
Proof.
  intros Hdag Hwf Hnd Hlen Hfresh.
  destruct (AtomicStage_call_ok stage cs (Callable f) f s0 Hwf Hnd Hlen)
    as (tbl & lg & outs & Hrun & Htbl & _ & Houts); [done|done|].
  exists lg, outs. split; [done|].
  assert (Hsnk : ∀ v, v ∈ sink_values stage →
            tbl !! v = direct_eval (source_values stage) cs f v).
  { intros v Hv. apply symbol_table_direct_eval; try done.
    by apply (wf_sinks stage Hwf). }
  clear Hrun. induction Houts as [|v c l outs Hv _ IH]; [done|].
  constructor.
  - rewrite <- Hsnk; [done|by left].
  - apply IH. intros w Hw. apply Hsnk. by right.
Qed.

End DirectEval.

(** ** Facts about [build_graph] *)

Section GraphFacts.
Implicit Types (v u w : nat) (l all : list nat) (s : state C).

(** A loop whose body returns without touching the state. *)
Lemma mapM_readonly {A B} (f : A → M C B) (xs : list A) s :
  (∀ a, a ∈ xs → ∃ b, f a s = (s, Ok b)) →
  ∃ bs, mapM f xs s = (s, Ok bs).
Proof.
  induction xs as [|a xs IH]; intros H; simpl; [by exists []|].
  destruct (H a) as [b Hb]; [by left|].
  destruct IH as [bs Hbs]; [intros a' Ha'; apply H; by right|].
  exists (b :: bs). unfold bind. by rewrite Hb, Hbs.
Qed.

Lemma enumerate_snd {A} (xs : list A) : (enumerate xs).*2 = xs.
Proof. unfold enumerate. apply snd_zip. by rewrite length_seq. Qed.

Lemma enumerate_snoc {A} (xs : list A) (a : A) :
  enumerate (xs ++ [a]) = enumerate xs ++ [(length xs, a)].
Proof.
  unfold enumerate. rewrite length_app. simpl.
  rewrite seq_app. simpl. rewrite zip_with_app by (by rewrite length_seq).
  done.
Qed.

Lemma enumerate_lookup {A} (xs : list A) i (a : A) :
  (i, a) ∈ enumerate xs ↔ xs !! i = Some a.
Proof.
  unfold enumerate. rewrite list_elem_of_lookup. split.
  - intros [j Hj]. rewrite lookup_zip_with in Hj.
    destruct (seq 0 (length xs) !! j) as [k|] eqn:Hk; [|done]. simpl in Hj.
    destruct (xs !! j) as [b|] eqn:Hb; [|done]. simpl in Hj.
    inversion Hj; subst. apply lookup_seq in Hk as [-> _]. done.
  - intros Hi. exists i. rewrite lookup_zip_with.
    rewrite lookup_seq_lt by (by eapply lookup_lt_Some). simpl.
    by rewrite Hi.
Qed.

Lemma id_binding_keys all : (id_binding <$> enumerate all).*1 = all.
Proof.
  rewrite <- list_fmap_compose. rewrite <- (enumerate_snd all) at 2.
  by apply list_fmap_ext.
Qed.

Lemma assign_ids_run all s0 :
  mapM (assign_value_id G) (enumerate all) s0
  = (set_value_id C (tmp_bind (id_binding <$> enumerate all)) s0,
     Ok (size G <$> all)).
Proof.
  destruct (hoare_mapM (enumerate all) (assign_value_id G)
    (fun pre bs s => s = set_value_id C (tmp_bind (id_binding <$> pre)) s0
                     ∧ bs = size G <$> pre.*2)) with (s := s0)
    as (bs & s' & -> & -> & ->).
  - intros pre bs [i v] post _ s [-> ->].
    exists (size G v).
    exists (set_value_id C (tmp_bind (id_binding <$> pre ++ [(i, v)])) s0).
    split; [|split; [done|]].
    + assert (Hb : ∀ m, tmp_bind (id_binding <$> pre ++ [(i, v)]) m
                        = <[v := i]> (tmp_bind (id_binding <$> pre) m)).
      { intros m. rewrite fmap_app. apply tmp_bind_snoc. }
      unfold assign_value_id, bind, modify, ret, set_value_id. simpl.
      by rewrite Hb.
    + by rewrite !fmap_app.
  - split; [by destruct s0|done].
  - by rewrite enumerate_snd.
Qed.

Lemma edges_run all s :
  (∀ v, v ∈ all → is_Some (_value_id s !! v)) →
  ∃ es, mapM (edges_into G) (enumerate all) s = (s, Ok es).
Proof.
  intros Hids. apply mapM_readonly. intros [i v] Hiv.
  apply enumerate_lookup, list_elem_of_lookup_2 in Hiv.
  destruct (Hids v Hiv) as [b Hb].
  unfold edges_into. simpl. destruct (owner (G v)) as [op|]; [|by eexists].
  destruct (mapM_readonly (edge_from v op) (inputs op) s) as [es Hes].
  - intros [u|c] _; simpl; [|by eexists].
    unfold bind, hasattr, gets.
    destruct (_value_id s !! u) as [a|] eqn:Ha; simpl; [|by eexists].
    unfold getattr. rewrite Ha, Hb. by eexists.
  - unfold bind. rewrite Hes. by eexists.
Qed.

Lemma delete_ids_run l s0 :
  NoDup l →
  (∀ v, v ∈ l → is_Some (_value_id s0 !! v)) →
  forM_ l delete_value_id s0 = (set_value_id C (tmp_unbind l) s0, Ok tt).
Proof.
  intros Hnd Hbound.
  destruct (hoare_forM_ l delete_value_id
              (fun pre s => s = set_value_id C (tmp_unbind pre) s0))
    with (s := s0) as ([] & s' & -> & ->); [|by destruct s0|done].
  intros pre v post Hl s ->.
  exists tt, (set_value_id C (tmp_unbind (pre ++ [v])) s0). split; [|done].
  assert (Hv : is_Some (tmp_unbind pre (_value_id s0) !! v)).
  { rewrite lookup_tmp_unbind. rewrite Hl in Hnd.
    apply NoDup_app in Hnd as (_ & Hd & _).
    destruct (decide (v ∈ pre)) as [Hin|_].
    - destruct (Hd v Hin). by left.
    - apply Hbound. rewrite Hl. set_solver. }
  destruct Hv as [c Hv].
  unfold delete_value_id, bind, hasattr, gets. simpl. rewrite Hv. simpl.
  unfold modify, set_value_id. simpl. by rewrite tmp_unbind_snoc.
Qed.

(** [build_graph] returns when no value is listed twice; the weights are the
    sizes and 1 for the synthetic sink; [_value_id] is deleted again. *)
Lemma build_graph_run all s0 :
  NoDup all →
  ∃ edges,
    build_graph G all s0
    = (set_value_id C (fun m => tmp_unbind all
                                  (tmp_bind (id_binding <$> enumerate all) m)) s0,
       Ok ((size G <$> all) ++ [1%Z], edges)).
Proof.
  intros Hnd. unfold build_graph.
  set (s1 := set_value_id C (tmp_bind (id_binding <$> enumerate all)) s0).
  assert (Hids : ∀ v, v ∈ all → is_Some (_value_id s1 !! v)).
  { intros v Hv. simpl. apply lookup_tmp_bind_is_Some. by rewrite id_binding_keys. }
  destruct (edges_run all s1 Hids) as [es Hes].
  exists (concat es).
  unfold bind at 1. rewrite assign_ids_run. fold s1.
  unfold bind at 1. rewrite Hes.
  unfold bind at 1. rewrite (delete_ids_run all s1 Hnd Hids).
  done.
Qed.

(** With no stale [_value_id] around, the state is restored. *)
Lemma build_graph_restores all s0 :
  NoDup all →
  (∀ v, v ∈ all → _value_id s0 !! v = None) →
  ∃ edges, build_graph G all s0 = (s0, Ok ((size G <$> all) ++ [1%Z], edges)).
Proof.
  intros Hnd Hfresh. destruct (build_graph_run all s0 Hnd) as [es Hes].
  exists es. rewrite Hes. f_equal. destruct s0 as [t i c d p].
  unfold set_value_id. simpl in *. f_equal.
  rewrite <- (id_binding_keys all) at 1.
  apply tmp_unbind_bind_fresh. by rewrite id_binding_keys.
Qed.

(** Deleting an attribute twice fails: [build_graph] only returns when no
    value is listed twice. *)
Lemma delete_ids_present l :
  ∀ s s', forM_ l delete_value_id s = (s', Ok tt) →
          ∀ v, v ∈ l → is_Some (_value_id s !! v).
Proof.
  induction l as [|w l IH]; intros s s' Hrun v Hv; [inversion Hv|].
  simpl in Hrun. unfold bind, delete_value_id at 1, bind, hasattr, gets in Hrun.
  simpl in Hrun.
  destruct (_value_id s !! w) as [i|] eqn:Hw; simpl in Hrun; [|done].
  apply elem_of_cons in Hv as [->|Hv]; [by rewrite Hw|].
  specialize (IH _ _ Hrun v Hv). simpl in IH.
  destruct (decide (v = w)) as [->|Hne]; [by rewrite Hw|].
  by rewrite lookup_delete_ne in IH.
Qed.

Lemma delete_ids_NoDup l :
  ∀ s s', forM_ l delete_value_id s = (s', Ok tt) → NoDup l.
Proof.
  induction l as [|w l IH]; intros s s' Hrun; [apply NoDup_nil_2|].
  simpl in Hrun. unfold bind, delete_value_id at 1, bind, hasattr, gets in Hrun.
  simpl in Hrun.
  destruct (_value_id s !! w) as [i|] eqn:Hw; simpl in Hrun; [|done].
  apply NoDup_cons. split; [|by eapply IH].
  intros Hin. destruct (delete_ids_present _ _ _ Hrun w Hin) as [j Hj].
  simpl in Hj. by rewrite lookup_delete_eq in Hj.
Qed.

Lemma build_graph_NoDup all s0 s1 gr :
  build_graph G all s0 = (s1, Ok gr) → NoDup all.
Proof.
  unfold build_graph. unfold bind at 1. rewrite assign_ids_run.
  unfold bind at 1.
  destruct (mapM (edges_into G) (enumerate all) _) as [s2 [es|]]; [|done].
  unfold bind at 1.
  destruct (forM_ all delete_value_id s2) as [s3 [[]|]] eqn:Hdel; [|done].
  intros _. by eapply delete_ids_NoDup.
Qed.

End GraphFacts.

(** ** Facts about [decompose] *)

Section DecomposeFacts.
Implicit Types (v u w : nat) (l all srcs snks : list nat) (s : state C).
Implicit Types (c d : list Z) (k : Z).

Lemma assign_stages_run all c d s1 :
  NoDup all → length all ≤ length c → length all ≤ length d →
  ∃ s2, forM_ (enumerate all) (assign_stages (np_array c) (np_array d)) s1
        = (s2, Ok tt)
        ∧ _tmp s2 = _tmp s1 ∧ _value_id s2 = _value_id s1
        ∧ performed s2 = performed s1
        ∧ ∀ i v, all !! i = Some v →
                 create_stage s2 !! v = c !! i ∧ discard_stage s2 !! v = d !! i.
Proof.
  intros Hnd Hc Hd.
  destruct (hoare_forM_ (enumerate all)
    (assign_stages (np_array c) (np_array d))
    (fun pre s => _tmp s = _tmp s1 ∧ _value_id s = _value_id s1
                  ∧ performed s = performed s1
                  ∧ ∀ i v, (i, v) ∈ pre →
                           create_stage s !! v = c !! i
                           ∧ discard_stage s !! v = d !! i))
    with (s := s1) as ([] & s2 & Hrun & H1 & H2 & H3 & H4).
  - intros pre [i v] post Hl s (H1 & H2 & H3 & H4).
    assert (Hiv : all !! i = Some v).
    { apply enumerate_lookup. rewrite Hl. set_solver. }
    assert (Hlt : i < length all) by (by eapply lookup_lt_Some).
    destruct (lookup_lt_is_Some_2 c i) as [ci Hci]; [lia|].
    destruct (lookup_lt_is_Some_2 d i) as [di Hdi]; [lia|].
    assert (Hfresh : ∀ j w, (j, w) ∈ pre → w ≠ v).
    { intros j w Hjw ->. rewrite <- (enumerate_snd all), Hl in Hnd.
      rewrite fmap_app, fmap_cons in Hnd.
      apply NoDup_app in Hnd as (_ & Hdis & _). apply (Hdis v).
      - apply list_elem_of_fmap. by exists (j, v).
      - by left. }
    eexists tt, _. split.
    + unfold assign_stages, bind, lift, subscript, array_get. simpl.
      rewrite Hci, Hdi.
      unfold modify. done.
    + simpl. split_and!; try done. intros j w Hjw.
      apply elem_of_app in Hjw as [Hjw|Hjw].
      * rewrite !lookup_insert_ne by (intros ->; by eapply Hfresh).
        by apply H4.
      * apply list_elem_of_singleton in Hjw. inversion Hjw; subst.
        by rewrite !lookup_insert_eq.
  - split_and!; try done. intros i v Hiv. inversion Hiv.
  - exists s2. split_and!; try done. intros i v Hiv. apply H4.
    by apply enumerate_lookup.
Qed.

Lemma next_stage_source_run all c d k s :
  length all ≤ length c → length all ≤ length d →
  (∀ i v, all !! i = Some v →
          create_stage s !! v = c !! i ∧ discard_stage s !! v = d !! i) →
  next_stage_source all k s = (s, Ok (stage_boundary all c d k)).
Proof.
  intros Hc Hd Hattr. unfold next_stage_source, stage_boundary.
  destruct (hoare_mapM all (select_alive k)
    (fun pre bs s' => s' = s
       ∧ concat bs = concat (alive_at c d k <$> enumerate pre)))
    with (s := s) as (bs & s' & Hrun & -> & Hbs); [|done|].
  - intros pre bs v post Hl s' [-> Hbs].
    assert (Hiv : all !! length pre = Some v).
    { rewrite Hl. by rewrite list_lookup_middle. }
    assert (Hlt : length pre < length all) by (by eapply lookup_lt_Some).
    destruct (lookup_lt_is_Some_2 c (length pre)) as [ci Hci]; [lia|].
    destruct (lookup_lt_is_Some_2 d (length pre)) as [di Hdi]; [lia|].
    destruct (Hattr _ _ Hiv) as [Hcv Hdv]. rewrite Hci in Hcv. rewrite Hdi in Hdv.
    exists (alive_at c d k (length pre, v)), s. split; [|split; [done|]].
    + unfold select_alive, bind, getattr. rewrite Hcv.
      unfold alive_at. simpl. rewrite Hci, Hdi.
      destruct (bool_decide (ci ≤ k)%Z) eqn:H1.
      * rewrite Hdv. unfold ret. apply bool_decide_eq_true in H1.
        destruct (bool_decide (di > k)%Z) eqn:H2.
        -- apply bool_decide_eq_true in H2. by rewrite bool_decide_eq_true_2.
        -- apply bool_decide_eq_false in H2.
           rewrite bool_decide_eq_false_2; [done|]. intros [? ?]. done.
      * apply bool_decide_eq_false in H1. unfold ret.
        rewrite bool_decide_eq_false_2; [done|]. intros [? ?]. done.
    + rewrite enumerate_snoc, fmap_app, !concat_app, Hbs. simpl.
      by rewrite !app_nil_r.
  - unfold bind. rewrite Hrun. unfold ret. by rewrite Hbs.
Qed.

Lemma last_cons_default {A} (a b : A) (xs : list A) :
  default a (last (b :: xs)) = default b (last xs).
Proof.
  destruct xs as [|x xs]; [done|]. change (last (b :: x :: xs)) with (last (x :: xs)).
  revert x. induction xs as [|y xs IH]; intros x; [done|].
  change (last (x :: y :: xs)) with (last (y :: xs)). apply IH.
Qed.

Lemma decompose_loop_run all c d s :
  dag G → length all ≤ length c → length all ≤ length d →
  (∀ i v, all !! i = Some v →
          create_stage s !! v = c !! i ∧ discard_stage s !! v = d !! i) →
  ∀ ks acc prev,
    let cuts := stage_boundary all c d <$> ks in
    ∃ new,
      decompose_loop G all ks (acc, prev) s
      = (s, Ok (acc ++ new, default prev (last cuts)))
      ∧ ∀ final tail,
          chain_stages (default prev (last cuts)) final = Ok tail →
          chain_stages prev (cuts ++ final) = Ok (new ++ tail).
Proof.
  intros Hdag Hc Hd Hattr. induction ks as [|k ks IH]; intros acc prev; simpl.
  - exists []. rewrite app_nil_r. split; [done|]. by intros final tail ->.
  - destruct (AtomicStage_init_total prev (stage_boundary all c d k) Hdag)
      as [stage Hstage].
    destruct (IH (acc ++ [stage]) (stage_boundary all c d k))
      as (new & Hrun & Hchain).
    exists (stage :: new). split.
    + unfold bind at 1. rewrite (next_stage_source_run all c d k s) by done.
      unfold bind at 1. unfold lift. rewrite Hstage. simpl. rewrite Hrun.
      rewrite last_cons_default. by rewrite <- app_assoc.
    + intros final tail Htail. rewrite last_cons_default in Htail.
      rewrite Hstage. simpl. specialize (Hchain final tail Htail).
      unfold fmap in Hchain. by rewrite Hchain.
Qed.

(** A table of two or more rows is unpacked into its columns. *)
Lemma decompose_graph_columns (qf : list Z → list (nat * nat * bool) →
                                    result (list (Z * Z * Z)))
    weights edges rows :
  qf weights edges = Ok rows → 2 ≤ length rows →
  rbind (decompose_graph qf weights edges) unpack
  = Ok (np_array rows.*1.*1, np_array rows.*1.*2, np_array rows.*2).
Proof.
  intros Hqf Hrows. unfold decompose_graph. rewrite Hqf. cbn [rbind].
  destruct rows as [|[[c1 d1] e1] [|r2 rows]]; simpl in Hrows; try lia.
  reflexivity.
Qed.

(** What [decompose] returns and the state it leaves behind, when the
    partitioner prints two or more rows, with the columns [c] and [d]. *)
Lemma decompose_run (qf : list Z → list (nat * nat * bool) →
                          result (list (Z * Z * Z)))
    srcs snks disc trib rows N s0 :
  let c := rows.*1.*1 in
  let d := rows.*1.*2 in
  dag G → NoDup srcs →
  discover_values G srcs snks = Ok (disc, trib) →
  (∀ s1 gr, build_graph G (disc ++ srcs) s0 = (s1, Ok gr) →
            qf gr.1 gr.2 = Ok rows) →
  2 ≤ length rows →
  array_max d = Ok N →
  length (disc ++ srcs) ≤ length rows →
  ∃ s2 stages,
    decompose G qf srcs snks s0 = (s2, Ok stages)
    ∧ chain_stages srcs
        ((stage_boundary (disc ++ srcs) c d <$> seqZ 1 (N - 1)) ++ [snks])
      = Ok stages
    ∧ _tmp s2 = _tmp s0 ∧ performed s2 = performed s0
    ∧ ∀ i v, (disc ++ srcs) !! i = Some v →
             create_stage s2 !! v = c !! i ∧ discard_stage s2 !! v = d !! i.
Proof.
  intros c d Hdag Hnd Hdisc Hdg Hrows Hmax Hlen.
  assert (Hc : length (disc ++ srcs) ≤ length c).
  { unfold c. by rewrite !length_fmap. }
  assert (Hd : length (disc ++ srcs) ≤ length d).
  { unfold d. by rewrite !length_fmap. }
  set (all := disc ++ srcs) in *.
  assert (Hndall : NoDup all).
  { destruct (discover_values_spec _ _ _ _ Hdisc) as ([H1 _ H3 _ _] & _).
    apply NoDup_app. split_and!; [done| |done].
    intros v Hv Hv'. by destruct (H3 v Hv). }
  destruct (build_graph_run all s0 Hndall) as [es Hgraph].
  set (s1 := set_value_id C _ s0) in Hgraph.
  specialize (Hdg _ _ Hgraph). simpl in Hdg.
  destruct (assign_stages_run all c d s1 Hndall Hc Hd)
    as (s2 & Hassign & T1 & T2 & T3 & T4).
  destruct (decompose_loop_run all c d s2 Hdag Hc Hd T4
              (seqZ 1 (N - 1)) [] srcs) as (new & Hloop & Hchain).
  set (cuts := stage_boundary all c d <$> seqZ 1 (N - 1)) in *.
  destruct (AtomicStage_init_total (default srcs (last cuts)) snks Hdag)
    as [stage Hstage].
  exists s2, (new ++ [stage]). split_and!; try done.
  - unfold decompose. unfold bind at 1. unfold lift at 1. rewrite Hdisc.
    simpl. fold all. unfold bind at 1. rewrite Hgraph.
    unfold bind at 1. unfold lift at 1. cbn [fst snd].
    rewrite (decompose_graph_columns qf _ _ rows Hdg Hrows).
    unfold bind at 1. unfold lift at 1. cbn [np_max]. fold c d. rewrite Hmax.
    unfold bind at 1. rewrite Hassign.
    unfold bind at 1. rewrite Hloop. simpl.
    unfold bind at 1. unfold lift at 1. by rewrite Hstage.
  - apply Hchain. simpl. by rewrite Hstage.
Qed.

(** On its return [select_alive] has left the state as it was. *)
Lemma select_alive_inv k v s s' l :
  select_alive k v s = (s', Ok l) → s' = s ∧ (l = [v] ∨ l = []).
Proof.
  unfold select_alive, bind, getattr, ret.
  destruct (create_stage s !! v) as [cv|]; [|done].
  destruct (bool_decide (cv ≤ k)%Z).
  - destruct (discard_stage s !! v) as [dv|]; [|done].
    intros [= <- <-]. split; [done|]. destruct (bool_decide _); auto.
  - intros [= <- <-]. auto.
Qed.

Lemma select_all_inv k all :
  ∀ s s' picked,
    mapM (select_alive k) all s = (s', Ok picked) →
    s' = s ∧ concat picked `sublist_of` all.
Proof.
  induction all as [|v all IH]; intros s s' picked Hrun; simpl in Hrun.
  - inversion Hrun; subst. split; [done|constructor].
  - unfold bind at 1 in Hrun.
    destruct (select_alive k v s) as [s1 [l|e]] eqn:Hv; [|done].
    apply select_alive_inv in Hv as [-> Hl].
    unfold bind at 1 in Hrun.
    destruct (mapM (select_alive k) all s) as [s2 [ls|e]] eqn:Hall; [|done].
    apply IH in Hall as [-> Hsub]. inversion Hrun; subst. split; [done|].
    simpl. destruct Hl as [-> | ->]; simpl; by constructor.
Qed.

(** Whenever [next_stage_source] returns, it has left the state as it was and
    selected values of [all], each at most once. *)
Lemma next_stage_source_inv all k s s' l :
  next_stage_source all k s = (s', Ok l) → s' = s ∧ (NoDup all → NoDup l).
Proof.
  unfold next_stage_source. unfold bind at 1.
  destruct (mapM (select_alive k) all s) as [s1 [picked|e]] eqn:Hall; [|done].
  apply select_all_inv in Hall as [-> Hsub]. intros [= <- <-].
  split; [done|]. intros Hnd. by eapply sublist_NoDup.
Qed.

(** Whenever the loop of [decompose] returns, it has left the state as it
    was, and the stages it has added are those built along the cuts it
    computed. *)
Lemma decompose_loop_inv all :
  NoDup all →
  ∀ ks acc prev s s' acc' last',
    decompose_loop G all ks (acc, prev) s = (s', Ok (acc', last')) →
    s' = s
    ∧ ∃ cuts new,
        acc' = acc ++ new ∧ Forall (fun cut => NoDup cut) cuts
        ∧ ∀ final tail,
            chain_stages last' final = Ok tail →
            chain_stages prev (cuts ++ final) = Ok (new ++ tail).
Proof.
  intros Hnd. induction ks as [|k ks IH];
    intros acc prev s s' acc' last' Hrun; simpl in Hrun.
  - inversion Hrun; subst. split; [done|]. exists [], [].
    rewrite app_nil_r. split_and!; [done|constructor|].
    intros final tail Htail. exact Htail.
  - unfold bind at 1 in Hrun.
    destruct (next_stage_source all k s) as [s1 [next|e]] eqn:Hnext; [|done].
    apply next_stage_source_inv in Hnext as [-> Hnext].
    unfold bind at 1, lift at 1 in Hrun. cbn [fst snd] in Hrun.
    destruct (AtomicStage_init G prev next) as [stage|e] eqn:Hstage; [|done].
    apply IH in Hrun as [-> (cuts & new & -> & Hnds & Hchain)].
    split; [done|]. exists (next :: cuts), (stage :: new).
    split_and!.
    + by rewrite <- app_assoc.
    + constructor; [by apply Hnext|done].
    + intros final tail Htail. cbn [app chain_stages]. rewrite Hstage.
      cbn [rbind]. by rewrite (Hchain final tail Htail).
Qed.

Lemma assign_stages_tmp (cc dd : np_value) (l : list (nat * nat)) :
  ∀ s s' r, forM_ l (assign_stages cc dd) s = (s', r) →
            _tmp s' = _tmp s ∧ performed s' = performed s.
Proof.
  induction l as [|p l IH]; intros s s' r Hrun; simpl in Hrun.
  - by inversion Hrun; subst.
  - unfold bind at 1, assign_stages at 1 in Hrun.
    unfold bind at 1, lift at 1 in Hrun.
    destruct (subscript cc p.1) as [ci|e]; [|by inversion Hrun; subst].
    unfold bind at 1, modify at 1 in Hrun.
    unfold bind at 1, lift at 1 in Hrun.
    destruct (subscript dd p.1) as [di|e]; [|by inversion Hrun; subst].
    unfold modify at 1 in Hrun. by apply IH in Hrun.
Qed.

(** Whenever [decompose] returns, the sources are pairwise distinct, the
    stages are those built along a sequence of cuts ending with the sinks,
    and the [_tmp] attributes and the log are as before. *)
Lemma decompose_inv (qf : list Z → list (nat * nat * bool) →
                          result (list (Z * Z * Z)))
    srcs snks s0 s2 stages :
  decompose G qf srcs snks s0 = (s2, Ok stages) →
  ∃ cuts,
    chain_stages srcs (cuts ++ [snks]) = Ok stages
    ∧ NoDup srcs ∧ Forall (fun cut => NoDup cut) cuts
    ∧ _tmp s2 = _tmp s0 ∧ performed s2 = performed s0.
Proof.
  unfold decompose. unfold bind at 1, lift at 1.
  destruct (discover_values G srcs snks) as [[disc trib]|e] eqn:Hdisc; [|done].
  cbn [fst snd]. set (all := disc ++ srcs).
  unfold bind at 1.
  destruct (build_graph G all s0) as [s1 [gr|e]] eqn:Hgraph; [|done].
  pose proof (build_graph_NoDup _ _ _ _ Hgraph) as Hndall.
  assert (Hs1 : _tmp s1 = _tmp s0 ∧ performed s1 = performed s0).
  { destruct (build_graph_run all s0 Hndall) as [es Hgraph'].
    rewrite Hgraph in Hgraph'. by inversion Hgraph'. }
  destruct Hs1 as [Htmp1 Hlog1].
  unfold bind at 1, lift at 1.
  destruct (rbind (decompose_graph qf gr.1 gr.2) unpack) as [[[cc dd] ee]|e];
    [|done].
  unfold bind at 1, lift at 1.
  destruct (np_max dd) as [N|e']; [|done].
  unfold bind at 1.
  destruct (forM_ (enumerate all) (assign_stages cc dd) s1) as [s1' [[]|e']]
    eqn:Hassign; [|done].
  apply assign_stages_tmp in Hassign as [Htmp Hlog].
  unfold bind at 1.
  destruct (decompose_loop G all (seqZ 1 (N - 1)) ([], srcs) s1')
    as [s1'' [[acc prev]|e']] eqn:Hloop; [|done].
  apply (decompose_loop_inv all Hndall) in Hloop
    as [-> (cuts & new & -> & Hnds & Hchain)].
  unfold bind at 1, lift at 1. cbn [fst snd].
  destruct (AtomicStage_init G prev snks) as [stage|e'] eqn:Hstage; [|done].
  intros [= <- <-]. exists cuts. split_and!.
  - apply Hchain. simpl. by rewrite Hstage.
  - by apply NoDup_app in Hndall as (_ & _ & ?).
  - done.
  - by rewrite Htmp.
  - by rewrite Hlog.
Qed.

End DecomposeFacts.

(** ** The shape of the stage list *)

Section ChainFacts.
Implicit Types (v u w : nat) (l all srcs snks prev : list nat).
Implicit Types (c d : list Z) (k : Z) (cuts : list (list nat)).

Lemma chain_stages_lookup cuts :
  ∀ prev stages,
    chain_stages prev cuts = Ok stages →
    length stages = length cuts
    ∧ ∀ i stage, stages !! i = Some stage →
        ∃ a b, (prev :: cuts) !! i = Some a ∧ cuts !! i = Some b
               ∧ AtomicStage_init G a b = Ok stage.
Proof.
  induction cuts as [|next cuts IH]; intros prev stages Hrun; simpl in Hrun.
  - inversion Hrun; subst. split; [done|]. intros i stage Hi. inversion Hi.
  - destruct (AtomicStage_init G prev next) as [st|] eqn:Hst; [|done].
    simpl in Hrun.
    destruct (chain_stages next cuts) as [sts|] eqn:Hsts; [|done].
    simpl in Hrun. inversion Hrun; subst.
    destruct (IH next sts Hsts) as [Hlen Hlook]. split; [simpl; lia|].
    intros [|i] stage Hi; simpl in Hi.
    + inversion Hi; subst. exists prev, next. done.
    + destruct (Hlook i stage Hi) as (a & b & Ha & Hb & Hinit).
      exists a, b. done.
Qed.

Lemma elem_of_concat {A} (a : A) (ls : list (list A)) :
  a ∈ concat ls ↔ ∃ xs, a ∈ xs ∧ xs ∈ ls.
Proof.
  induction ls as [|xs ls IH]; simpl.
  - split; [intros H; inversion H|intros (xs & _ & H); inversion H].
  - rewrite elem_of_app, IH. split.
    + intros [H|(ys & H1 & H2)]; [exists xs; split; [done|by left]|].
      exists ys. split; [done|by right].
    + intros (ys & H1 & H2). apply elem_of_cons in H2 as [->|H2]; [by left|].
      right. by exists ys.
Qed.

Lemma elem_of_stage_boundary all c d k v :
  v ∈ stage_boundary all c d k ↔
  ∃ i ci di, all !! i = Some v ∧ c !! i = Some ci ∧ d !! i = Some di
             ∧ (ci ≤ k ∧ di > k)%Z.
Proof.
  unfold stage_boundary. rewrite elem_of_concat. split.
  - intros (l & Hv & Hl). apply list_elem_of_fmap in Hl as ([i w] & -> & Hiw).
    apply enumerate_lookup in Hiw. unfold alive_at in Hv. simpl in Hv.
    destruct (c !! i) as [ci|] eqn:Hci; [|inversion Hv].
    destruct (d !! i) as [di|] eqn:Hdi; [|inversion Hv].
    destruct (bool_decide (ci ≤ k ∧ di > k)%Z) eqn:Hb; [|inversion Hv].
    apply bool_decide_eq_true in Hb. apply list_elem_of_singleton in Hv as ->.
    exists i, ci, di. done.
  - intros (i & ci & di & Hi & Hci & Hdi & Hb).
    exists (alive_at c d k (i, v)). split.
    + unfold alive_at. simpl. rewrite Hci, Hdi.
      rewrite bool_decide_eq_true_2 by done. by left.
    + apply list_elem_of_fmap. exists (i, v). split; [done|].
      by apply enumerate_lookup.
Qed.

Lemma NoDup_stage_boundary all c d k :
  NoDup all → NoDup (stage_boundary all c d k).
Proof.
  intros Hnd. unfold stage_boundary.
  rewrite <- (enumerate_snd all) in Hnd.
  induction (enumerate all) as [|[i v] ps IH]; simpl; [apply NoDup_nil_2|].
  rewrite fmap_cons in Hnd. apply NoDup_cons in Hnd as [Hv Hnd].
  apply NoDup_app. split_and!; [|intros w Hw Hw'|by apply IH].
  - unfold alive_at. simpl.
    destruct (c !! i), (d !! i); try apply NoDup_nil_2.
    destruct (bool_decide _); [apply NoDup_singleton|apply NoDup_nil_2].
  - assert (w = v) as ->.
    { unfold alive_at in Hw. simpl in Hw.
      destruct (c !! i), (d !! i); try (by inversion Hw).
      destruct (bool_decide _); [|by inversion Hw].
      by apply list_elem_of_singleton in Hw. }
    apply Hv. apply elem_of_concat in Hw' as (l & Hvl & Hl).
    apply list_elem_of_fmap in Hl as ([j u] & -> & Hju).
    assert (v = u) as ->.
    { unfold alive_at in Hvl. simpl in Hvl.
      destruct (c !! j), (d !! j); try (by inversion Hvl).
      destruct (bool_decide _); [|by inversion Hvl].
      by apply list_elem_of_singleton in Hvl. }
    apply list_elem_of_fmap. by exists (j, u).
Qed.

End ChainFacts.

(** ** Staged evaluation against direct evaluation *)

Section Pipeline.
Implicit Types (v u w : nat) (l all srcs snks prev disc trib : list nat).
Implicit Types (c d : list Z) (k N : Z) (cuts : list (list nat)).
Implicit Types (cs ck : list C) (f : nat → C) (s : state C).

Lemma direct_eval_bound srcs cs v (a : C) i f :
  NoDup srcs → length cs = length srcs →
  srcs !! i = Some v → cs !! i = Some a →
  direct_eval srcs cs f v = Some a.
Proof.
  intros Hnd Hlen Hv Hc.
  rewrite direct_eval_source by (by eapply list_elem_of_lookup_2).
  apply elem_of_list_to_map_1.
  - rewrite fst_zip; [done|lia].
  - apply list_elem_of_lookup. exists i. rewrite lookup_zip_with.
    by rewrite Hv, Hc.
Qed.

Lemma Forall2_direct_eval_sources srcs cs f :
  NoDup srcs → length cs = length srcs →
  Forall2 (fun v a => direct_eval srcs cs f v = Some a) srcs cs.
Proof.
  intros Hnd Hlen. apply Forall2_same_length_lookup. split; [done|].
  intros i v a Hv Hc. by eapply direct_eval_bound.
Qed.

Section Carried.
Variables (srcs : list nat) (cs : list C) (f : nat → C).
Hypothesis Hdag : dag G.

Local Notation D := (direct_eval srcs cs f).

(** A stage that carries the sources it depends on evaluates every value it
    walks through as the direct evaluation does. *)
Lemma carried_agrees prev next ck :
  NoDup prev → carries srcs prev next →
  Forall2 (fun v a => D v = Some a) prev ck →
  ∀ t, stage_reachable prev next t → direct_eval prev ck f t = D t.
Proof using Hdag.
  intros Hnd Hcar Hck t. induction (lt_wf t) as [t _ IH]. intros Ht.
  destruct (decide (t ∈ prev)) as [Hin|Hout].
  { apply list_elem_of_lookup in Hin as [i Hi].
    destruct (Forall2_lookup_l _ _ _ _ _ Hck Hi) as (a & Ha & HD).
    rewrite HD. eapply direct_eval_bound; try done.
    symmetry. by eapply Forall2_length. }
  assert (Hns : t ∉ srcs) by (intros Hs; by apply Hout, Hcar).
  destruct (owner (G t)) as [op|] eqn:Hop.
  - rewrite !(direct_eval_owned _ _ _ _ op) by done. f_equal.
    apply option_all_ext. intros [u|a] Hu; [|done].
    apply IH; [by eapply Hdag|].
    apply (stage_reachable_input _ _ u t); [done|done|by exists op].
  - by rewrite !direct_eval_unowned.
Qed.

Lemma Forall2_impl_elem {A B} (R R' : A → B → Prop) (xs : list A) (ys : list B) :
  Forall2 R xs ys → (∀ x y, x ∈ xs → R x y → R' x y) → Forall2 R' xs ys.
Proof.
  induction 1 as [|x y xs ys Hxy _ IH]; intros Himp; constructor.
  - apply Himp; [by left|done].
  - apply IH. intros x' y' Hx'. apply Himp. by right.
Qed.

Lemma run_stages_chain cuts :
  ∀ prev ck stages s,
    chain_stages prev cuts = Ok stages →
    chain_ok srcs cs f prev cuts →
    Forall2 (fun v a => D v = Some a) prev ck →
    (∀ v, _tmp s !! v = None) →
    ∃ lg outs,
      run_stages G stages ck (Callable f) s
      = (with_tmp_log (_tmp s) (performed s ++ lg) s, Ok outs)
      ∧ Forall2 (fun v a => D v = Some a) (default prev (last cuts)) outs.
Proof using Hdag.
  induction cuts as [|next cuts IH]; intros prev ck stages s Hchain Hok Hck Hfresh;
    simpl in Hchain.
  - inversion Hchain; subst. exists [], ck. simpl. rewrite app_nil_r.
    split; [by destruct s|done].
  - destruct (AtomicStage_init G prev next) as [stage|] eqn:Hstage; [|done].
    simpl in Hchain.
    destruct (chain_stages next cuts) as [sts|] eqn:Hsts; [|done].
    simpl in Hchain. inversion Hchain; subst. clear Hchain.
    destruct Hok as (Hnd & Hlink & Hok).
    destruct (AtomicStage_init_spec _ _ _ Hstage) as (Hsrc & Hsnk & _ & Hwf).
    destruct (AtomicStage_call_direct_eval stage ck f s Hdag Hwf)
      as (lg & outs & Hcall & Houts).
    { by rewrite Hsrc. }
    { rewrite Hsrc. symmetry. by eapply Forall2_length. }
    { intros v _. apply Hfresh. }
    rewrite Hsrc, Hsnk in Houts.
    assert (Houts' : Forall2 (fun v a => D v = Some a) next outs).
    { eapply Forall2_impl_elem; [done|]. intros t a Ht Ha.
      by rewrite <- (Hlink ck Hck t Ht). }
    destruct (IH next outs sts (with_tmp_log (_tmp s) (performed s ++ lg) s)
                Hsts Hok Houts') as (lg2 & outs2 & Hrun & Hfin).
    { intros v. simpl. apply Hfresh. }
    exists (lg ++ lg2), outs2. split.
    + simpl. unfold bind. rewrite Hcall, Hrun. f_equal.
      unfold with_tmp_log. simpl. by rewrite app_assoc.
    + by rewrite last_cons_default.
Qed.

(** A stage that carries the sources it depends on, run on the direct
    evaluation of its formal sources, returns that of its sinks. *)
Lemma stage_link prev next stage ck :
  AtomicStage_init G prev next = Ok stage →
  NoDup prev →
  carries srcs (source_values stage) (sink_values stage) →
  Forall2 (fun v a => D v = Some a) prev ck →
  ∀ t, t ∈ next → direct_eval prev ck f t = D t.
Proof using Hdag.
  intros Hstage Hnd Hcar Hck t Ht.
  destruct (AtomicStage_init_spec _ _ _ Hstage) as (Hsrc & Hsnk & _).
  rewrite Hsrc, Hsnk in Hcar.
  apply (carried_agrees prev next); try done.
  by apply stage_reachable_sink.
Qed.

(** A chain of stages each of which carries the sources it depends on. *)
Lemma chain_carried cuts :
  ∀ prev final stages,
    chain_stages prev (cuts ++ [final]) = Ok stages →
    NoDup prev → Forall (fun cut => NoDup cut) cuts →
    (∀ stage, stage ∈ stages →
              carries srcs (source_values stage) (sink_values stage)) →
    chain_ok srcs cs f prev (cuts ++ [final]).
Proof using Hdag.
  induction cuts as [|next cuts IH];
    intros prev final stages Hchain Hnd Hnds Hcar;
    cbn [app chain_stages] in Hchain.
  - destruct (AtomicStage_init G prev final) as [stage|] eqn:Hstage; [|done].
    cbn [rbind] in Hchain. inversion Hchain; subst. clear Hchain.
    cbn [app chain_ok]. split_and!; [done| |done].
    intros ck Hck. apply (stage_link prev final stage); try done.
    apply Hcar. by left.
  - destruct (AtomicStage_init G prev next) as [stage|] eqn:Hstage; [|done].
    cbn [rbind] in Hchain.
    destruct (chain_stages next (cuts ++ [final])) as [sts|] eqn:Hsts; [|done].
    cbn [rbind] in Hchain. inversion Hchain; subst. clear Hchain.
    apply Forall_cons in Hnds as [Hnext Hnds].
    cbn [app chain_ok]. split_and!; [done| |].
    + intros ck Hck. apply (stage_link prev next stage); try done.
      apply Hcar. by left.
    + apply (IH next final sts); try done. intros st Hst. apply Hcar. by right.
Qed.

End Carried.

End Pipeline.

End Graph.

(** ** The claims about [enzyme/symbolic_value.py] *)

(** C4, as stated, fails: in the two-step graph the stage from [b] to [c]
    is constructed, [a] is reachable from the sink [c] (through [b]), and [a]
    is neither a formal source, nor a tributary, nor an internal value. *)
Lemma topological_soundness_counterexample :
  ∃ stage,
    AtomicStage_init Examples.two_step [1] [2] = Ok stage
    ∧ reachable Examples.two_step [2] 0
    ∧ 0 ∉ source_values stage
    ∧ 0 ∉ triburary_values stage
    ∧ 0 ∉ sorted_values stage.
Proof.
  eexists. split; [reflexivity|]. split_and!.
  - apply (reachable_input _ _ 0 1).
    + apply (reachable_input _ _ 1 2).
      * apply reachable_sink. set_solver.
      * eexists. split; [reflexivity|]. set_solver.
    + eexists. split; [reflexivity|]. set_solver.
  - simpl. set_solver.
  - simpl. set_solver.
  - simpl. set_solver.
Qed.

(** C4 (amended): for every stage constructed from [(srcs, snks)], every
    value reachable from the sinks without passing through a formal source
    is a formal source, a tributary or an internal value, and of exactly one
    of the three kinds; and in the sorted internal list every input of an
    internal value is a formal source, a tributary, or an internal value at
    an earlier position. *)
Theorem topological_soundness {C} (G : heap C) srcs snks stage :
  AtomicStage_init G srcs snks = Ok stage →
  (∀ v, stage_reachable G srcs snks v →
        v ∈ source_values stage ∨ v ∈ triburary_values stage
        ∨ v ∈ sorted_values stage)
  ∧ (∀ v, ¬ (v ∈ source_values stage ∧ v ∈ triburary_values stage)
          ∧ ¬ (v ∈ source_values stage ∧ v ∈ sorted_values stage)
          ∧ ¬ (v ∈ triburary_values stage ∧ v ∈ sorted_values stage))
  ∧ (∀ i v u, sorted_values stage !! i = Some v → feeds G u v →
              u ∈ source_values stage ∨ u ∈ triburary_values stage
              ∨ u ∈ take i (sorted_values stage)).
Proof.
  intros Hinit.
  destruct (AtomicStage_init_spec G _ _ _ Hinit)
    as (Hsrc & Hsnk & _ & [W1 W2 W3 W4 W5 W6 W7]).
  split_and!.
  - induction 1 as [v Hv|u v Hreach IH Hns (op & Hop & Hu)].
    + rewrite <- Hsnk in Hv. destruct (W6 v Hv) as [?|[?|?]]; auto.
    + destruct IH as [Hs|[Ht|Hi]].
      * by rewrite Hsrc in Hs.
      * destruct (W4 v Ht). congruence.
      * destruct (W5 v op (Val u) Hi Hop Hu) as [?|[?|?]]; auto.
  - intros v. split_and!.
    + intros [Hs Ht]. by destruct (W4 v Ht).
    + intros [Hs Hi]. by destruct (W3 v Hi).
    + intros [Ht Hi]. destruct (W4 v Ht) as [_ Hnone].
      destruct (W3 v Hi) as [_ [op Hop]]. congruence.
  - intros i v u Hi (op & Hop & Hu).
    destruct (W7 i v Hi) as (op' & Hop' & Hins).
    rewrite Hop in Hop'. inversion Hop'; subst op'.
    destruct (Hins u Hu) as [?|[Hnone|?]]; auto.
    assert (Hv : v ∈ sorted_values stage) by (by eapply list_elem_of_lookup_2).
    destruct (W5 v op (Val u) Hv Hop Hu) as [?|[Hs|?]]; auto.
    simpl in Hs. destruct (W3 u Hs) as [_ [? ?]]. congruence.
Qed.

Lemma topological_soundness_witness :
  AtomicStage_init Examples.two_step [0] [2]
  = Ok {| source_values := [0]; triburary_values := [];
          sorted_values := [1; 2]; sink_values := [2] |}
  ∧ ∀ i v u, [1; 2] !! i = Some v → feeds Examples.two_step u v →
             u ∈ [0] ∨ u ∈ @nil nat ∨ u ∈ take i [1; 2].
Proof.
  split; [reflexivity|].
  apply (topological_soundness Examples.two_step [0] [2]
           {| source_values := [0]; triburary_values := [];
              sorted_values := [1; 2]; sink_values := [2] |}).
  reflexivity.
Defined.

(** C3, as stated, fails: a stage whose formal sources list the same value
    twice is constructed, and invoking it with as many concrete sources
    fails the assertion that no value is bound twice. *)
Lemma invocation_contract_counterexample :
  let stage := {| source_values := [0; 0]; triburary_values := [];
                  sorted_values := []; sink_values := [0] |} in
  AtomicStage_init Examples.two_step [0; 0] [0] = Ok stage
  ∧ length [5; 5]%Z = length (source_values stage)
  ∧ (AtomicStage_call Examples.two_step stage (Seq [5; 5]%Z)
       (Callable (fun _ => 0%Z)) Examples.clean).2
    = Raise AssertionError.
Proof. split_and!; vm_compute; reflexivity. Qed.

(** C3 (amended): for every stage constructed from pairwise distinct formal
    sources, invoked while none of its values carries a [_tmp] attribute and
    with a resolver that answers for its tributaries: if the number of
    concrete sources differs from the number of formal sources the
    invocation fails an assertion; otherwise it returns, there is a symbol
    table binding the formal sources to the concrete sources, the
    tributaries to the resolver's answers and every internal value to
    [perform] of its owner applied to the inputs, values replaced by their
    table entries and other inputs unchanged; [perform] is called once per
    internal value, in the stored order; the result is the table entries of
    the sinks in their order; and the [_tmp] attributes are gone again. *)
Theorem invocation_contract {C} (G : heap C) srcs snks stage (cs : list C)
    r f s0 :
  AtomicStage_init G srcs snks = Ok stage →
  NoDup srcs →
  resolves r (triburary_values stage) f →
  (∀ v, v ∈ srcs ++ triburary_values stage ++ sorted_values stage →
        _tmp s0 !! v = None) →
  (length cs ≠ length srcs →
   AtomicStage_call G stage (Seq cs) r s0 = (s0, Raise AssertionError))
  ∧ (length cs = length srcs →
     ∃ tbl lg outs,
       AtomicStage_call G stage (Seq cs) r s0
       = (with_tmp_log (_tmp s0) (performed s0 ++ lg) s0, Ok outs)
       ∧ symbol_table G stage cs f tbl
       ∧ Forall2 (fun v e => e.1 = v ∧ evaluated G tbl v e.2)
                 (sorted_values stage) lg
       ∧ Forall2 (fun v a => tbl !! v = Some a) (sink_values stage) outs).
Proof.
  intros Hinit Hnd Hres Hfresh.
  destruct (AtomicStage_init_spec G _ _ _ Hinit) as (Hsrc & Hsnk & _ & Hwf).
  split.
  - intros Hlen. unfold AtomicStage_call, bind, assert.
    rewrite Hsrc. rewrite bool_decide_eq_false_2 by done. done.
  - intros Hlen. apply AtomicStage_call_ok; try done; by rewrite Hsrc.
Qed.

Lemma invocation_contract_witness :
  ∃ (tbl : gmap nat Z) lg outs,
    AtomicStage_call Examples.two_step
      {| source_values := [0]; triburary_values := [];
         sorted_values := [1; 2]; sink_values := [2] |}
      (Seq [5%Z]) (Callable (fun _ => 0%Z)) Examples.clean
    = (with_tmp_log ∅ lg Examples.clean, Ok outs)
    ∧ tbl !! 0 = Some 5%Z.
Proof.
  destruct (invocation_contract Examples.two_step [0] [2]
              {| source_values := [0]; triburary_values := [];
                 sorted_values := [1; 2]; sink_values := [2] |}
              [5%Z] (Callable (fun _ => 0%Z)) (fun _ => 0%Z) Examples.clean)
    as [_ Hok].
  - reflexivity.
  - apply NoDup_singleton.
  - simpl. done.
  - intros v _. apply lookup_empty.
  - destruct (Hok eq_refl) as (tbl & lg & outs & Hrun & (Hsrc & _ & _) & _ & _).
    exists tbl, lg, outs. split; [exact Hrun|].
    apply (Hsrc 0 0 5%Z); reflexivity.
Defined.

(** C2, as stated, fails: when the partitioner discards every value at
    stage 0 the maximum of [d] is 0, and [decompose] still emits one stage. *)
Lemma decompose_emits_counterexample :
  (decompose Examples.two_step Examples.flat_partition [0; 3] [0]
     Examples.clean).2
  = Ok [ {| source_values := [0; 3]; triburary_values := [];
            sorted_values := []; sink_values := [0] |} ]
  ∧ array_max [0; 0]%Z = Ok 0%Z
  ∧ length [ {| source_values := [0; 3]; triburary_values := [];
                sorted_values := []; sink_values := [0] |} ] ≠ Z.to_nat 0.
Proof. split_and!; [vm_compute; reflexivity|reflexivity|simpl; lia]. Qed.

(** C2 (amended): whenever [build_graph] has returned and the partitioner
    prints two or more rows, one row per value of
    [A = discovered ++ sources], with the columns [c] and [d], [decompose]
    returns a list of [max(1, N)] stages where [N = max(d)]; every stage of
    the list is the stage constructed from its own sources and sinks; the
    first stage has the given sources as formal sources; for every [k] from
    1 to [N - 1] the sinks of the [k]-th stage and the formal sources of the
    next one are the values [A[i]] with [c[i] ≤ k < d[i]] in the order of
    [A]; and the last stage has the given sinks. *)
Theorem decompose_emits {C} (G : heap C) qf srcs snks disc trib gr
    rows N s0 s1 :
  let c := rows.*1.*1 in
  let d := rows.*1.*2 in
  dag G →
  discover_values G srcs snks = Ok (disc, trib) →
  build_graph G (disc ++ srcs) s0 = (s1, Ok gr) →
  qf gr.1 gr.2 = Ok rows →
  length rows = length (disc ++ srcs) →
  2 ≤ length rows →
  array_max d = Ok N →
  ∃ s2 stages,
    decompose G qf srcs snks s0 = (s2, Ok stages)
    ∧ length stages = Z.to_nat (Z.max 1 N)
    ∧ (∀ i stage, stages !! i = Some stage →
         AtomicStage_init G (source_values stage) (sink_values stage)
         = Ok stage)
    ∧ (∀ stage, stages !! 0 = Some stage → source_values stage = srcs)
    ∧ (∀ (k : nat) stage, 1 ≤ k → (Z.of_nat k < N)%Z →
         (stages !! (k - 1) = Some stage →
          sink_values stage = stage_boundary (disc ++ srcs) c d (Z.of_nat k))
         ∧ (stages !! k = Some stage →
            source_values stage
            = stage_boundary (disc ++ srcs) c d (Z.of_nat k)))
    ∧ (∀ stage, last stages = Some stage → sink_values stage = snks).
Proof.
  intros c d Hdag Hdisc Hgraph Hqf Hlen Hrows Hmax.
  assert (Hnd : NoDup srcs).
  { apply build_graph_NoDup in Hgraph. by apply NoDup_app in Hgraph as (_ & _ & ?). }
  destruct (decompose_run G qf srcs snks disc trib rows N s0)
    as (s2 & stages & Hrun & Hchain & _); try done; try lia.
  { intros s1' gr' Hgraph'. rewrite Hgraph in Hgraph'.
    by inversion Hgraph'; subst. }
  fold c d in Hchain.
  set (all := disc ++ srcs) in *.
  set (cuts := (stage_boundary all c d <$> seqZ 1 (N - 1)) ++ [snks]) in *.
  destruct (chain_stages_lookup G cuts srcs stages Hchain) as [Hlen' Hlook].
  assert (Hcut : ∀ k : nat, 1 ≤ k → (Z.of_nat k < N)%Z →
            cuts !! (k - 1) = Some (stage_boundary all c d (Z.of_nat k))).
  { intros k Hk HkN. unfold cuts.
    rewrite lookup_app_l by (rewrite length_fmap, length_seqZ; lia).
    rewrite list_lookup_fmap.
    rewrite (proj2 (lookup_seqZ 1 (N - 1) (k - 1) (Z.of_nat k))) by lia.
    done. }
  exists s2, stages. split_and!; [done| | | | |].
  - rewrite Hlen'. unfold cuts.
    rewrite length_app, length_fmap, length_seqZ. simpl. lia.
  - intros i stage Hi. destruct (Hlook i stage Hi) as (a & b & _ & _ & Hinit).
    destruct (AtomicStage_init_spec G _ _ _ Hinit) as (-> & -> & _). done.
  - intros stage Hi. destruct (Hlook 0 stage Hi) as (a & b & Ha & _ & Hinit).
    simpl in Ha. inversion Ha; subst.
    by destruct (AtomicStage_init_spec G _ _ _ Hinit) as (-> & _).
  - intros k stage Hk HkN. split; intros Hi.
    + destruct (Hlook _ stage Hi) as (a & b & _ & Hb & Hinit).
      rewrite (Hcut k Hk HkN) in Hb. inversion Hb; subst.
      by destruct (AtomicStage_init_spec G _ _ _ Hinit) as (_ & -> & _).
    + destruct (Hlook _ stage Hi) as (a & b & Ha & _ & Hinit).
      destruct k as [|k]; [lia|]. simpl in Ha.
      replace k with (S k - 1) in Ha by lia.
      rewrite (Hcut (S k) Hk HkN) in Ha. inversion Ha; subst.
      by destruct (AtomicStage_init_spec G _ _ _ Hinit) as (-> & _).
  - intros stage Hlast. rewrite last_lookup in Hlast.
    destruct (Hlook _ stage Hlast) as (a & b & _ & Hb & Hinit).
    rewrite Hlen' in Hb. unfold cuts in Hb.
    replace (pred (length ((stage_boundary all c d <$> seqZ 1 (N - 1)) ++ [snks])))
      with (length (stage_boundary all c d <$> seqZ 1 (N - 1)) + 0) in Hb
      by (rewrite length_app; simpl; lia).
    rewrite lookup_app_r in Hb by lia.
    replace (length (stage_boundary all c d <$> seqZ 1 (N - 1)) + 0
             - length (stage_boundary all c d <$> seqZ 1 (N - 1))) with 0 in Hb
      by lia.
    simpl in Hb. inversion Hb; subst.
    by destruct (AtomicStage_init_spec G _ _ _ Hinit) as (_ & -> & _).
Qed.

Lemma two_step_dag : dag Examples.two_step.
Proof.
  intros v op u Hop Hu. destruct v as [|[|[|v]]]; simpl in Hop;
    try discriminate; inversion Hop; subst; simpl in Hu;
    repeat (apply elem_of_cons in Hu as [Hu|Hu]; [inversion Hu; subst; lia|]);
    inversion Hu.
Qed.

Lemma decompose_emits_witness :
  ∃ s2 stages,
    decompose Examples.two_step Examples.two_step_partition [0] [2]
      Examples.clean = (s2, Ok stages)
    ∧ length stages = 2.
Proof.
  destruct (decompose_emits Examples.two_step Examples.two_step_partition
              [0] [2] [2; 1] []
              ([6; 6; 6; 1]%Z, [(1, 0, true); (2, 1, true)])
              [(2, 2, 0); (1, 2, 0); (0, 1, 0)]%Z 2%Z
              Examples.clean Examples.clean)
    as (s2 & stages & Hrun & Hlen & _).
  - exact two_step_dag.
  - reflexivity.
  - vm_compute. reflexivity.
  - reflexivity.
  - reflexivity.
  - simpl. lia.
  - reflexivity.
  - exists s2, stages. split; [exact Hrun|exact Hlen].
Defined.

(** C8, evaluated on the two-step graph: no value carries [create_stage]
    before [decompose]; after it has returned, the values still carry
    [create_stage] and [discard_stage]. *)
Theorem decompose_leaves_stage_attributes :
  let run := decompose Examples.two_step Examples.two_step_partition
               [0] [2] Examples.clean in
  (∃ stages, run.2 = Ok stages)
  ∧ create_stage Examples.clean = ∅
  ∧ discard_stage Examples.clean = ∅
  ∧ create_stage run.1 !! 0 = Some 0%Z
  ∧ discard_stage run.1 !! 0 = Some 1%Z
  ∧ create_stage run.1 !! 2 = Some 2%Z
  ∧ discard_stage run.1 !! 2 = Some 2%Z.
Proof.
  split_and!;
    first [vm_compute; reflexivity | eexists; vm_compute; reflexivity].
Qed.

(** The same on every graph: whenever [decompose] returns on a table of two
    or more rows, every discovered value and every source carries both
    attributes afterwards, whereas [build_graph] and the stage invocation
    delete their scratch attributes ([build_graph_restores],
    [AtomicStage_call_ok]). *)
Lemma decompose_attaches_stages {C} (G : heap C) qf srcs snks disc trib gr
    rows N s0 s1 v :
  dag G →
  discover_values G srcs snks = Ok (disc, trib) →
  build_graph G (disc ++ srcs) s0 = (s1, Ok gr) →
  qf gr.1 gr.2 = Ok rows →
  length rows = length (disc ++ srcs) →
  2 ≤ length rows →
  array_max rows.*1.*2 = Ok N →
  v ∈ disc ++ srcs →
  ∃ s2 stages,
    decompose G qf srcs snks s0 = (s2, Ok stages)
    ∧ is_Some (create_stage s2 !! v) ∧ is_Some (discard_stage s2 !! v).
Proof.
  intros Hdag Hdisc Hgraph Hqf Hlen Hrows Hmax Hv.
  assert (Hnd : NoDup srcs).
  { apply build_graph_NoDup in Hgraph. by apply NoDup_app in Hgraph as (_ & _ & ?). }
  destruct (decompose_run G qf srcs snks disc trib rows N s0)
    as (s2 & stages & Hrun & _ & _ & _ & Hattr); try done; try lia.
  { intros s1' gr' Hgraph'. rewrite Hgraph in Hgraph'.
    by inversion Hgraph'; subst. }
  exists s2, stages. split; [done|].
  apply list_elem_of_lookup in Hv as [i Hi].
  destruct (Hattr i v Hi) as [-> ->].
  apply lookup_lt_Some in Hi.
  split; apply lookup_lt_is_Some; rewrite !length_fmap; lia.
Qed.

(** C1, as stated, fails: on the two-step graph, with a partitioner answer
    in which [c ≤ d] holds for every vertex, [decompose] returns two stages;
    run one after the other on the source value 5 they return 12, whereas
    the direct evaluation of the sink, which is also what the single stage
    from the source to the sink returns, is 17.  The source [a] is discarded
    after stage 0, so that the second stage, which computes [b] and [c], does
    not receive it and asks the tributary resolver for it. *)
Lemma stage_closure_counterexample :
  let run := decompose Examples.two_step Examples.hasty_partition [0] [2]
               Examples.clean in
  let f := fun _ : nat => 0%Z in
  (∃ first second,
     run.2 = Ok [first; second]
     ∧ (run_stages Examples.two_step [first; second] [5%Z] (Callable f)
          run.1).2 = Ok [12%Z])
  ∧ option_all (direct_eval Examples.two_step [0] [5%Z] f) [2] = Some [17%Z]
  ∧ (AtomicStage_call Examples.two_step Scenarios.whole (Seq [5%Z])
       (Callable f) Examples.clean).2 = Ok [17%Z]
  ∧ Forall (fun row : Z * Z * Z => (row.1.1 ≤ row.1.2)%Z)
      [(2, 2, 0); (1, 1, 0); (0, 0, 0)]%Z.
Proof.
  split_and!.
  - eexists _, _. split; vm_compute; reflexivity.
  - vm_compute. reflexivity.
  - vm_compute. reflexivity.
  - repeat constructor; simpl; lia.
Qed.

(** C1 (amended): for every acyclic graph and every stage list returned by
    [decompose] in which every stage has among its formal sources each of
    the given sources that its sinks depend on, and every list of as many
    concrete values as sources, running the stages one after the other, each
    on the output tuple of the one before, returns; the result of the last
    stage is the direct evaluation of the sinks, and it is what the single
    stage from the sources to the sinks returns on the same concrete
    sources. *)
Theorem stage_closure {C} (G : heap C) qf srcs snks (cs : list C) f
    s0 s2 stages :
  dag G →
  decompose G qf srcs snks s0 = (s2, Ok stages) →
  (∀ stage, stage ∈ stages →
            carries G srcs (source_values stage) (sink_values stage)) →
  length cs = length srcs →
  (∀ v, _tmp s0 !! v = None) →
  ∃ s3 outs,
    run_stages G stages cs (Callable f) s2 = (s3, Ok outs)
    ∧ option_all (direct_eval G srcs cs f) snks = Some outs
    ∧ ∃ stage s4,
        AtomicStage_init G srcs snks = Ok stage
        ∧ AtomicStage_call G stage (Seq cs) (Callable f) s0 = (s4, Ok outs).
Proof.
  intros Hdag Hrun Hcar Hcs Hfresh.
  destruct (decompose_inv G qf srcs snks s0 s2 stages Hrun)
    as (cuts & Hchain & Hnd & Hnds & Htmp & _).
  destruct (run_stages_chain G srcs cs f Hdag _ srcs cs stages s2 Hchain)
    as (lg & outs & Hstages & Houts).
  { by apply (chain_carried G srcs cs f Hdag cuts srcs snks stages). }
  { by apply Forall2_direct_eval_sources. }
  { intros v. rewrite Htmp. apply Hfresh. }
  rewrite last_snoc in Houts. simpl in Houts.
  apply option_all_Forall2 in Houts.
  destruct (AtomicStage_init_total G srcs snks Hdag) as [stage Hstage].
  destruct (AtomicStage_init_spec G _ _ _ Hstage) as (Hsrc & Hsnk & _ & Hwf).
  destruct (AtomicStage_call_direct_eval G stage cs f s0 Hdag Hwf)
    as (lg' & outs' & Hcall & Houts').
  { by rewrite Hsrc. }
  { by rewrite Hsrc. }
  { intros v _. apply Hfresh. }
  rewrite Hsrc, Hsnk in Houts'. apply option_all_Forall2 in Houts'.
  rewrite Houts in Houts'. inversion Houts'; subst outs'.
  eexists _, outs. split_and!; [done|done|].
  by eexists stage, _.
Qed.

Lemma two_step_halves_carry :
  ∀ stage, stage ∈ [Scenarios.first_half; Scenarios.second_half] →
    carries Examples.two_step [0] (source_values stage) (sink_values stage).
Proof.
  intros stage Hstage v Hv Hreach.
  apply list_elem_of_singleton in Hv as ->.
  apply elem_of_cons in Hstage as [->|Hstage]; [by left|].
  apply list_elem_of_singleton in Hstage as ->. simpl in *.
  inversion Hreach as [v Hsink|u w Hw Hout (op & Hop & Hin)]; subst.
  - apply list_elem_of_singleton in Hsink. discriminate Hsink.
  - destruct w as [|[|[|w]]]; simpl in Hop; try discriminate Hop.
    + destruct Hout. by left.
    + inversion Hop; subst. simpl in Hin.
      repeat (apply elem_of_cons in Hin as [Hin|Hin]; [discriminate Hin|]).
      inversion Hin.
Qed.

Lemma stage_closure_witness :
  ∃ s3 outs,
    run_stages Examples.two_step [Scenarios.first_half; Scenarios.second_half]
      [5%Z] (Callable (fun _ => 0%Z)) Scenarios.staged = (s3, Ok outs)
    ∧ option_all (direct_eval Examples.two_step [0] [5%Z] (fun _ => 0%Z)) [2]
      = Some outs.
Proof.
  destruct (stage_closure Examples.two_step Examples.two_step_partition
              [0] [2] [5%Z] (fun _ => 0%Z) Examples.clean Scenarios.staged
              [Scenarios.first_half; Scenarios.second_half])
    as (s3 & outs & Hrun & Houts & _).
  - exact two_step_dag.
  - vm_compute. reflexivity.
  - exact two_step_halves_carry.
  - reflexivity.
  - intros v. apply lookup_empty.
  - exists s3, outs. split; [exact Hrun|exact Houts].
Defined.

(** ** Further properties of [enzyme/symbolic_value.py] *)

(** *** Sorting *)

Section SortPass.
Context {C : Type} (G : heap C).
Implicit Types (v u w : nat) (s l m pre r : list nat) (x : obj C).

Lemma is_computable_mono s m x :
  is_computable G s x = true → is_computable G (s ++ m) x = true.
Proof.
  unfold is_computable. destruct x as [v|c]; [|done].
  intros [Hl|[Hs|Ho]%orb_prop]%orb_prop; apply orb_true_iff.
  - by left.
  - right. apply orb_true_iff. left. apply bool_decide_eq_true.
    apply bool_decide_eq_true in Hs. set_solver.
  - right. apply orb_true_iff. by right.
Qed.

Lemma ready_mono s m v : ready G s v → ready G (s ++ m) v.
Proof.
  intros (op & Hop & Hall). exists op. split; [done|].
  rewrite forallb_forall in *. intros x Hx. by apply is_computable_mono, Hall.
Qed.

Lemma list_remove_middle pre v r :
  v ∉ pre → list_remove v (pre ++ v :: r) = pre ++ r.
Proof.
  induction pre as [|y pre IH]; intros Hv; simpl.
  - by rewrite decide_True.
  - rewrite decide_False by set_solver. f_equal. apply IH. set_solver.
Qed.

Lemma sort_pass_alternate k :
  ∀ r pre s b n,
    length r ≤ k → length r ≤ n → NoDup (pre ++ r) →
    (∀ v, v ∈ r → ready G s v) →
    sort_pass G n (length pre) s (pre ++ r) b
    = Ok (s ++ (alternate r).1, pre ++ (alternate r).2,
          if r is [] then b else true).
Proof.
  induction k as [k IH] using lt_wf_ind.
  intros r pre s b n Hk Hn Hnd Hready.
  destruct r as [|x [|y r]].
  - simpl. rewrite !app_nil_r.
    destruct n; simpl; by rewrite (lookup_ge_None_2 pre (length pre)) by lia.
  - destruct n as [|n]; [simpl in Hn; lia|].
    destruct (Hready x) as (op & Hop & Hall); [by left|].
    cbn [sort_pass]. rewrite list_lookup_middle by done. rewrite Hop, Hall.
    rewrite list_remove_middle.
    2: { apply NoDup_app in Hnd as (_ & Hd & _). intros Hx. apply (Hd x Hx). by left. }
    simpl. rewrite !app_nil_r.
    destruct n; simpl; by rewrite (lookup_ge_None_2 pre (S (length pre))) by lia.
  - destruct n as [|n]; [simpl in Hn; lia|].
    destruct (Hready x) as (op & Hop & Hall); [by left|].
    cbn [sort_pass]. rewrite list_lookup_middle by done. rewrite Hop, Hall.
    rewrite list_remove_middle.
    2: { apply NoDup_app in Hnd as (_ & Hd & _). intros Hx. apply (Hd x Hx). by left. }
    assert (Hnd' : NoDup ((pre ++ [y]) ++ r)).
    { rewrite <- app_assoc. simpl.
      apply NoDup_app in Hnd as (H1 & H2 & H3). apply NoDup_app. split_and!; [done| |].
      - intros z Hz Hz'. apply (H2 z Hz). by right.
      - by apply NoDup_cons in H3 as [_ ?]. }
    replace (pre ++ y :: r) with ((pre ++ [y]) ++ r) by (by rewrite <- app_assoc).
    replace (S (length pre)) with (length (pre ++ [y])) by (rewrite length_app; simpl; lia).
    simpl in Hk, Hn.
    rewrite (IH (length r) ltac:(lia) r (pre ++ [y]) (s ++ [x]) true n) ; try done; try lia.
    + simpl. rewrite <- !app_assoc. simpl. by destruct r.
    + intros v Hv. apply ready_mono, Hready. by do 2 right.
Qed.

(** One pass over pairwise distinct values that are all ready moves the
    values at the even positions and leaves the others pending. *)
Lemma sort_pass_skips l s :
  NoDup l → l ≠ [] → (∀ v, v ∈ l → ready G s v) →
  sort_pass G (length l) 0 s l false
  = Ok (s ++ (alternate l).1, (alternate l).2, true).
Proof.
  intros Hnd Hne Hready.
  pose proof (sort_pass_alternate (length l) l [] s false (length l)) as Hpass.
  simpl in Hpass. rewrite Hpass; try done. by destruct l.
Qed.

Lemma alternate_perm {A} (l : list A) :
  (alternate l).1 ++ (alternate l).2 ≡ₚ l.
Proof.
  induction l as [|x l IH]; [done|].
  cbn [alternate fst snd]. simpl. constructor.
  by rewrite (comm app).
Qed.

Lemma alternate_shorter {A} (l : list A) :
  l ≠ [] → length (alternate l).2 < length l.
Proof.
  intros Hne. rewrite <- (alternate_perm l) at 2. rewrite length_app.
  destruct l as [|x l]; [done|]. cbn [alternate fst]. simpl. lia.
Qed.

Lemma sort_loop_rounds n :
  ∀ l s, length l ≤ n → NoDup l → (∀ v, v ∈ l → ready G s v) →
         sort_loop G n s l = Ok (s ++ rounds n l, []).
Proof.
  induction n as [|n IH]; intros l s Hlen Hnd Hready.
  - destruct l; [|simpl in Hlen; lia]. simpl. by rewrite app_nil_r.
  - destruct l as [|x l]; [simpl; by rewrite app_nil_r|].
    set (l0 := x :: l) in *.
    assert (Hne : l0 ≠ []) by done.
    cbn [sort_loop]. fold l0.
    rewrite (sort_pass_skips l0 s Hnd Hne Hready). cbn [rbind].
    pose proof (alternate_perm l0) as Hperm.
    pose proof (alternate_shorter l0 Hne) as Hshort.
    rewrite IH.
    + cbn [rounds]. fold l0. by rewrite <- app_assoc.
    + lia.
    + rewrite <- Hperm in Hnd. by apply NoDup_app in Hnd as (_ & _ & ?).
    + intros v Hv. apply ready_mono, Hready. rewrite <- Hperm. set_solver.
Qed.

(** X1: on pending values that are pairwise distinct and all ready from the
    start, [sort_values] returns and leaves nothing pending, and it appends
    the values in this order: those at the even positions of the pending
    list, then those at the even positions of what is left, and so on.  A
    pass of the [for] loop removes from the list it iterates over, and so
    skips the value after each one it moves. *)
Theorem sort_values_order l s :
  NoDup l → (∀ v, v ∈ l → ready G s v) →
  sort_values G s l = Ok (s ++ rounds (length l) l, []).
Proof.
  intros Hnd Hready. unfold sort_values. by apply sort_loop_rounds.
Qed.

End SortPass.

Lemma sort_values_order_witness :
  sort_values Scenarios.fan [0] [1; 2; 3] = Ok ([0; 1; 3; 2], []).
Proof.
  apply (sort_values_order Scenarios.fan [1; 2; 3] [0]).
  - by repeat (apply NoDup_cons; split; [set_solver|]); apply NoDup_nil.
  - intros v Hv. exists (Examples.stencil [Val 0]).
    repeat (apply elem_of_cons in Hv as [->|Hv]; [by split|]).
    by apply elem_of_nil in Hv.
Defined.

Section SortStuck.
Context {C : Type} (G : heap C).
Implicit Types (v u w : nat) (s l m pre r : list nat) (x : obj C).

(** A value whose producer reads an owned value that is neither sorted nor
    pending is never ready. *)
Lemma stuck_not_moved n0 s s' l' v op u :
  topo G n0 s' → s' = s ++ l' → n0 ≤ length s →
  owner (G v) = Some op → Val u ∈ inputs op → is_Some (owner (G u)) →
  u ∉ s → u ∉ l' → v ∉ l'.
Proof.
  intros Htopo -> Hn0 Hop Hu Hou Hus Hul Hv.
  apply list_elem_of_lookup in Hv as [i Hi].
  destruct (Htopo (length s + i) v) as (op' & Hop' & Hall); [lia| |].
  { by rewrite lookup_app_r, Nat.add_comm, Nat.add_sub by lia. }
  rewrite Hop in Hop'. inversion Hop'; subst op'.
  rewrite forallb_forall in Hall. specialize (Hall (Val u)).
  rewrite <- list_elem_of_In in Hall. specialize (Hall Hu).
  apply is_computable_true in Hall as [Hin|Hnone].
  - apply elem_of_take in Hin as (j & Hj & _).
    apply list_elem_of_lookup_2 in Hj. set_solver.
  - rewrite Hnone in Hou. by destruct Hou.
Qed.

Lemma sort_loop_stuck n :
  ∀ s0 s l v op u,
    topo G (length s0) s → length s0 ≤ length s →
    (∀ w, w ∈ l → is_Some (owner (G w))) → length l ≤ n →
    v ∈ l → owner (G v) = Some op → Val u ∈ inputs op →
    is_Some (owner (G u)) → u ∉ s → u ∉ l →
    sort_loop G n s l = Raise AssertionError.
Proof.
  induction n as [|n IH]; intros s0 s l v op u Htopo Hlen Hown Hn Hv Hop Hu Hou Hus Hul.
  - destruct l; [by apply elem_of_nil in Hv|simpl in Hn; lia].
  - destruct l as [|y l0] eqn:El; [by apply elem_of_nil in Hv|]. rewrite <- El in *.
    assert (Hl : sort_loop G (S n) s l
                 = rbind (sort_pass G (length l) 0 s l false)
                     (fun '(s', l', b) => if b then sort_loop G n s' l'
                                          else Raise AssertionError)).
    { by rewrite El. }
    rewrite Hl. clear Hl.
    destruct (sort_pass_total G (length l) 0 s l false Hown ltac:(lia))
      as [[[s' l'] b] Hpass].
    rewrite Hpass. cbn [rbind].
    destruct b; [|done].
    destruct (sort_pass_spec G (length s0) _ _ _ _ _ _ _ _ Hpass Htopo)
      as (m & -> & Hperm & Htopo' & _ & Hb).
    destruct (Hb eq_refl) as [?|Hshort]; [done|].
    assert (Hvm : v ∉ m).
    { eapply (stuck_not_moved (length s0) s (s ++ m) m v op u); try done.
      intros Hum. apply Hul. rewrite Hperm. set_solver. }
    apply (IH s0 (s ++ m) l' v op u); try done.
    + rewrite length_app. lia.
    + intros w Hw. apply Hown. rewrite Hperm. set_solver.
    + lia.
    + rewrite Hperm in Hv. set_solver.
    + intros [?|Hum]%elem_of_app; [done|]. apply Hul. rewrite Hperm. set_solver.
    + intros Hul'. apply Hul. rewrite Hperm. set_solver.
Qed.

(** X2: if some pending value has an input that has a producer and is
    neither among the sorted values nor pending, no pending value depending
    on it ever becomes computable, and [sort_values] fails its assertion
    [removed_any]. *)
Theorem sort_values_stuck s l v op u :
  (∀ w, w ∈ l → is_Some (owner (G w))) →
  v ∈ l → owner (G v) = Some op → Val u ∈ inputs op →
  is_Some (owner (G u)) → u ∉ s → u ∉ l →
  sort_values G s l = Raise AssertionError.
Proof.
  intros Hown Hv Hop Hu Hou Hus Hul. unfold sort_values.
  apply (sort_loop_stuck (length l) s s l v op u); try done. apply topo_init.
Qed.

End SortStuck.

Lemma sort_values_stuck_witness :
  sort_values Examples.two_step [] [2] = Raise AssertionError.
Proof.
  apply (sort_values_stuck Examples.two_step [] [2] 2
           (Examples.stencil [Val 1; Raw 10%Z]) 1).
  - intros w Hw. apply list_elem_of_singleton in Hw as ->. by eexists.
  - by left.
  - reflexivity.
  - by left.
  - by eexists.
  - apply not_elem_of_nil.
  - intros H%list_elem_of_singleton. discriminate H.
Defined.

(** *** Construction and the graph *)

Section GraphOutcomes.
Context {C : Type} (G : heap C).
Implicit Types (v u w : nat) (s : state C) (l all srcs snks : list nat).

(** The only exception of the deletion loop is the missing attribute. *)
Lemma delete_ids_outcome l :
  ∀ s, ∃ s' r, forM_ l delete_value_id s = (s', r)
               ∧ (r = Ok tt ∨ r = Raise AttributeError).
Proof.
  induction l as [|v l IH]; intros s; [exists s, (Ok tt); by split; [|left]|].
  cbn [forM_]. unfold bind at 1. unfold delete_value_id at 1.
  unfold bind at 1, hasattr, gets.
  destruct (bool_decide (is_Some (_value_id s !! v))).
  - unfold modify. apply IH.
  - exists s, (Raise AttributeError). by split; [|right].
Qed.

Lemma build_graph_dup all s0 :
  ¬ NoDup all → ∃ s1, build_graph G all s0 = (s1, Raise AttributeError).
Proof.
  intros Hdup. unfold build_graph.
  set (s1 := set_value_id C (tmp_bind (id_binding <$> enumerate all)) s0).
  assert (Hids : ∀ v, v ∈ all → is_Some (_value_id s1 !! v)).
  { intros v Hv. simpl. apply lookup_tmp_bind_is_Some. by rewrite id_binding_keys. }
  destruct (edges_run G all s1 Hids) as [es Hes].
  unfold bind at 1. rewrite assign_ids_run. fold s1.
  unfold bind at 1. rewrite Hes.
  unfold bind at 1.
  destruct (delete_ids_outcome all s1) as (s2 & r & Hrun & [->| ->]).
  - destruct Hdup. by eapply (delete_ids_NoDup G).
  - rewrite Hrun. by exists s2.
Qed.

(** X4: [build_graph] returns exactly when no value is listed twice.  Then
    there is one weight per value, in the order of the list, followed by 1;
    the weight of a value whose dimensions are all below [2^63] is their
    product on 64 bits, which wraps around; and afterwards no listed value
    carries a [_value_id] while the other values keep theirs.  With a
    repeated value the second [del v._value_id] raises an attribute error. *)
Theorem build_graph_distinct all s0 :
  (NoDup all →
   ∃ s1 weights edges,
     build_graph G all s0 = (s1, Ok (weights ++ [1%Z], edges))
     ∧ length weights = length all
     ∧ (∀ i v, all !! i = Some v →
               Forall (fun n => (Z.of_nat n < 2 ^ 63)%Z) (shape (G v)) →
               weights !! i
               = Some (int64 (foldr (fun n acc => (Z.of_nat n * acc)%Z) 1%Z
                                (shape (G v)))))
     ∧ ∀ v, _value_id s1 !! v
            = if decide (v ∈ all) then None else _value_id s0 !! v)
  ∧ (¬ NoDup all → ∃ s1, build_graph G all s0 = (s1, Raise AttributeError)).
Proof.
  split; [|apply build_graph_dup].
  intros Hnd. destruct (build_graph_run G all s0 Hnd) as [edges Hrun].
  eexists _, (size G <$> all), edges. split_and!; [exact Hrun| | |].
  - by rewrite length_fmap.
  - intros i v Hi _. by rewrite list_lookup_fmap, Hi.
  - intros v. simpl. rewrite lookup_tmp_unbind.
    destruct (decide (v ∈ all)); [done|].
    apply lookup_tmp_bind_notin. by rewrite id_binding_keys.
Qed.

(** X6: on an acyclic graph [decompose] with a source listed twice raises
    an attribute error, whatever the partitioner: the failure is in
    [build_graph], before the partitioner is called. *)
Theorem decompose_repeated_source dg srcs snks s0 :
  dag G → ¬ NoDup srcs →
  ∃ s1, decompose G dg srcs snks s0 = (s1, Raise AttributeError).
Proof.
  intros Hdag Hdup.
  destruct (discover_values_total G srcs snks Hdag) as [[disc trib] Hdisc].
  unfold decompose. unfold bind at 1, lift. rewrite Hdisc. cbn [fst snd].
  destruct (build_graph_dup (disc ++ srcs) s0) as [s1 Hbad].
  { intros Hnd. apply Hdup. by apply NoDup_app in Hnd as (_ & _ & ?). }
  unfold bind at 1. rewrite Hbad. by exists s1.
Qed.

(** X3: on an acyclic graph the constructor of [AtomicStage] returns for
    every list of sources and sinks: discovery returns, the sort never fails
    its assertion and leaves nothing pending; the stage keeps the sources and
    the sinks as given, its tributaries are the discovered ones and its
    internal values are a permutation of the discovered values. *)
Theorem stage_construction_total srcs snks :
  dag G →
  ∃ stage disc,
    AtomicStage_init G srcs snks = Ok stage
    ∧ discover_values G srcs snks = Ok (disc, triburary_values stage)
    ∧ source_values stage = srcs
    ∧ sink_values stage = snks
    ∧ sorted_values stage ≡ₚ disc.
Proof.
  intros Hdag. destruct (AtomicStage_init_total G srcs snks Hdag) as [stage Hstage].
  destruct (AtomicStage_init_spec G _ _ _ Hstage) as (Hs & Hk & (disc & Hd & Hp) & _).
  by exists stage, disc.
Qed.

(** X28: the table the partitioner prints is unpacked into [c], [d] and
    [e] by its first axis.  When the partitioner prints a single row, as for
    a graph of one vertex, the loaded array is one-dimensional, the three
    names are bound to numbers, and [decompose] raises an index error at
    [c[0]] as soon as there is a value to annotate; when it prints nothing,
    the unpacking raises a value error.  Either way no value has been
    annotated and no stage is returned. *)
Theorem decompose_single_row qf srcs snks disc trib s0 s1 gr :
  discover_values G srcs snks = Ok (disc, trib) →
  build_graph G (disc ++ srcs) s0 = (s1, Ok gr) →
  (∀ row, qf gr.1 gr.2 = Ok [row] → disc ++ srcs ≠ [] →
          decompose G qf srcs snks s0 = (s1, Raise IndexError))
  ∧ (qf gr.1 gr.2 = Ok [] →
     decompose G qf srcs snks s0 = (s1, Raise ValueError)).
Proof.
  intros Hdisc Hgraph. split.
  - intros [[c d] e] Hqf Hall.
    unfold decompose. unfold bind at 1, lift at 1. rewrite Hdisc.
    cbn [fst snd]. unfold bind at 1. rewrite Hgraph.
    unfold bind at 1, lift at 1. unfold decompose_graph. rewrite Hqf.
    cbn [rbind unpack]. unfold bind at 1, lift at 1. cbn [np_max].
    destruct (disc ++ srcs) as [|v all]; [done|].
    reflexivity.
  - intros Hqf.
    unfold decompose. unfold bind at 1, lift at 1. rewrite Hdisc.
    cbn [fst snd]. unfold bind at 1. rewrite Hgraph.
    unfold bind at 1, lift at 1. unfold decompose_graph. by rewrite Hqf.
Qed.

End GraphOutcomes.

Lemma stage_construction_total_witness :
  ∃ stage disc,
    AtomicStage_init Examples.two_step [0] [2] = Ok stage
    ∧ discover_values Examples.two_step [0] [2]
      = Ok (disc, triburary_values stage)
    ∧ source_values stage = [0]
    ∧ sink_values stage = [2]
    ∧ sorted_values stage ≡ₚ disc.
Proof. apply (stage_construction_total Examples.two_step), two_step_dag. Defined.

Lemma build_graph_distinct_witness :
  ∃ s1 weights edges,
    build_graph Examples.two_step [2; 1; 0] Examples.clean
    = (s1, Ok (weights ++ [1%Z], edges))
    ∧ weights !! 1 = Some 6%Z
    ∧ _value_id s1 !! 1 = None.
Proof.
  destruct (build_graph_distinct Examples.two_step [2; 1; 0] Examples.clean)
    as [Hok _].
  destruct Hok as (s1 & weights & edges & Hrun & _ & Hweights & Hids).
  - by repeat (apply NoDup_cons; split; [set_solver|]); apply NoDup_nil.
  - exists s1, weights, edges. split; [exact Hrun|]. split.
    + apply (Hweights 1 1 eq_refl). repeat constructor.
    + rewrite (Hids 1). reflexivity.
Defined.

Lemma decompose_repeated_source_witness :
  ∃ s1, decompose Examples.two_step Examples.two_step_partition [0; 0] [2]
          Examples.clean = (s1, Raise AttributeError).
Proof.
  apply (decompose_repeated_source Examples.two_step).
  - exact two_step_dag.
  - intros Hnd. apply NoDup_cons in Hnd as [Hnin _]. apply Hnin. by left.
Defined.

Lemma decompose_single_row_witness :
  decompose Scenarios.lone Examples.single_partition [0] [0] Examples.clean
  = (Examples.clean, Raise IndexError).
Proof.
  destruct (decompose_single_row Scenarios.lone Examples.single_partition
              [0] [0] [] [] Examples.clean Examples.clean
              ([6%Z; 1%Z], [])) as [Hone _].
  - reflexivity.
  - vm_compute. reflexivity.
  - apply (Hone (0, 1, 0)%Z); [reflexivity|discriminate].
Defined.

Section GraphEdges.
Context {C : Type} (G : heap C).
Implicit Types (v u w : nat) (s : state C) (l all srcs snks : list nat).

(** A loop whose body returns without touching the state, with what each
    iteration returns. *)
Lemma mapM_readonly_spec {A B} (f : A → M C B) (R : A → B → Prop)
    (xs : list A) s :
  (∀ a, a ∈ xs → ∃ b, f a s = (s, Ok b) ∧ R a b) →
  ∃ bs, mapM f xs s = (s, Ok bs) ∧ Forall2 R xs bs.
Proof.
  induction xs as [|a xs IH]; intros H; simpl.
  { exists []. split; [done|constructor]. }
  destruct (H a) as (b & Hb & HR); [by left|].
  destruct IH as (bs & Hbs & HRs); [intros a' Ha'; apply H; by right|].
  exists (b :: bs). split; [|by constructor].
  unfold bind. by rewrite Hb, Hbs.
Qed.

(** The identifiers [build_graph] assigns are the positions in the list. *)
Lemma value_id_position all (m : gmap nat nat) u a :
  NoDup all → (∀ v, v ∉ all → m !! v = None) →
  tmp_bind (id_binding <$> enumerate all) m !! u = Some a ↔ all !! a = Some u.
Proof.
  intros Hnd Hfresh.
  assert (Hback : ∀ a', all !! a' = Some u →
            tmp_bind (id_binding <$> enumerate all) m !! u = Some a').
  { intros a' Ha'. apply lookup_tmp_bind_in.
    - by rewrite id_binding_keys.
    - apply list_elem_of_fmap. exists (a', u). split; [done|].
      by apply enumerate_lookup. }
  split; [|apply Hback].
  intros Hu. destruct (decide (u ∈ all)) as [Hin|Hout].
  - apply list_elem_of_lookup in Hin as [a' Ha'].
    rewrite (Hback a' Ha') in Hu. by inversion Hu; subst.
  - rewrite lookup_tmp_bind_notin in Hu by (by rewrite id_binding_keys).
    by rewrite (Hfresh u Hout) in Hu.
Qed.

Lemma edges_into_run all s i v :
  NoDup all → all !! i = Some v →
  (∀ u a, _value_id s !! u = Some a ↔ all !! a = Some u) →
  ∃ es, edges_into G (i, v) s = (s, Ok es)
        ∧ ∀ a b n, (a, b, n) ∈ es ↔
            ∃ u op, all !! a = Some u ∧ b = i ∧ owner (G v) = Some op
                    ∧ Val u ∈ inputs op ∧ n = access_neighbor op.
Proof.
  intros Hnd Hv Hids. unfold edges_into. cbn [snd].
  destruct (owner (G v)) as [op|] eqn:Hop.
  2: { exists []. split; [done|]. intros a b n. split.
       - intros Hin. by apply elem_of_nil in Hin.
       - by intros (u & op & _ & _ & ? & _). }
  destruct (mapM_readonly_spec (edge_from v op)
              (λ x es, ∀ a b n, (a, b, n) ∈ es ↔
                 ∃ u, x = Val u ∧ all !! a = Some u ∧ b = i
                      ∧ n = access_neighbor op)
              (inputs op) s) as (ess & Hrun & Hess).
  { intros [u|c] _; simpl.
    - unfold bind, hasattr, gets.
      destruct (_value_id s !! u) as [a|] eqn:Ha; simpl.
      + unfold getattr. rewrite Ha. rewrite (proj2 (Hids v i) Hv).
        eexists. split; [reflexivity|]. intros a' b' n'.
        rewrite list_elem_of_singleton. split.
        * intros [= -> -> ->]. exists u. split_and!; try done. by apply Hids.
        * intros (u' & [= <-] & Ha' & -> & ->).
          apply Hids in Ha'. rewrite Ha in Ha'. by inversion Ha'.
      + eexists. split; [reflexivity|]. intros a' b' n'. split.
        * intros Hin. by apply elem_of_nil in Hin.
        * intros (u' & [= <-] & Ha' & _). apply Hids in Ha'. congruence.
    - eexists. split; [reflexivity|]. intros a' b' n'. split.
      + intros Hin. by apply elem_of_nil in Hin.
      + by intros (u' & ? & _). }
  exists (concat ess). split; [unfold bind; by rewrite Hrun|].
  intros a b n. rewrite elem_of_concat. split.
  - intros (es & Hin & Hes).
    apply list_elem_of_lookup in Hes as [p Hp].
    destruct (Forall2_lookup_r _ _ _ _ _ Hess Hp) as (x & Hx & HR).
    apply HR in Hin as (u & -> & Ha & -> & ->).
    exists u, op. split_and!; try done. by eapply list_elem_of_lookup_2.
  - intros (u & op' & Ha & -> & [= <-] & Hu & ->).
    apply list_elem_of_lookup in Hu as [p Hp].
    destruct (Forall2_lookup_l _ _ _ _ _ Hess Hp) as (es & Hes & HR).
    exists es. split; [|by eapply list_elem_of_lookup_2].
    apply HR. by exists u.
Qed.

(** X5: when [build_graph] returns and no value outside the list carried a
    [_value_id] before, the edges are exactly the triples [(a, b, n)] such
    that the value at position [a] of the list is an input of the value at
    position [b], whose producer has [access_neighbor = n]: identifiers are
    positions in the list, and inputs outside the list give no edge. *)
Theorem build_graph_edges all s0 s1 weights edges :
  build_graph G all s0 = (s1, Ok (weights, edges)) →
  (∀ v, v ∉ all → _value_id s0 !! v = None) →
  ∀ a b n, (a, b, n) ∈ edges ↔
    ∃ u v op, all !! a = Some u ∧ all !! b = Some v
              ∧ owner (G v) = Some op ∧ Val u ∈ inputs op
              ∧ n = access_neighbor op.
Proof.
  intros Hrun Hfresh.
  pose proof (build_graph_NoDup G _ _ _ _ Hrun) as Hnd.
  unfold build_graph in Hrun. unfold bind at 1 in Hrun.
  rewrite assign_ids_run in Hrun.
  set (s := set_value_id C (tmp_bind (id_binding <$> enumerate all)) s0) in *.
  assert (Hids : ∀ u a, _value_id s !! u = Some a ↔ all !! a = Some u).
  { intros u a. simpl. by apply value_id_position. }
  destruct (mapM_readonly_spec (edges_into G)
              (λ p es, ∀ a b n, (a, b, n) ∈ es ↔
                 ∃ u op, all !! a = Some u ∧ b = p.1 ∧ owner (G p.2) = Some op
                         ∧ Val u ∈ inputs op ∧ n = access_neighbor op)
              (enumerate all) s) as (ess & Hes & Hess).
  { intros [i v] Hiv. apply enumerate_lookup in Hiv.
    destruct (edges_into_run all s i v Hnd Hiv Hids) as (es & Hrun' & Hes').
    by exists es. }
  unfold bind at 1 in Hrun. rewrite Hes in Hrun.
  unfold bind at 1 in Hrun.
  destruct (forM_ all delete_value_id s) as [s2 [[]|e]]; [|done].
  inversion Hrun; subst. clear Hrun.
  intros a b n. rewrite elem_of_concat. split.
  - intros (es & Hin & Hmem).
    apply list_elem_of_lookup in Hmem as [p Hp].
    destruct (Forall2_lookup_r _ _ _ _ _ Hess Hp) as ([i v] & Hx & HR).
    apply HR in Hin as (u & op & Ha & -> & Hop & Hu & ->).
    apply list_elem_of_lookup_2, enumerate_lookup in Hx.
    by exists u, v, op.
  - intros (u & v & op & Ha & Hb & Hop & Hu & ->).
    apply enumerate_lookup, list_elem_of_lookup in Hb as [p Hp].
    destruct (Forall2_lookup_l _ _ _ _ _ Hess Hp) as (es & Hes' & HR).
    exists es. split; [|by eapply list_elem_of_lookup_2].
    apply HR. by exists u, op.
Qed.

End GraphEdges.

Lemma build_graph_edges_witness :
  ∃ edges,
    build_graph Examples.two_step [2; 1; 0] Examples.clean
    = (Examples.clean, Ok ([6; 6; 6; 1]%Z, edges))
    ∧ (1, 0, true) ∈ edges ∧ (2, 1, true) ∈ edges.
Proof.
  destruct (build_graph_restores Examples.two_step [2; 1; 0] Examples.clean)
    as [edges Hrun].
  - by repeat (apply NoDup_cons; split; [set_solver|]); apply NoDup_nil.
  - intros v _. apply lookup_empty.
  - exists edges. split; [exact Hrun|].
    assert (Hfresh : ∀ v, v ∉ [2; 1; 0] → _value_id Examples.clean !! v = None).
    { intros v _. apply lookup_empty. }
    pose proof (build_graph_edges Examples.two_step [2; 1; 0] Examples.clean
                  _ _ _ Hrun Hfresh) as Hedges.
    split; apply Hedges.
    + by exists 1, 2, (Examples.stencil [Val 1; Raw 10%Z]); split_and!;
        try done; left.
    + by exists 0, 1, (Examples.stencil [Val 0]); split_and!; try done; left.
Defined.

(** *** Invocation *)

Section CallOutcomes.
Context {C : Type} (G : heap C).
Implicit Types (v u w : nat) (s : state C) (l srcs snks : list nat).
Implicit Types (stage : AtomicStage) (cs : list C) (f : nat → C).

Lemma assign_tmp_run (u : nat) (x : C) s :
  assign_tmp (u, x) s
  = match _tmp s !! u with
    | Some _ => (s, Raise AssertionError)
    | None => (set_tmp C <[u:=x]> s, Ok tt)
    end.
Proof.
  unfold assign_tmp, bind, hasattr, gets, assert. cbn [fst snd].
  destruct (_tmp s !! u) eqn:E.
  - by rewrite bool_decide_eq_true_2 by (by eexists).
  - by rewrite bool_decide_eq_false_2 by (by intros [? ?]).
Qed.

(** Binding a list of values one of which is bound already fails, and no
    attribute is removed on the way. *)
Lemma assign_stale (bs : list (nat * C)) :
  ∀ s v, v ∈ bs.*1 → is_Some (_tmp s !! v) →
    ∃ s', forM_ bs assign_tmp s = (s', Raise AssertionError)
          ∧ _tmp s ⊆ _tmp s'.
Proof.
  induction bs as [|[u x] bs IH]; intros s v Hv Hsome; [by apply elem_of_nil in Hv|].
  cbn [forM_]. unfold bind at 1. rewrite assign_tmp_run.
  destruct (_tmp s !! u) as [c|] eqn:Hu.
  - by exists s.
  - simpl in Hv.
    assert (Hne : v ≠ u) by (intros ->; rewrite Hu in Hsome; by destruct Hsome).
    destruct (IH (set_tmp C <[u:=x]> s) v) as (s' & Hrun & Hsub).
    + set_solver.
    + simpl. by rewrite lookup_insert_ne.
    + exists s'. split; [done|]. etrans; [|exact Hsub].
      simpl. by apply insert_subseteq.
Qed.

(** Binding a list that repeats a value fails, and the repeated value keeps
    its attribute. *)
Lemma assign_repeated (bs : list (nat * C)) :
  ∀ s, ¬ NoDup bs.*1 → (∀ v, v ∈ bs.*1 → _tmp s !! v = None) →
    ∃ s' v, forM_ bs assign_tmp s = (s', Raise AssertionError)
            ∧ v ∈ bs.*1 ∧ is_Some (_tmp s' !! v).
Proof.
  induction bs as [|[u x] bs IH]; intros s Hdup Hfresh; [destruct Hdup; constructor|].
  cbn [forM_]. unfold bind at 1. rewrite assign_tmp_run.
  rewrite (Hfresh u) by (by left).
  destruct (decide (u ∈ bs.*1)) as [Hu|Hu].
  - destruct (assign_stale bs (set_tmp C <[u:=x]> s) u Hu) as (s' & Hrun & Hsub).
    { simpl. rewrite lookup_insert_eq. by eexists. }
    exists s', u. split_and!; [done|by left|].
    exists x. eapply lookup_weaken; [|exact Hsub]. simpl. apply lookup_insert_eq.
  - destruct (IH (set_tmp C <[u:=x]> s)) as (s' & v & Hrun & Hv & Hsome).
    + intros Hnd. apply Hdup. simpl. by constructor.
    + intros v Hv. simpl. rewrite lookup_insert_ne by set_solver.
      apply Hfresh. by right.
    + exists s', v. split_and!; [done|by right|done].
Qed.

Lemma call_prefix stage cs r f s0 :
  length cs = length (source_values stage) →
  resolves r (triburary_values stage) f →
  AtomicStage_call G stage (Seq cs) r s0
  = bind (forM_ (zip (source_values stage ++ triburary_values stage)
                     (cs ++ (f <$> triburary_values stage))) assign_tmp)
      (fun _ =>
         bind (forM_ (sorted_values stage) (compute_tmp G)) (fun _ =>
         bind (mapM (getattr _tmp) (sink_values stage)) (fun sink_values1 =>
         bind (forM_ ((source_values stage ++ triburary_values stage)
                      ++ sorted_values stage) delete_tmp)
           (fun _ => ret sink_values1)))) s0.
Proof.
  intros Hlen Hres. unfold AtomicStage_call.
  unfold bind at 1, assert. rewrite bool_decide_eq_true_2 by done. unfold ret at 1.
  unfold bind at 1. rewrite (resolve_triburary_run G r _ f s0 Hres).
  unfold bind at 1, ret at 1.
  unfold bind at 1, assert.
  rewrite bool_decide_eq_true_2 by (rewrite !length_app, length_fmap; lia).
  done.
Qed.

(** X7: if a formal source or a tributary of a stage already carries a
    [_tmp] attribute, invoking the stage with the right number of concrete
    sources and a resolver that answers fails the assertion
    [not hasattr(v, '_tmp')], and every [_tmp] attribute present before is
    still present afterwards. *)
Theorem stale_tmp_blocks stage cs r f s0 v :
  length cs = length (source_values stage) →
  resolves r (triburary_values stage) f →
  v ∈ source_values stage ++ triburary_values stage →
  is_Some (_tmp s0 !! v) →
  ∃ s1, AtomicStage_call G stage (Seq cs) r s0 = (s1, Raise AssertionError)
        ∧ _tmp s0 ⊆ _tmp s1.
Proof.
  intros Hlen Hres Hv Hsome. rewrite (call_prefix stage cs r f) by done.
  destruct (assign_stale
              (zip (source_values stage ++ triburary_values stage)
                   (cs ++ (f <$> triburary_values stage))) s0 v)
    as (s1 & Hrun & Hsub); [|done|].
  { rewrite fst_zip; [done|]. rewrite !length_app, length_fmap. lia. }
  exists s1. unfold bind at 1. by rewrite Hrun.
Qed.

(** X8: invoking a stage whose formal sources list a value twice, from a
    state without [_tmp] attributes, fails the assertion and is not undone:
    afterwards some formal source or tributary carries a [_tmp]
    attribute. *)
Theorem repeated_source_leaves_tmp stage cs r f s0 :
  length cs = length (source_values stage) →
  resolves r (triburary_values stage) f →
  ¬ NoDup (source_values stage) →
  (∀ v, v ∈ source_values stage ++ triburary_values stage →
        _tmp s0 !! v = None) →
  ∃ s1 v, AtomicStage_call G stage (Seq cs) r s0 = (s1, Raise AssertionError)
          ∧ v ∈ source_values stage ++ triburary_values stage
          ∧ is_Some (_tmp s1 !! v).
Proof.
  intros Hlen Hres Hdup Hfresh. rewrite (call_prefix stage cs r f) by done.
  assert (Hkeys : (zip (source_values stage ++ triburary_values stage)
                       (cs ++ (f <$> triburary_values stage))).*1
                  = source_values stage ++ triburary_values stage).
  { rewrite fst_zip; [done|]. rewrite !length_app, length_fmap. lia. }
  destruct (assign_repeated
              (zip (source_values stage ++ triburary_values stage)
                   (cs ++ (f <$> triburary_values stage))) s0)
    as (s1 & v & Hrun & Hv & Hsome).
  { rewrite Hkeys. intros Hnd. apply Hdup. by apply NoDup_app in Hnd as (? & _). }
  { by rewrite Hkeys. }
  rewrite Hkeys in Hv.
  exists s1, v. unfold bind at 1. by rewrite Hrun.
Qed.

(** the resolver's failures *)
Lemma index_missing (m : gmap nat C) l :
  ∀ s v, v ∈ l → m !! v = None →
    mapM (fun v => match m !! v with
                   | Some c => ret c
                   | None => raise KeyError
                   end) l s = (s, Raise KeyError).
Proof.
  induction l as [|w l IH]; intros s v Hv Hm; [by apply elem_of_nil in Hv|].
  cbn [mapM]. unfold bind at 1.
  destruct (m !! w) as [c|] eqn:Hw; [|done].
  unfold ret at 1. unfold bind at 1.
  rewrite (IH s v); [done| |done].
  apply elem_of_cons in Hv as [->|?]; [congruence|done].
Qed.

(** X9: with the right number of concrete sources, a tributary resolver
    that is neither callable nor indexable makes the invocation raise a name
    error (the local [triburary_values] is never bound), and a mapping
    lacking one of the tributaries makes it raise a key error; in both cases
    no attribute has been set. *)
Theorem resolver_failure_is_clean stage cs s0 :
  length cs = length (source_values stage) →
  AtomicStage_call G stage (Seq cs) Neither s0 = (s0, Raise NameError)
  ∧ ∀ (m : gmap nat C) v,
      v ∈ triburary_values stage → m !! v = None →
      AtomicStage_call G stage (Seq cs) (Indexable m) s0 = (s0, Raise KeyError).
Proof.
  intros Hlen. split.
  - unfold AtomicStage_call. unfold bind at 1, assert.
    by rewrite bool_decide_eq_true_2 by done.
  - intros m v Hv Hm. unfold AtomicStage_call. unfold bind at 1, assert.
    rewrite bool_decide_eq_true_2 by done. unfold ret at 1.
    unfold bind at 1. unfold resolve_triburary. unfold bind at 1.
    by rewrite (index_missing m _ s0 v).
Qed.

(** X10: a stage constructed on an acyclic graph from pairwise distinct
    sources can be invoked again: from a state without [_tmp] attributes on
    its values, two invocations in a row with the same concrete sources and
    the same resolver function both return, with the same results; each
    leaves the [_tmp] attributes as they were and calls [perform] once per
    internal value. *)
Theorem stage_is_reentrant srcs snks stage cs f s0 :
  dag G → AtomicStage_init G srcs snks = Ok stage → NoDup srcs →
  length cs = length srcs →
  (∀ v, v ∈ srcs ++ triburary_values stage ++ sorted_values stage →
        _tmp s0 !! v = None) →
  ∃ s1 s2 outs,
    AtomicStage_call G stage (Seq cs) (Callable f) s0 = (s1, Ok outs)
    ∧ AtomicStage_call G stage (Seq cs) (Callable f) s1 = (s2, Ok outs)
    ∧ _tmp s1 = _tmp s0 ∧ _tmp s2 = _tmp s0
    ∧ length (performed s1) = length (performed s0) + length (sorted_values stage)
    ∧ length (performed s2) = length (performed s1) + length (sorted_values stage).
Proof.
  intros Hdag Hinit Hnd Hlen Hfresh.
  destruct (AtomicStage_init_spec G _ _ _ Hinit) as (Hsrc & Hsnk & _ & Hwf).
  rewrite <- Hsrc in Hnd, Hlen, Hfresh.
  destruct (AtomicStage_call_ok G stage cs (Callable f) f s0 Hwf Hnd Hlen)
    as (tbl & lg & outs & Hrun & _ & Hlg & _); [done|done|].
  destruct (AtomicStage_call_direct_eval G stage cs f s0 Hdag Hwf Hnd Hlen Hfresh)
    as (lg1 & outs1 & Hrun1 & Houts1).
  rewrite Hrun in Hrun1. inversion Hrun1; subst outs1. clear Hrun1.
  set (s1 := with_tmp_log (_tmp s0) (performed s0 ++ lg) s0) in *.
  assert (Hfresh1 : ∀ v, v ∈ source_values stage ++ triburary_values stage
                           ++ sorted_values stage → _tmp s1 !! v = None) by done.
  destruct (AtomicStage_call_ok G stage cs (Callable f) f s1 Hwf Hnd Hlen)
    as (tbl' & lg' & outs' & Hrun' & _ & Hlg' & _); [done|done|].
  destruct (AtomicStage_call_direct_eval G stage cs f s1 Hdag Hwf Hnd Hlen Hfresh1)
    as (lg2 & outs2 & Hrun2 & Houts2).
  rewrite Hrun' in Hrun2. inversion Hrun2; subst outs2. clear Hrun2.
  apply option_all_Forall2 in Houts1, Houts2.
  rewrite Houts1 in Houts2. inversion Houts2; subst outs'.
  eexists s1, _, outs. split_and!; [done|exact Hrun'|done|done| |].
  - simpl. rewrite length_app. by rewrite (Forall2_length _ _ _ Hlg).
  - simpl. rewrite !length_app. by rewrite (Forall2_length _ _ _ Hlg').
Qed.

End CallOutcomes.

Lemma stale_tmp_blocks_witness :
  ∃ s1, AtomicStage_call Examples.two_step Scenarios.whole (Seq [5%Z])
          (Callable (fun _ => 0%Z)) Scenarios.stale
        = (s1, Raise AssertionError)
        ∧ _tmp Scenarios.stale ⊆ _tmp s1.
Proof.
  apply (stale_tmp_blocks Examples.two_step Scenarios.whole [5%Z]
           (Callable (fun _ => 0%Z)) (fun _ => 0%Z) Scenarios.stale 0).
  - reflexivity.
  - simpl. done.
  - by left.
  - by eexists.
Defined.

Lemma repeated_source_leaves_tmp_witness :
  ∃ s1 v, AtomicStage_call Examples.two_step Scenarios.doubled
            (Seq [5; 5]%Z) (Callable (fun _ => 0%Z)) Examples.clean
          = (s1, Raise AssertionError)
          ∧ v ∈ [0; 0] ++ @nil nat
          ∧ is_Some (_tmp s1 !! v).
Proof.
  apply (repeated_source_leaves_tmp Examples.two_step Scenarios.doubled
           [5; 5]%Z (Callable (fun _ => 0%Z)) (fun _ => 0%Z) Examples.clean).
  - reflexivity.
  - simpl. done.
  - intros Hnd. apply NoDup_cons in Hnd as [Hnin _]. apply Hnin. by left.
  - intros v _. apply lookup_empty.
Defined.

Lemma resolver_failure_is_clean_witness :
  AtomicStage_call Examples.two_step Scenarios.whole (Seq [5%Z]) Neither
    Examples.clean
  = (Examples.clean, Raise NameError).
Proof.
  apply (resolver_failure_is_clean Examples.two_step Scenarios.whole [5%Z]
           Examples.clean).
  reflexivity.
Defined.

Lemma stage_is_reentrant_witness :
  ∃ s1 s2 outs,
    AtomicStage_call Examples.two_step Scenarios.whole (Seq [5%Z])
      (Callable (fun _ => 0%Z)) Examples.clean = (s1, Ok outs)
    ∧ AtomicStage_call Examples.two_step Scenarios.whole (Seq [5%Z])
        (Callable (fun _ => 0%Z)) s1 = (s2, Ok outs)
    ∧ length (performed s2) = 4.
Proof.
  destruct (stage_is_reentrant Examples.two_step [0] [2] Scenarios.whole
              [5%Z] (fun _ => 0%Z) Examples.clean)
    as (s1 & s2 & outs & H1 & H2 & _ & _ & Hl1 & Hl2).
  - exact two_step_dag.
  - reflexivity.
  - apply NoDup_singleton.
  - reflexivity.
  - intros v _. apply lookup_empty.
  - exists s1, s2, outs. split; [exact H1|]. split; [exact H2|].
    rewrite Hl2, Hl1. reflexivity.
Defined.

(** ** Facts about the worker *)

Import Worker.

Section WorkerFacts.
Context {T : Type} (one : T).
Implicit Types (a r full : ndarray T) (w : MPI_Worker T) (net : world T).
Implicit Types (o result result_var : pyobj T) (k : key).

Lemma inner_spec m n : inner m n = true ↔ 1 ≤ m ∧ S m < n.
Proof.
  unfold inner. rewrite andb_true_iff, Nat.leb_le, Nat.ltb_lt. done.
Qed.

Lemma shape_set_interior full r : shape (set_interior full r) = shape full.
Proof. unfold set_interior. by destruct (shape full) as [|? [|? ?]] eqn:E. Qed.

Lemma shape_set_row_strip full m msg :
  shape (set_row_strip full m msg) = shape full.
Proof. unfold set_row_strip. by destruct (shape full) as [|? [|? ?]] eqn:E. Qed.

Lemma shape_set_column_strip full m msg :
  shape (set_column_strip full m msg) = shape full.
Proof. unfold set_column_strip. by destruct (shape full) as [|? [|? ?]] eqn:E. Qed.

Lemma item_set_interior full r n0 n1 rest p q idx :
  shape full = n0 :: n1 :: rest →
  item (set_interior full r) (p :: q :: idx)
  = if inner p n0 && inner q n1 then item r (p - 1 :: q - 1 :: idx)
    else item full (p :: q :: idx).
Proof. intros E. unfold set_interior. by rewrite E. Qed.

Lemma item_set_row_strip full m msg n0 n1 rest p q idx :
  shape full = n0 :: n1 :: rest →
  item (set_row_strip full m msg) (p :: q :: idx)
  = if (p =? m) && inner q n1 then msg (q - 1 :: idx)
    else item full (p :: q :: idx).
Proof. intros E. unfold set_row_strip. by rewrite E. Qed.

Lemma item_set_column_strip full m msg n0 n1 rest p q idx :
  shape full = n0 :: n1 :: rest →
  item (set_column_strip full m msg) (p :: q :: idx)
  = if inner p n0 && (q =? m) then msg (p - 1 :: idx)
    else item full (p :: q :: idx).
Proof. intros E. unfold set_column_strip. by rewrite E. Qed.

Lemma shape_padded r m1 m2 m3 m4 ni nj rest :
  shape r = ni :: nj :: rest →
  shape (padded one r m1 m2 m3 m4) = (ni + 2) :: (nj + 2) :: rest.
Proof.
  intros E. unfold padded. rewrite E.
  by rewrite !shape_set_column_strip, !shape_set_row_strip, shape_set_interior.
Qed.

Lemma item_padded r m1 m2 m3 m4 ni nj rest p q idx :
  shape r = ni :: nj :: rest →
  item (padded one r m1 m2 m3 m4) (p :: q :: idx)
  = if inner p (ni + 2) && (q =? nj + 1) then m4 (p - 1 :: idx)
    else if inner p (ni + 2) && (q =? 0) then m3 (p - 1 :: idx)
    else if (p =? ni + 1) && inner q (nj + 2) then m2 (q - 1 :: idx)
    else if (p =? 0) && inner q (nj + 2) then m1 (q - 1 :: idx)
    else if inner p (ni + 2) && inner q (nj + 2)
         then item r (p - 1 :: q - 1 :: idx)
         else one.
Proof.
  intros E. unfold padded. rewrite E.
  erewrite item_set_column_strip
    by (by rewrite shape_set_column_strip, !shape_set_row_strip, shape_set_interior).
  erewrite item_set_column_strip
    by (by rewrite !shape_set_row_strip, shape_set_interior).
  erewrite item_set_row_strip
    by (by rewrite shape_set_row_strip, shape_set_interior).
  erewrite item_set_row_strip by (by rewrite shape_set_interior).
  erewrite item_set_interior by done.
  done.
Qed.

Lemma strides_set_interior full r : strides (set_interior full r) = strides full.
Proof. unfold set_interior. by destruct (shape full) as [|? [|? ?]] eqn:E. Qed.

Lemma strides_set_row_strip full m msg :
  strides (set_row_strip full m msg) = strides full.
Proof. unfold set_row_strip. by destruct (shape full) as [|? [|? ?]] eqn:E. Qed.

Lemma strides_set_column_strip full m msg :
  strides (set_column_strip full m msg) = strides full.
Proof. unfold set_column_strip. by destruct (shape full) as [|? [|? ?]] eqn:E. Qed.

Lemma strides_padded r m1 m2 m3 m4 ni nj rest :
  shape r = ni :: nj :: rest →
  strides (padded one r m1 m2 m3 m4) = c_strides ((ni + 2) :: (nj + 2) :: rest).
Proof.
  intros E. unfold padded. rewrite E.
  by rewrite !strides_set_column_strip, !strides_set_row_strip,
    strides_set_interior.
Qed.

(** *** Contiguous layouts *)

Lemma items_nonneg sh : (0 ≤ items sh)%Z.
Proof. induction sh as [|n sh IH]; simpl; lia. Qed.

Lemma items_zero sh : items sh = 0%Z ↔ 0 ∈ sh.
Proof.
  induction sh as [|n sh IH]; simpl.
  - split; [lia|by intros ?%elem_of_nil].
  - rewrite elem_of_cons, <- IH. split.
    + intros [?| ?]%Z.mul_eq_0; [left; lia|by right].
    + intros [<-| ->]; lia.
Qed.

Lemma existsb_zero sh : existsb (Nat.eqb 0) sh = true ↔ 0 ∈ sh.
Proof.
  rewrite existsb_exists. split.
  - intros (n & Hn & <-%Nat.eqb_eq). by apply list_elem_of_In.
  - intros Hn. exists 0. split; [by apply list_elem_of_In|done].
Qed.

(** An array in C order is contiguous. *)
Lemma packed_c_strides sh : packed (zip sh (c_strides sh)) = (true, items sh).
Proof.
  induction sh as [|n sh IH]; [done|].
  cbn [c_strides zip_with packed]. rewrite IH.
  rewrite Z.eqb_refl, orb_true_r. simpl. f_equal. lia.
Qed.

Lemma c_order_contiguous a :
  strides a = c_strides (shape a) → is_contiguous a = true.
Proof.
  intros E. unfold is_contiguous. rewrite E, packed_c_strides. simpl.
  by rewrite orb_true_r.
Qed.

(** The slowest axis of a Fortran layout has stride 1, or length 1. *)
Lemma packed_snoc axes n (st : Z) :
  (packed (axes ++ [(n, st)])).1 = true → n = 1 ∨ st = 1%Z.
Proof.
  induction axes as [|[m sm] axes IH]; simpl.
  - rewrite orb_true_iff, Nat.eqb_eq, Z.eqb_eq. tauto.
  - destruct (packed (axes ++ [(n, st)])) as [ok sd]. simpl in *.
    intros [Hok _]%andb_true_iff. by apply IH.
Qed.

(** A view whose first axis has the stride of a longer one, over trailing
    axes in C order, is contiguous only if that axis has one index at most
    or the view has no items. *)
Lemma strided_contiguous a n (k : nat) rest :
  shape a = n :: rest →
  strides a = (Z.of_nat k * items rest)%Z :: c_strides rest →
  2 ≤ k →
  is_contiguous a = true ↔ n ≤ 1 ∨ 0 ∈ rest.
Proof.
  intros Es Est Hk. unfold is_contiguous. rewrite Es, Est.
  cbn [zip_with packed].
  rewrite packed_c_strides. cbn [fst andb].
  rewrite reverse_cons.
  pose proof (items_nonneg rest) as Hpos.
  assert (Hk' : (2 ≤ Z.of_nat k)%Z) by lia.
  split.
  - rewrite !orb_true_iff. intros [[Hz|[Hn|Hst]]|Hf].
    + apply existsb_zero in Hz. apply elem_of_cons in Hz as [<-|Hz]; [left; lia|by right].
    + apply Nat.eqb_eq in Hn. left; lia.
    + apply Z.eqb_eq in Hst. right. apply items_zero.
      assert (He : ((Z.of_nat k - 1) * items rest = 0)%Z) by lia.
      apply Z.mul_eq_0 in He as [?|?]; lia.
    + apply packed_snoc in Hf as [->|Hst]; [left; lia|].
      destruct (decide (items rest = 0%Z)) as [H0|H0]; [right; by apply items_zero|].
      assert (1 ≤ items rest)%Z by lia. nia.
  - intros [Hn|Hz].
    + destruct n as [|[|n]]; [|by rewrite orb_true_r|lia].
      by rewrite orb_true_l.
    + assert (H0 : existsb (Nat.eqb 0) (n :: rest) = true).
      { apply existsb_zero. by right. }
      by rewrite H0.
Qed.

(** A view with a single index along its first axis, over trailing axes in
    C order, is contiguous. *)
Lemma single_contiguous a rest (st : Z) :
  shape a = 1 :: rest → strides a = st :: c_strides rest →
  is_contiguous a = true.
Proof.
  intros Es Est. unfold is_contiguous. rewrite Es, Est.
  cbn [zip_with packed]. rewrite packed_c_strides. cbn [fst andb].
  by rewrite orb_true_l, orb_true_r.
Qed.

(** *** The views of the exchange *)

Lemma axis_index_first n : 1 ≤ n → axis_index 0 n = Ok 0.
Proof. intros Hn. unfold axis_index. by rewrite bool_decide_eq_true_2 by lia. Qed.

Lemma axis_index_last n : 1 ≤ n → axis_index (-1) n = Ok (n - 1).
Proof.
  intros Hn. unfold axis_index.
  rewrite bool_decide_eq_false_2, bool_decide_eq_true_2 by lia.
  f_equal. lia.
Qed.

Lemma axis_index_empty (z : Z) : axis_index z 0 = Raise IndexError.
Proof.
  unfold axis_index. by rewrite !bool_decide_eq_false_2 by lia.
Qed.

Lemma row_items r ni nj rest (z : Z) m :
  shape r = ni :: nj :: rest → row r z = Ok m →
  ∃ p, axis_index z ni = Ok p ∧ shape m = nj :: rest
       ∧ strides m = drop 1 (strides r)
       ∧ ∀ idx, item m idx = item r (p :: idx).
Proof.
  unfold row. intros ->. destruct (axis_index z ni) as [p|]; [|done].
  intros [= <-]. by exists p.
Qed.

Lemma column_items r ni nj rest (z : Z) m :
  shape r = ni :: nj :: rest → column r z = Ok m →
  ∃ q, axis_index z nj = Ok q ∧ shape m = ni :: rest
       ∧ strides m = take 1 (strides r) ++ drop 2 (strides r)
       ∧ ∀ p idx, item m (p :: idx) = item r (p :: q :: idx).
Proof.
  unfold column. intros ->. destruct (axis_index z nj) as [q|]; [|done].
  intros [= <-]. by exists q.
Qed.

(** Receiving into a row of the halo: the view [full[k, 1:-1]] of a new
    array is contiguous. *)
Lemma Recv_row_strip full (k : Z) i source net ni nj rest :
  shape full = (ni + 2) :: (nj + 2) :: rest →
  strides full = c_strides (shape full) →
  axis_index k (ni + 2) = Ok i →
  rbind (row_strip full k) (fun buf => Recv buf source net)
  = Ok (inbox net source (received net source), taken source net).
Proof.
  intros Es Est Hk. unfold row_strip, row. rewrite Es, Hk. cbn [rbind].
  unfold middle. cbn [shape strides rbind]. unfold Recv.
  rewrite Est, Es. cbn [c_strides drop].
  replace (is_contiguous _) with true; [done|]. symmetry.
  unfold is_contiguous. cbn [shape strides zip_with packed].
  rewrite packed_c_strides. cbn [fst andb].
  by rewrite Z.eqb_refl, !orb_true_r.
Qed.

(** Receiving into a column of the halo: the view [full[1:-1, k]] steps over
    whole rows, and is refused unless the tile has a single row or no
    items. *)
Lemma Recv_column_strip full (k : Z) j source net ni nj rest :
  shape full = (ni + 2) :: (nj + 2) :: rest →
  strides full = c_strides (shape full) →
  axis_index k (nj + 2) = Ok j →
  rbind (column_strip full k) (fun buf => Recv buf source net)
  = if decide (ni ≤ 1 ∨ 0 ∈ rest)
    then Ok (inbox net source (received net source), taken source net)
    else Raise BufferError.
Proof.
  intros Es Est Hk. unfold column_strip, column. rewrite Es, Hk. cbn [rbind].
  unfold middle. cbn [shape strides rbind]. unfold Recv.
  rewrite Est, Es. cbn [c_strides drop take app items foldr].
  fold (items rest).
  replace (ni + 2 - 2) with ni by lia. rewrite drop_0.
  match goal with
  | |- context [is_contiguous ?a] =>
      pose proof (strided_contiguous a ni (nj + 2) rest eq_refl eq_refl
                    ltac:(lia)) as Hc
  end.
  destruct (decide (ni ≤ 1 ∨ 0 ∈ rest)) as [Hyes|Hno].
  - apply Hc in Hyes. by rewrite Hyes.
  - destruct (is_contiguous _); [|done]. destruct Hno. by apply Hc.
Qed.


(** *** The exchange, step by step *)

(** On a tile with at least one row and one column the four edge views
    exist.  Each send goes through if its view is contiguous; the receives
    into the halo rows always go through, those into the halo columns only
    for a tile of one row, or without items. *)
Lemma halo_exchange_outcome w net r ni nj rest x_m x_p y_m y_p :
  shape r = ni :: nj :: rest → 1 ≤ ni → 1 ≤ nj →
  neighbor_ranks w = (x_m, x_p, y_m, y_p) →
  ∃ R0 R1 C0 C1,
    row r 0 = Ok R0 ∧ row r (-1) = Ok R1
    ∧ column r 0 = Ok C0 ∧ column r (-1) = Ok C1
    ∧ _update_result_neighbor one w net r
      = if is_contiguous R0 then
          if is_contiguous R1 then
            if is_contiguous C0 then
              if is_contiguous C1 then
                let net4 := posted C1 y_p (posted C0 y_m
                              (posted R1 x_p (posted R0 x_m net))) in
                let net6 := taken x_p (taken x_m net4) in
                if decide (ni ≤ 1 ∨ 0 ∈ rest) then
                  (taken y_p (taken y_m net6),
                   Ok (padded one r
                         (inbox net x_m (received net x_m))
                         (inbox net x_p (received (taken x_m net4) x_p))
                         (inbox net y_m (received net6 y_m))
                         (inbox net y_p (received (taken y_m net6) y_p))))
                else (net6, Raise BufferError)
              else (posted C0 y_m (posted R1 x_p (posted R0 x_m net)),
                    Raise BufferError)
            else (posted R1 x_p (posted R0 x_m net), Raise BufferError)
          else (posted R0 x_m net, Raise BufferError)
        else (net, Raise BufferError).
Proof.
  intros E Hi Hj Hranks.
  destruct (row r 0) as [R0|] eqn:HR0.
  2: { unfold row in HR0. rewrite E, axis_index_first in HR0 by done. done. }
  destruct (row r (-1)) as [R1|] eqn:HR1.
  2: { unfold row in HR1. rewrite E, axis_index_last in HR1 by done. done. }
  destruct (column r 0) as [C0|] eqn:HC0.
  2: { unfold column in HC0. rewrite E, axis_index_first in HC0 by done. done. }
  destruct (column r (-1)) as [C1|] eqn:HC1.
  2: { unfold column in HC1. rewrite E, axis_index_last in HC1 by done. done. }
  exists R0, R1, C0, C1. split_and!; try done.
  unfold _update_result_neighbor. rewrite Hranks, HR0, HR1, HC0, HC1, E.
  cbn [rbind]. unfold Isend.
  destruct (is_contiguous R0); [|done].
  destruct (is_contiguous R1); [|done].
  destruct (is_contiguous C0); [|done].
  destruct (is_contiguous C1); [|done].
  assert (Hfirst : axis_index 0 (ni + 2) = Ok 0) by (apply axis_index_first; lia).
  assert (Hlast : axis_index (-1) (ni + 2) = Ok (ni + 2 - 1))
    by (apply axis_index_last; lia).
  assert (Hfirst' : axis_index 0 (nj + 2) = Ok 0) by (apply axis_index_first; lia).
  assert (Hlast' : axis_index (-1) (nj + 2) = Ok (nj + 2 - 1))
    by (apply axis_index_last; lia).
  cbv zeta.
  set (full1 := set_interior (ones one (ni + 2 :: nj + 2 :: rest)) r).
  assert (Hs1 : shape full1 = ni + 2 :: nj + 2 :: rest).
  { subst full1. by rewrite shape_set_interior. }
  assert (Ht1 : strides full1 = c_strides (shape full1)).
  { rewrite Hs1. subst full1. by rewrite strides_set_interior. }
  rewrite (Recv_row_strip full1 0 0 x_m _ ni nj rest Hs1 Ht1 Hfirst).
  cbv beta iota.
  match goal with
  | |- context [rbind (row_strip ?a _) _] => set (full2 := a)
  end.
  assert (Hs2 : shape full2 = ni + 2 :: nj + 2 :: rest).
  { subst full2. by rewrite shape_set_row_strip. }
  assert (Ht2 : strides full2 = c_strides (shape full2)).
  { rewrite Hs2. subst full2. by rewrite strides_set_row_strip, Ht1, Hs1. }
  rewrite (Recv_row_strip full2 (-1) _ x_p _ ni nj rest Hs2 Ht2 Hlast).
  cbv beta iota.
  match goal with
  | |- context [rbind (column_strip ?a _) _] => set (full3 := a)
  end.
  assert (Hs3 : shape full3 = ni + 2 :: nj + 2 :: rest).
  { subst full3. by rewrite shape_set_row_strip. }
  assert (Ht3 : strides full3 = c_strides (shape full3)).
  { rewrite Hs3. subst full3. by rewrite strides_set_row_strip, Ht2, Hs2. }
  rewrite (Recv_column_strip full3 0 0 y_m _ ni nj rest Hs3 Ht3 Hfirst').
  destruct (decide (ni ≤ 1 ∨ 0 ∈ rest)) as [Hyes|Hno]; [|done].
  cbv beta iota.
  match goal with
  | |- context [rbind (column_strip ?a _) _] => set (full4 := a)
  end.
  assert (Hs4 : shape full4 = ni + 2 :: nj + 2 :: rest).
  { subst full4. by rewrite shape_set_column_strip. }
  assert (Ht4 : strides full4 = c_strides (shape full4)).
  { rewrite Hs4. subst full4. by rewrite strides_set_column_strip, Ht3, Hs3. }
  rewrite (Recv_column_strip full4 (-1) _ y_p _ ni nj rest Hs4 Ht4 Hlast').
  rewrite decide_True by done.
  subst full4 full3 full2 full1.
  unfold padded. rewrite E. reflexivity.
Qed.


Lemma arrivals_cons x l s :
  arrivals (x :: l) s = (if s =? x then 1 else 0) + arrivals l s.
Proof.
  unfold arrivals. rewrite filter_cons.
  destruct (Nat.eqb_spec s x) as [->|Hne].
  - by rewrite decide_True.
  - by rewrite decide_False by congruence.
Qed.

Lemma arrivals_nil s : arrivals [] s = 0.
Proof. done. Qed.

(** The rank [s] among up to four sources, case by case. *)
Lemma arrivals_four (a b c d s n : nat) :
  n + arrivals [a] s = (if s =? a then S n else n)
  ∧ n + arrivals [a; b] s
    = (if s =? b then S (if s =? a then S n else n)
       else if s =? a then S n else n)
  ∧ n + arrivals [a; b; c] s
    = (if s =? c
       then S (if s =? b then S (if s =? a then S n else n)
               else if s =? a then S n else n)
       else if s =? b then S (if s =? a then S n else n)
            else if s =? a then S n else n)
  ∧ n + arrivals [a; b; c; d] s
    = (if s =? d
       then S (if s =? c
               then S (if s =? b then S (if s =? a then S n else n)
                       else if s =? a then S n else n)
               else if s =? b then S (if s =? a then S n else n)
                    else if s =? a then S n else n)
       else if s =? c
            then S (if s =? b then S (if s =? a then S n else n)
                    else if s =? a then S n else n)
            else if s =? b then S (if s =? a then S n else n)
                 else if s =? a then S n else n).
Proof.
  rewrite !arrivals_cons, arrivals_nil.
  destruct (s =? a), (s =? b), (s =? c), (s =? d); split_and!; lia.
Qed.

(** Whenever [_update_result_neighbor] returns, its argument has at least
    one row and one column. *)
Lemma halo_exchange_shape w net r net' full :
  _update_result_neighbor one w net r = (net', Ok full) →
  ∃ ni nj rest, shape r = ni :: nj :: rest ∧ 1 ≤ ni ∧ 1 ≤ nj.
Proof.
  unfold _update_result_neighbor.
  destruct (neighbor_ranks w) as [[[x_m x_p] y_m] y_p].
  unfold row, column.
  destruct (shape r) as [|ni [|nj rest]] eqn:E; try (by inversion 1).
  destruct ni as [|ni]; [rewrite axis_index_empty; by inversion 1|].
  destruct nj as [|nj].
  { rewrite !axis_index_empty, axis_index_first, axis_index_last by lia.
    cbn [rbind]. unfold Isend.
    repeat match goal with
           | |- context [if is_contiguous ?a then _ else _] =>
               destruct (is_contiguous a)
           end; by inversion 1. }
  intros _. exists (S ni), (S nj), rest. split_and!; [done|lia|lia].
Qed.

(** Whenever [_update_result_neighbor] returns: what it has posted, what it
    has taken, and the array it returns. *)
Lemma halo_exchange_returned w net r net' full x_m x_p y_m y_p :
  neighbor_ranks w = (x_m, x_p, y_m, y_p) →
  _update_result_neighbor one w net r = (net', Ok full) →
  ∃ ni nj rest first_row last_row first_column last_column,
    shape r = ni :: nj :: rest ∧ 1 ≤ ni ∧ 1 ≤ nj ∧ (ni = 1 ∨ 0 ∈ rest)
    ∧ row r 0 = Ok first_row ∧ row r (-1) = Ok last_row
    ∧ column r 0 = Ok first_column ∧ column r (-1) = Ok last_column
    ∧ full = padded one r
               (inbox net x_m (received net x_m))
               (inbox net x_p (received net x_p + arrivals [x_m] x_p))
               (inbox net y_m (received net y_m + arrivals [x_m; x_p] y_m))
               (inbox net y_p (received net y_p + arrivals [x_m; x_p; y_m] y_p))
    ∧ sent net' = sent net ++ [(x_m, first_row); (x_p, last_row);
                               (y_m, first_column); (y_p, last_column)]
    ∧ inbox net' = inbox net
    ∧ ∀ s, received net' s = received net s + arrivals [x_m; x_p; y_m; y_p] s.
Proof.
  intros Hranks Hrun.
  destruct (halo_exchange_shape _ _ _ _ _ Hrun) as (ni & nj & rest & E & Hi & Hj).
  destruct (halo_exchange_outcome w net r ni nj rest x_m x_p y_m y_p E Hi Hj Hranks)
    as (R0 & R1 & C0 & C1 & HR0 & HR1 & HC0 & HC1 & Hout).
  rewrite Hout in Hrun. clear Hout.
  destruct (is_contiguous R0); [|done].
  destruct (is_contiguous R1); [|done].
  destruct (is_contiguous C0); [|done].
  destruct (is_contiguous C1); [|done].
  cbv zeta in Hrun.
  destruct (decide (ni ≤ 1 ∨ 0 ∈ rest)) as [Hyes|Hno]; [|done].
  injection Hrun as <- <-.
  exists ni, nj, rest, R0, R1, C0, C1.
  destruct (arrivals_four x_m x_p y_m y_p x_p (received net x_p)) as (H2 & _).
  destruct (arrivals_four x_m x_p y_m y_p y_m (received net y_m))
    as (_ & H3 & _).
  destruct (arrivals_four x_m x_p y_m y_p y_p (received net y_p))
    as (_ & _ & H4 & _).
  rewrite H2, H3, H4.
  split_and!; try done.
  - destruct Hyes as [?|?]; [left; lia|by right].
  - simpl. by rewrite <- !app_assoc.
  - intros s. simpl.
    by destruct (arrivals_four x_m x_p y_m y_p s (received net s)) as (_ & _ & _ & ->).
Qed.

(** Whenever [_update_result_neighbor] returns an array, it has two more
    rows and two more columns than its argument. *)
Lemma _update_result_neighbor_shape w net r net' full :
  _update_result_neighbor one w net r = (net', Ok full) →
  ∃ ni nj rest, shape r = ni :: nj :: rest
                ∧ shape full = (ni + 2) :: (nj + 2) :: rest.
Proof.
  intros Hrun.
  destruct (neighbor_ranks w) as [[[x_m x_p] y_m] y_p] eqn:Hranks.
  destruct (halo_exchange_returned w net r net' full _ _ _ _ Hranks Hrun)
    as (ni & nj & rest & _ & _ & _ & _ & E & _ & _ & _ & _ & _ & _ & _
        & -> & _).
  exists ni, nj, rest. split; [done|]. by apply shape_padded.
Qed.

(** The edge views of an array in C order: the rows are contiguous. *)
Lemma c_ordered_row r ni nj rest (z : Z) m :
  shape r = ni :: nj :: rest → c_ordered r → row r z = Ok m →
  is_contiguous m = true.
Proof.
  intros E Hc Hm.
  destruct (row_items _ _ _ _ _ _ E Hm) as (p & _ & Hs & Hst & _).
  apply c_order_contiguous. rewrite Hs, Hst, Hc, E. done.
Qed.

Lemma c_ordered_column r ni nj rest (z : Z) m :
  shape r = ni :: nj :: rest → c_ordered r → column r z = Ok m →
  shape m = ni :: rest
  ∧ strides m = (Z.of_nat nj * items rest)%Z :: c_strides rest.
Proof.
  intros E Hc Hm.
  destruct (column_items _ _ _ _ _ _ E Hm) as (q & _ & Hs & Hst & _).
  split; [done|]. rewrite Hst, Hc, E. done.
Qed.

(** On an array in C order with a single row the exchange returns. *)
Lemma halo_exchange_one_row w net r nj rest :
  shape r = 1 :: nj :: rest → 1 ≤ nj → c_ordered r →
  ∃ net' full, _update_result_neighbor one w net r = (net', Ok full).
Proof.
  intros E Hj Hc.
  destruct (neighbor_ranks w) as [[[x_m x_p] y_m] y_p] eqn:Hranks.
  destruct (halo_exchange_outcome w net r 1 nj rest x_m x_p y_m y_p E
              ltac:(lia) Hj Hranks)
    as (R0 & R1 & C0 & C1 & HR0 & HR1 & HC0 & HC1 & Hout).
  rewrite Hout.
  rewrite (c_ordered_row r 1 nj rest 0 R0), (c_ordered_row r 1 nj rest (-1) R1)
    by done.
  destruct (c_ordered_column r 1 nj rest 0 C0 E Hc HC0) as [Hs0 Hst0].
  destruct (c_ordered_column r 1 nj rest (-1) C1 E Hc HC1) as [Hs1 Hst1].
  rewrite (single_contiguous C0 rest _ Hs0 Hst0).
  rewrite (single_contiguous C1 rest _ Hs1 Hst1).
  cbv zeta. rewrite decide_True by (left; lia). by eexists _, _.
Qed.

(** On a tile of two or more rows, with items, the exchange raises a buffer
    error: at the latest the receive into the first halo column is
    refused. *)
Lemma halo_exchange_refused w net r ni nj rest :
  shape r = ni :: nj :: rest → 2 ≤ ni → 1 ≤ nj → 0 ∉ rest →
  ∃ net', _update_result_neighbor one w net r = (net', Raise BufferError).
Proof.
  intros E Hi Hj Hrest.
  destruct (neighbor_ranks w) as [[[x_m x_p] y_m] y_p] eqn:Hranks.
  destruct (halo_exchange_outcome w net r ni nj rest x_m x_p y_m y_p E
              ltac:(lia) Hj Hranks)
    as (R0 & R1 & C0 & C1 & _ & _ & _ & _ & Hout).
  rewrite Hout.
  destruct (is_contiguous R0); [|by eexists].
  destruct (is_contiguous R1); [|by eexists].
  destruct (is_contiguous C0); [|by eexists].
  destruct (is_contiguous C1); [|by eexists].
  cbv zeta. rewrite decide_False; [by eexists|].
  intros [?|?]; [lia|done].
Qed.

(** The interior of a padded array, and its corners. *)
Lemma interior_padded r m1 m2 m3 m4 ni nj rest :
  shape r = ni :: nj :: rest →
  ∃ mid, interior (padded one r m1 m2 m3 m4) = Ok mid ∧ array_equal mid r.
Proof.
  intros E.
  pose proof (shape_padded r m1 m2 m3 m4 ni nj rest E) as Hshape.
  unfold interior. rewrite Hshape. eexists. split; [done|].
  split; simpl.
  - rewrite E. f_equal; [lia|f_equal; lia].
  - intros idx Hidx.
    replace (ni + 2 - 2) with ni in Hidx by lia.
    replace (nj + 2 - 2) with nj in Hidx by lia.
    destruct idx as [|p [|q idx]]; [inversion Hidx| |].
    { inversion Hidx as [|? ? ? ? _ Hnil]; subst. inversion Hnil. }
    inversion Hidx as [|? ? ? ? Hp Hidx']; subst.
    inversion Hidx' as [|? ? ? ? Hq _]; subst.
    rewrite (item_padded r m1 m2 m3 m4 ni nj rest) by done.
    assert (H1 : inner (S p) (ni + 2) = true) by (apply inner_spec; lia).
    assert (H2 : inner (S q) (nj + 2) = true) by (apply inner_spec; lia).
    rewrite H1, H2.
    rewrite (proj2 (Nat.eqb_neq (S q) (nj + 1))) by lia.
    rewrite (proj2 (Nat.eqb_neq (S q) 0)) by lia.
    rewrite (proj2 (Nat.eqb_neq (S p) (ni + 1))) by lia.
    rewrite (proj2 (Nat.eqb_neq (S p) 0)) by lia.
    cbn [andb].
    replace (S p - 1) with p by lia. by replace (S q - 1) with q by lia.
Qed.

Lemma corners_padded r m1 m2 m3 m4 ni nj rest idx :
  shape r = ni :: nj :: rest →
  item (padded one r m1 m2 m3 m4) (0 :: 0 :: idx) = one
  ∧ item (padded one r m1 m2 m3 m4) (0 :: nj + 1 :: idx) = one
  ∧ item (padded one r m1 m2 m3 m4) (ni + 1 :: 0 :: idx) = one
  ∧ item (padded one r m1 m2 m3 m4) (ni + 1 :: nj + 1 :: idx) = one.
Proof.
  intros E.
  assert (H0 : ∀ n, inner 0 n = false) by done.
  assert (Hni : inner (ni + 1) (ni + 2) = false).
  { apply not_true_is_false. rewrite inner_spec. lia. }
  assert (Hnj : inner (nj + 1) (nj + 2) = false).
  { apply not_true_is_false. rewrite inner_spec. lia. }
  rewrite !(item_padded r m1 m2 m3 m4 ni nj rest) by done.
  rewrite !H0, Hni, Hnj.
  rewrite (proj2 (Nat.eqb_neq 0 (nj + 1))) by lia.
  rewrite (proj2 (Nat.eqb_neq 0 (ni + 1))) by lia.
  rewrite (proj2 (Nat.eqb_neq (nj + 1) 0)) by lia.
  rewrite (proj2 (Nat.eqb_neq (ni + 1) 0)) by lia.
  rewrite !Nat.eqb_refl. cbn [andb]. done.
Qed.

(** The strips of a padded array. *)
Lemma padded_strips r m1 m2 m3 m4 ni nj rest :
  shape r = ni :: nj :: rest →
  (∀ q idx, q < nj →
     item (padded one r m1 m2 m3 m4) (0 :: S q :: idx) = m1 (q :: idx)
     ∧ item (padded one r m1 m2 m3 m4) (ni + 1 :: S q :: idx) = m2 (q :: idx))
  ∧ (∀ p idx, p < ni →
       item (padded one r m1 m2 m3 m4) (S p :: 0 :: idx) = m3 (p :: idx)
       ∧ item (padded one r m1 m2 m3 m4) (S p :: nj + 1 :: idx) = m4 (p :: idx)).
Proof.
  intros E.
  assert (H0 : ∀ n, inner 0 n = false) by done.
  assert (Hni : inner (ni + 1) (ni + 2) = false).
  { apply not_true_is_false. rewrite inner_spec. lia. }
  split.
  - intros q idx Hq.
    assert (Hin : inner (S q) (nj + 2) = true) by (apply inner_spec; lia).
    rewrite !(item_padded r m1 m2 m3 m4 ni nj rest) by done.
    rewrite H0, Hni, Hin, !Nat.eqb_refl. cbn [andb].
    rewrite (proj2 (Nat.eqb_neq 0 (ni + 1))) by lia. cbn [andb].
    by replace (S q - 1) with q by lia.
  - intros p idx Hp.
    assert (Hin : inner (S p) (ni + 2) = true) by (apply inner_spec; lia).
    rewrite !(item_padded r m1 m2 m3 m4 ni nj rest) by done.
    rewrite Hin, !Nat.eqb_refl. cbn [andb].
    rewrite (proj2 (Nat.eqb_neq 0 (nj + 1))) by lia. cbn [andb].
    by replace (S p - 1) with p by lia.
Qed.

End WorkerFacts.

(** ** The claims about [mpi_worker_commander.py] *)

(** C10, as stated, fails: on the worker whose tile has no rows, for an
    input with the leading shape of the tile, [result[0, :]] raises an index
    error and no array is returned. *)
Lemma halo_padding_counterexample :
  let w := WorkerExamples.empty_tile_worker in
  let r := WorkerExamples.ramp [0; 1] in
  shape (i w) = [0 + 2; 1 + 2] ∧ shape r = [0; 1]
  ∧ (_update_result_neighbor 1%Z w WorkerExamples.quiet r).2
    = Raise IndexError.
Proof. split_and!; reflexivity. Qed.

(** C10 (amended): whenever [_update_result_neighbor] returns, its input
    [r] has a leading shape [(ni, nj)] with [ni ≥ 1] and [nj ≥ 1], the
    array returned has the shape [(ni + 2, nj + 2) + r.shape[2:]], its
    interior slice [[1:-1, 1:-1]] equals [r], and its four corner cells
    equal the fill value 1, whatever the neighbours send; and the call does
    return for every input in C order with one row and at least one
    column. *)
Theorem halo_padding {T} (one : T) (w : MPI_Worker T) (net : world T)
    (r : ndarray T) :
  (∀ nj rest, shape r = 1 :: nj :: rest → 1 ≤ nj → c_ordered r →
     ∃ net' full, _update_result_neighbor one w net r = (net', Ok full))
  ∧ (∀ net' full,
       _update_result_neighbor one w net r = (net', Ok full) →
       ∃ ni nj rest,
         shape r = ni :: nj :: rest ∧ 1 ≤ ni ∧ 1 ≤ nj
         ∧ shape full = (ni + 2) :: (nj + 2) :: rest
         ∧ (∃ mid, interior full = Ok mid ∧ array_equal mid r)
         ∧ ∀ idx, item full (0 :: 0 :: idx) = one
                  ∧ item full (0 :: nj + 1 :: idx) = one
                  ∧ item full (ni + 1 :: 0 :: idx) = one
                  ∧ item full (ni + 1 :: nj + 1 :: idx) = one).
Proof.
  split.
  - intros nj rest E Hj Hc. by apply (halo_exchange_one_row one w net r nj rest).
  - intros net' full Hrun.
    destruct (neighbor_ranks w) as [[[x_m x_p] y_m] y_p] eqn:Hranks.
    destruct (halo_exchange_returned one w net r net' full _ _ _ _ Hranks Hrun)
      as (ni & nj & rest & _ & _ & _ & _ & E & Hi & Hj & _ & _ & _ & _ & _
          & -> & _).
    exists ni, nj, rest. split_and!; try done.
    + by apply (shape_padded one r _ _ _ _ ni nj rest).
    + by apply (interior_padded one r _ _ _ _ ni nj rest).
    + intros idx. by apply (corners_padded one r _ _ _ _ ni nj rest).
Qed.

Lemma halo_padding_witness :
  ∃ net' full,
    _update_result_neighbor 1%Z WorkerExamples.row_worker
      WorkerExamples.quiet (WorkerExamples.ramp [1; 3]) = (net', Ok full)
    ∧ shape full = [3; 5]
    ∧ item full [0; 0] = 1%Z.
Proof.
  destruct (halo_padding 1%Z WorkerExamples.row_worker WorkerExamples.quiet
              (WorkerExamples.ramp [1; 3])) as [Hreturns Hpadded].
  destruct (Hreturns 3 [] eq_refl ltac:(lia) eq_refl) as (net' & full & Hrun).
  destruct (Hpadded net' full Hrun)
    as (ni & nj & rest & E & _ & _ & Hshape & _ & Hcorner).
  exists net', full. split; [exact Hrun|].
  injection E as <- <- <-.
  split; [exact Hshape|exact (proj1 (Hcorner []))].
Defined.

(** *** Result storage *)

Section StorageFacts.
Context {T : Type} (one : T).
Implicit Types (a r full : ndarray T) (w : MPI_Worker T) (net : world T).
Implicit Types (o result result_var : pyobj T) (k : key).

Lemma stores_arrays_refl w : stores_arrays w w.
Proof. intros k o Ho. by left. Qed.

Lemma stores_arrays_trans w1 w2 w3 :
  stores_arrays w1 w2 → stores_arrays w2 w3 → stores_arrays w1 w3.
Proof.
  intros H12 H23 k o Ho. destruct (H23 k o Ho) as [Ho2|?]; [|by right].
  by apply H12.
Qed.

Lemma stores_arrays_store w k o : rank2 o → stores_arrays w (store w k o).
Proof.
  intros Ho k' o' Hk'. simpl in Hk'.
  destruct (decide (k = k')) as [->|Hne].
  - rewrite lookup_insert_eq in Hk'. inversion Hk'; subst. by right.
  - rewrite lookup_insert_ne in Hk' by done. by left.
Qed.

Lemma update_each_stores_arrays
    (update : MPI_Worker T → world T → pyobj T → pyobj T
              → MPI_Worker T * world T * outcome (pyobj T)) vars :
  Forall (fun var => ∀ w net res w' net' out,
            update w net res var = (w', net', out) → stores_arrays w w') vars →
  ∀ ress w net w' net' out,
    update_each update w net ress vars = (w', net', out) →
    stores_arrays w w'.
Proof.
  induction 1 as [|var vars Hvar _ IH]; intros ress w net w' net' out Hrun.
  - simpl in Hrun. inversion Hrun; subst. apply stores_arrays_refl.
  - destruct ress as [|res ress]; simpl in Hrun.
    { inversion Hrun; subst. apply stores_arrays_refl. }
    destruct (update w net res var) as [[w1 net1] [x|e]] eqn:Hupd.
    + eapply stores_arrays_trans; [by eapply Hvar|by eapply IH].
    + inversion Hrun; subst. by eapply Hvar.
Qed.

(** The call with a single worker variable as result key. *)
Lemma _update_result_variable w net result k :
  _update_result one w net result (WorkerVariable k)
  = match result with
    | PyArray a =>
        if negb (2 <=? ndim a) then (w, net, Raise AssertionError)
        else
          match shape (i w), shape a with
          | n0 :: n1 :: _, r0 :: r1 :: _ =>
              let ni := (Z.of_nat n0 - 2)%Z in
              let nj := (Z.of_nat n1 - 2)%Z in
              if bool_decide ((Z.of_nat r0, Z.of_nat r1)
                              ≠ ((ni + 2)%Z, (nj + 2)%Z)) then
                if bool_decide ((Z.of_nat r0, Z.of_nat r1) = (ni, nj)) then
                  match _update_result_neighbor one w net a with
                  | (net', Ok full) =>
                      (store w k (PyArray full), net', Ok PyNone)
                  | (net', Raise e) => (w, net', Raise e)
                  end
                else (w, net, Raise AssertionError)
              else (store w k (PyArray a), net, Ok PyNone)
          | _, _ => (w, net, Raise IndexError)
          end
    | _ => (w, net, Raise AssertionError)
    end.
Proof. destruct result; reflexivity. Qed.

(** Whatever the result key, tuples included, and whether or not the call
    returns normally, [_update_result] only ever stores arrays with at least
    two dimensions. *)
Lemma _update_result_stores_arrays result_var :
  ∀ w net result w' net' out,
    _update_result one w net result result_var = (w', net', out) →
    stores_arrays w w'.
Proof.
  induction result_var as [|a|vars IH|k|x|name] using pyobj_nested_ind;
    intros w net result w' net' out Hrun;
    [simpl in Hrun|simpl in Hrun|simpl in Hrun
    |rewrite _update_result_variable in Hrun|simpl in Hrun|simpl in Hrun];
    try (inversion Hrun; subst; apply stores_arrays_refl).
  - destruct result as [|a|ress|k|x|name];
      try (inversion Hrun; subst; apply stores_arrays_refl).
    destruct (decide (length ress = length vars));
      [|inversion Hrun; subst; apply stores_arrays_refl].
    by eapply update_each_stores_arrays.
  - destruct result as [|a|ress|k'|x|name];
      try (inversion Hrun; subst; apply stores_arrays_refl).
    destruct (2 <=? ndim a) eqn:Hrank; cbn [negb] in Hrun;
      [|inversion Hrun; subst; apply stores_arrays_refl].
    apply Nat.leb_le in Hrank.
    destruct (shape (i w)) as [|n0 [|n1 tl]];
      try (inversion Hrun; subst; apply stores_arrays_refl).
    destruct (shape a) as [|r0 [|r1 rest]] eqn:Ea;
      try (inversion Hrun; subst; apply stores_arrays_refl).
    cbv zeta in Hrun.
    destruct (bool_decide _).
    + destruct (bool_decide _);
        [|inversion Hrun; subst; apply stores_arrays_refl].
      destruct (_update_result_neighbor one w net a) as [net1 [full|e]] eqn:Hn;
        [|inversion Hrun; subst; apply stores_arrays_refl].
      inversion Hrun; subst. apply stores_arrays_store.
      exists full. split; [done|].
      destruct (_update_result_neighbor_shape one w net a _ _ Hn)
        as (ni & nj & rest' & _ & Hfull).
      unfold ndim. rewrite Hfull. simpl. lia.
    + inversion Hrun; subst. apply stores_arrays_store. by exists a.
Qed.

End StorageFacts.

(** C5, as stated, fails: on a worker whose tile has no rows, a result whose
    leading dimensions are those of the interior tile reaches the halo
    exchange, which raises an index error at [result[0, :]]; nothing is
    stored. *)
Lemma result_storage_dispatch_counterexample :
  let w := WorkerExamples.empty_tile_worker in
  let a := WorkerExamples.ramp [0; 1] in
  let run := _update_result 1%Z w WorkerExamples.quiet (PyArray a)
               (WorkerVariable (inl "x")) in
  shape (i w) = [2; 3] ∧ shape a = [2 - 2; 3 - 2]
  ∧ run.2 = Raise IndexError
  ∧ variables run.1.1 = variables w.
Proof. split_and!; reflexivity. Qed.

(** C5 (amended): for every worker whose coordinate array [i] has leading
    dimensions [(n0, n1)], so that the interior tile is [(n0 - 2, n1 - 2)],
    and every [_update_result] call storing an array under a single
    worker-variable key: if the array's leading two dimensions equal
    [(n0, n1)] the array is stored unchanged; else if they equal
    [(n0 - 2, n1 - 2)] the halo exchange is called, and whenever it returns
    --- as it does for an array in C order of one row and at least one
    column --- the padded array it returns is stored, while whenever it
    raises the exception is passed on and nothing is stored; and for any
    other leading shape the call fails the shape assertion and stores
    nothing. *)
Theorem result_storage_dispatch {T} (one : T) (w : MPI_Worker T)
    (net : world T) (a : ndarray T) k n0 n1 tl r0 r1 rest :
  shape (i w) = n0 :: n1 :: tl →
  shape a = r0 :: r1 :: rest →
  ((r0, r1) = (n0, n1) →
   _update_result one w net (PyArray a) (WorkerVariable k)
   = (store w k (PyArray a), net, Ok PyNone))
  ∧ ((r0, r1) ≠ (n0, n1) →
     (Z.of_nat r0, Z.of_nat r1) = (Z.of_nat n0 - 2, Z.of_nat n1 - 2)%Z →
     (∀ net' full,
        _update_result_neighbor one w net a = (net', Ok full) →
        _update_result one w net (PyArray a) (WorkerVariable k)
        = (store w k (PyArray full), net', Ok PyNone))
     ∧ (∀ net' e,
          _update_result_neighbor one w net a = (net', Raise e) →
          _update_result one w net (PyArray a) (WorkerVariable k)
          = (w, net', Raise e))
     ∧ (r0 = 1 → 1 ≤ r1 → c_ordered a →
        ∃ net' full,
          _update_result_neighbor one w net a = (net', Ok full)))
  ∧ ((r0, r1) ≠ (n0, n1) →
     (Z.of_nat r0, Z.of_nat r1) ≠ (Z.of_nat n0 - 2, Z.of_nat n1 - 2)%Z →
     _update_result one w net (PyArray a) (WorkerVariable k)
     = (w, net, Raise AssertionError)).
Proof.
  intros Ei Ea.
  assert (Hrank : (2 <=? ndim a) = true).
  { apply Nat.leb_le. unfold ndim. rewrite Ea. simpl. lia. }
  rewrite _update_result_variable, Hrank, Ei, Ea. cbn [negb]. cbv zeta.
  split_and!.
  - intros Heq. inversion Heq; subst.
    rewrite bool_decide_eq_false_2; [done|].
    intros Hne. apply Hne. f_equal; lia.
  - intros Hne Htile.
    rewrite bool_decide_eq_true_2.
    2: { intros Heq. apply Hne. inversion Heq. f_equal; lia. }
    rewrite bool_decide_eq_true_2 by done.
    split_and!.
    + intros net' full Hrun. by rewrite Hrun.
    + intros net' e Hrun. by rewrite Hrun.
    + intros -> Hr1 Hc.
      by apply (halo_exchange_one_row one w net a r1 rest).
  - intros Hne Htile.
    rewrite bool_decide_eq_true_2.
    2: { intros Heq. apply Hne. inversion Heq. f_equal; lia. }
    by rewrite bool_decide_eq_false_2.
Qed.

Lemma result_storage_dispatch_witness :
  ∃ net' full,
    _update_result_neighbor 1%Z WorkerExamples.row_worker WorkerExamples.quiet
      (WorkerExamples.ramp [1; 3]) = (net', Ok full)
    ∧ _update_result 1%Z WorkerExamples.row_worker WorkerExamples.quiet
        (PyArray (WorkerExamples.ramp [1; 3])) (WorkerVariable (inl "x"))
      = (store WorkerExamples.row_worker (inl "x") (PyArray full), net',
         Ok PyNone).
Proof.
  destruct (result_storage_dispatch 1%Z WorkerExamples.row_worker
              WorkerExamples.quiet (WorkerExamples.ramp [1; 3]) (inl "x")
              3 5 [] 1 3 [] eq_refl eq_refl) as (_ & Hhalo & _).
  destruct Hhalo as (Hstored & _ & Hreturns).
  - intros Heq. discriminate Heq.
  - reflexivity.
  - destruct (Hreturns eq_refl ltac:(lia) eq_refl) as (net' & full & Hrun).
    exists net', full. split; [exact Hrun|]. exact (Hstored net' full Hrun).
Defined.

(** C9: for every [_update_result] call whose result key is a single
    worker variable, the call fails an assertion and stores nothing unless
    the result is an array with at least two dimensions; with the result key
    none the result is returned as it is and nothing is stored; and whatever
    the result key, tuples included, every variable of the worker after the
    call is one it had before or an array with at least two dimensions. *)
Theorem stored_results_are_arrays {T} (one : T) (w : MPI_Worker T)
    (net : world T) (result : pyobj T) k :
  (∀ a, result = PyArray a → ndim a < 2) →
  _update_result one w net result (WorkerVariable k)
  = (w, net, Raise AssertionError)
  ∧ _update_result one w net result PyNone = (w, net, Ok result)
  ∧ ∀ result_var w' net' out,
      _update_result one w net result result_var = (w', net', out) →
      stores_arrays w w'.
Proof.
  intros Hrank. split_and!.
  - rewrite _update_result_variable.
    destruct result as [|a|ress|k'|x|name]; try done.
    specialize (Hrank a eq_refl).
    by rewrite (proj2 (Nat.leb_gt 2 (ndim a))) by lia.
  - done.
  - intros result_var w' net' out Hrun.
    by eapply _update_result_stores_arrays.
Qed.

Lemma stored_results_are_arrays_witness :
  _update_result 1%Z WorkerExamples.tile_worker WorkerExamples.quiet
    (PyScalar 3%Z) (WorkerVariable (inl "x"))
  = (WorkerExamples.tile_worker, WorkerExamples.quiet, Raise AssertionError).
Proof.
  apply (stored_results_are_arrays 1%Z WorkerExamples.tile_worker
           WorkerExamples.quiet (PyScalar 3%Z) (inl "x")).
  intros a Ha. discriminate Ha.
Defined.

(** C6, evaluated: on a mapping with one worker-variable value, whose key
    is in the store, [_substitute_kwargs] raises a name error instead of
    returning the substituted mapping, whereas [_substitute_args] replaces
    the same handle by the stored array. *)
Theorem substitute_kwargs_fails :
  let w := WorkerExamples.tile_worker in
  variables w !! inl "i" = Some (PyArray (WorkerExamples.ramp [4; 5]))
  ∧ _substitute_kwargs w {[ "x" := WorkerVariable (inl "i") ]}
    = Raise NameError
  ∧ _substitute_args w [WorkerVariable (inl "i")]
    = Ok [PyArray (WorkerExamples.ramp [4; 5])].
Proof. split_and!; vm_compute; reflexivity. Qed.

(** The same for every non-empty mapping; only the empty mapping is
    returned. *)
Lemma substitute_kwargs_nonempty {T} (w : MPI_Worker T)
    (kwargs : gmap string (pyobj T)) :
  _substitute_kwargs w kwargs
  = if decide (kwargs = ∅) then Ok kwargs else Raise NameError.
Proof.
  unfold _substitute_kwargs.
  destruct (decide (kwargs = ∅)) as [->|Hne].
  - by rewrite map_to_list_empty.
  - destruct (map_to_list kwargs) as [|[kw o] l] eqn:Hl.
    + by apply map_to_list_empty_iff in Hl.
    + reflexivity.
Qed.

(** ** Further properties of the worker *)

Section Exchange.
Context {T : Type} (one : T).
Implicit Types (a r full : ndarray T) (w : MPI_Worker T) (net : world T).
Implicit Types (o result result_var arg : pyobj T) (k : key).

(** X16: for an input [r] in C order with leading shape [(ni, nj)], both
    at least 1, [_update_result_neighbor] first posts the first row
    [r[0, :]] to [x_m] and the last row [r[-1, :]] to [x_p].  For a tile of
    one row it goes on to post the first column [r[:, 0]] to [y_m] and the
    last column [r[:, -1]] to [y_p], and returns.  For a tile of two or more
    rows and two or more columns, with items, the view [r[:, 0]] is not
    contiguous: the call raises a buffer error with only the two rows
    posted.  For a tile of two or more rows and one column, with items, all
    four messages are posted, and the call raises a buffer error at the
    receive into the first halo column. *)
Theorem halo_exchange_posts w net r ni nj rest x_m x_p y_m y_p :
  shape r = ni :: nj :: rest → 1 ≤ ni → 1 ≤ nj → c_ordered r →
  neighbor_ranks w = (x_m, x_p, y_m, y_p) →
  ∃ first_row last_row first_column last_column,
    (shape first_row = nj :: rest ∧ shape last_row = nj :: rest
     ∧ shape first_column = ni :: rest ∧ shape last_column = ni :: rest
     ∧ ∀ p q idx,
         item first_row (q :: idx) = item r (0 :: q :: idx)
         ∧ item last_row (q :: idx) = item r (ni - 1 :: q :: idx)
         ∧ item first_column (p :: idx) = item r (p :: 0 :: idx)
         ∧ item last_column (p :: idx) = item r (p :: nj - 1 :: idx))
    ∧ (ni = 1 →
       ∃ net' full,
         _update_result_neighbor one w net r = (net', Ok full)
         ∧ sent net' = sent net ++ [(x_m, first_row); (x_p, last_row);
                                    (y_m, first_column); (y_p, last_column)])
    ∧ (2 ≤ ni → 2 ≤ nj → 0 ∉ rest →
       ∃ net',
         _update_result_neighbor one w net r = (net', Raise BufferError)
         ∧ sent net' = sent net ++ [(x_m, first_row); (x_p, last_row)])
    ∧ (2 ≤ ni → nj = 1 → 0 ∉ rest →
       ∃ net',
         _update_result_neighbor one w net r = (net', Raise BufferError)
         ∧ sent net' = sent net ++ [(x_m, first_row); (x_p, last_row);
                                    (y_m, first_column); (y_p, last_column)]).
Proof.
  intros E Hi Hj Hc Hranks.
  destruct (halo_exchange_outcome one w net r ni nj rest x_m x_p y_m y_p
              E Hi Hj Hranks)
    as (R0 & R1 & C0 & C1 & HR0 & HR1 & HC0 & HC1 & Hout).
  rewrite (c_ordered_row one r ni nj rest 0 R0), (c_ordered_row one r ni nj rest (-1) R1)
    in Hout by done.
  destruct (c_ordered_column one r ni nj rest 0 C0 E Hc HC0) as [Hs0 Hst0].
  destruct (c_ordered_column one r ni nj rest (-1) C1 E Hc HC1) as [Hs1 Hst1].
  destruct (row_items one _ _ _ _ _ _ E HR0) as (p0 & Hp0 & HsR0 & _ & HiR0).
  destruct (row_items one _ _ _ _ _ _ E HR1) as (p1 & Hp1 & HsR1 & _ & HiR1).
  destruct (column_items one _ _ _ _ _ _ E HC0) as (q0 & Hq0 & _ & _ & HiC0).
  destruct (column_items one _ _ _ _ _ _ E HC1) as (q1 & Hq1 & _ & _ & HiC1).
  rewrite axis_index_first in Hp0, Hq0 by done.
  rewrite axis_index_last in Hp1, Hq1 by done.
  injection Hp0 as <-. injection Hp1 as <-.
  injection Hq0 as <-. injection Hq1 as <-.
  exists R0, R1, C0, C1. split; [|split; [|split]].
  - split_and!; try done.
  - intros ->.
    rewrite (single_contiguous one C0 rest _ Hs0 Hst0) in Hout.
    rewrite (single_contiguous one C1 rest _ Hs1 Hst1) in Hout.
    cbv zeta in Hout. rewrite decide_True in Hout by (left; lia).
    eexists _, _. split; [exact Hout|]. simpl. by rewrite <- !app_assoc.
  - intros Hi2 Hj2 Hrest.
    assert (H0 : is_contiguous C0 = false).
    { apply not_true_is_false. intros Hb.
      apply (strided_contiguous one C0 ni nj rest Hs0 Hst0 Hj2) in Hb
        as [?|?]; [lia|done]. }
    rewrite H0 in Hout. eexists. split; [exact Hout|].
    simpl. by rewrite <- !app_assoc.
  - intros Hi2 -> Hrest.
    assert (Hb : ∀ C : ndarray T, shape C = ni :: rest →
              strides C = (Z.of_nat 1 * items rest)%Z :: c_strides rest →
              is_contiguous C = true).
    { intros C Hs Hst. apply (c_order_contiguous one). rewrite Hs, Hst. simpl.
      f_equal. lia. }
    rewrite (Hb C0 Hs0 Hst0), (Hb C1 Hs1 Hst1) in Hout.
    cbv zeta in Hout. rewrite decide_False in Hout by (intros [?|?]; [lia|done]).
    eexists. split; [exact Hout|]. simpl. by rewrite <- !app_assoc.
Qed.

(** X17: whenever [_update_result_neighbor] returns, the array it returns
    has in its top row, between the corners, the next message from [x_m];
    in its bottom row the next message from [x_p]; in its left and right
    columns the next messages from [y_m] and [y_p].  The receives are posted
    in this order, so that a rank occurring more than once is read from as
    many times in a row: the message taken for a side is the next one from
    its rank after those taken for the sides before it.  Nothing else is
    taken from the transport. *)
Theorem halo_exchange_fills w net r net' full x_m x_p y_m y_p :
  neighbor_ranks w = (x_m, x_p, y_m, y_p) →
  _update_result_neighbor one w net r = (net', Ok full) →
  ∃ ni nj rest,
    shape r = ni :: nj :: rest
    ∧ (∀ q idx, q < nj →
         item full (0 :: S q :: idx)
         = inbox net x_m (received net x_m) (q :: idx)
         ∧ item full (ni + 1 :: S q :: idx)
           = inbox net x_p (received net x_p + arrivals [x_m] x_p) (q :: idx))
    ∧ (∀ p idx, p < ni →
         item full (S p :: 0 :: idx)
         = inbox net y_m (received net y_m + arrivals [x_m; x_p] y_m) (p :: idx)
         ∧ item full (S p :: nj + 1 :: idx)
           = inbox net y_p (received net y_p + arrivals [x_m; x_p; y_m] y_p)
               (p :: idx))
    ∧ (∀ s, received net' s
            = received net s + arrivals [x_m; x_p; y_m; y_p] s)
    ∧ inbox net' = inbox net.
Proof.
  intros Hranks Hrun.
  destruct (halo_exchange_returned one w net r net' full _ _ _ _ Hranks Hrun)
    as (ni & nj & rest & _ & _ & _ & _ & E & _ & _ & _ & _ & _ & _ & _
        & -> & _ & Hinbox & Hrecv).
  exists ni, nj, rest. split; [done|].
  destruct (padded_strips one r
              (inbox net x_m (received net x_m))
              (inbox net x_p (received net x_p + arrivals [x_m] x_p))
              (inbox net y_m (received net y_m + arrivals [x_m; x_p] y_m))
              (inbox net y_p (received net y_p + arrivals [x_m; x_p; y_m] y_p))
              ni nj rest E) as [Hrows Hcols].
  split_and!; done.
Qed.


(** X29: the views [result[:, 0]] and [full_result[1:-1, 0]] of the exchange
    step over whole rows of their arrays, and [Isend] and [Recv] refuse a
    buffer that is not contiguous.  So [_update_result_neighbor] returns only for
    an input of one row, or without items; for every input of two or more
    rows that has items it raises a buffer error, and [_update_result], which
    calls it for a result with the leading shape of the interior tile, then
    passes the error on and stores nothing. *)
Theorem halo_exchange_needs_one_row w net r ni nj rest :
  shape r = ni :: nj :: rest →
  (∀ net' full, _update_result_neighbor one w net r = (net', Ok full) →
                ni = 1 ∨ 0 ∈ rest)
  ∧ (2 ≤ ni → 1 ≤ nj → 0 ∉ rest →
     ∃ net',
       _update_result_neighbor one w net r = (net', Raise BufferError)
       ∧ ∀ k tl, shape (i w) = (ni + 2) :: (nj + 2) :: tl →
           _update_result one w net (PyArray r) (WorkerVariable k)
           = (w, net', Raise BufferError)).
Proof.
  intros E. split.
  - intros net' full Hrun.
    destruct (neighbor_ranks w) as [[[x_m x_p] y_m] y_p] eqn:Hranks.
    destruct (halo_exchange_returned one w net r net' full _ _ _ _ Hranks Hrun)
      as (ni' & nj' & rest' & _ & _ & _ & _ & E' & _ & _ & Hone & _).
    rewrite E in E'. by injection E' as <- <- <-.
  - intros Hi Hj Hrest.
    destruct (halo_exchange_refused one w net r ni nj rest E Hi Hj Hrest)
      as [net' Hrun].
    exists net'. split; [done|]. intros k tl Ei.
    rewrite _update_result_variable.
    rewrite (proj2 (Nat.leb_le 2 (ndim r))) by (unfold ndim; rewrite E; simpl; lia).
    cbn [negb]. rewrite Ei, E. cbv zeta.
    rewrite bool_decide_eq_true_2 by (intros [= ? ?]; lia).
    rewrite bool_decide_eq_true_2 by (f_equal; lia).
    by rewrite Hrun.
Qed.

(** X11: [_substitute_args] replaces every argument that is a handle by the
    variable stored under its key and leaves every other argument as it is,
    handles inside a tuple included; it returns as many arguments, in the
    same order, when the keys of all the handles are in the store, and raises
    a key error when one is not. *)
Theorem substitute_args_spec w (args : list (pyobj T)) :
  ((∀ k, WorkerVariable k ∈ args → is_Some (variables w !! k)) →
   ∃ outs, _substitute_args w args = Ok outs
           ∧ Forall2 (substituted w) args outs)
  ∧ (∀ k, WorkerVariable k ∈ args → variables w !! k = None →
          _substitute_args w args = Raise KeyError).
Proof.
  split.
  - induction args as [|arg args IH]; intros Hk; [by exists []|].
    destruct IH as [outs [Hrun Hall]]; [intros k Hin; apply Hk; by right|].
    unfold _substitute_args in *. cbn [rmap]. rewrite Hrun.
    destruct arg as [|a|l|k|x|name];
      try (eexists; split; [reflexivity|by constructor]).
    destruct (Hk k) as [o Ho]; [by left|]. rewrite Ho.
    eexists; split; [reflexivity|by constructor].
  - induction args as [|arg args IH]; intros k Hin Hnone; [by apply elem_of_nil in Hin|].
    unfold _substitute_args in *. cbn [rmap].
    apply elem_of_cons in Hin as [<-|Hin]; [by rewrite Hnone|].
    rewrite (IH k Hin Hnone).
    destruct arg as [|a|l|k'|x|name]; try done.
    by destruct (variables w !! k').
Qed.

Lemma tiled_store w k a :
  tiled w → take 2 (shape a) = take 2 (shape (i w)) →
  tiled (store w k (PyArray a)).
Proof.
  intros Hw Ha k' o' Hk'. simpl in Hk'.
  destruct (decide (k = k')) as [->|Hne].
  - rewrite lookup_insert_eq in Hk'. inversion Hk'; subst. by exists a.
  - rewrite lookup_insert_ne in Hk' by done. by apply (Hw k').
Qed.

Lemma update_each_tiled
    (update : MPI_Worker T → world T → pyobj T → pyobj T
              → MPI_Worker T * world T * outcome (pyobj T)) vars :
  Forall (fun var => ∀ w net res w' net' out,
            tiled w → update w net res var = (w', net', out) →
            tiled w' ∧ i w' = i w) vars →
  ∀ ress w net w' net' out,
    tiled w → update_each update w net ress vars = (w', net', out) →
    tiled w' ∧ i w' = i w.
Proof.
  induction 1 as [|var vars Hvar _ IH]; intros ress w net w' net' out Hw Hrun.
  - simpl in Hrun. by inversion Hrun; subst.
  - destruct ress as [|res ress]; simpl in Hrun.
    { by inversion Hrun; subst. }
    destruct (update w net res var) as [[w1 net1] [x|e]] eqn:Hupd.
    + destruct (Hvar _ _ _ _ _ _ Hw Hupd) as [Hw1 Hi1].
      destruct (IH _ _ _ _ _ _ Hw1 Hrun) as [Hw' Hi']. split; [done|].
      by rewrite Hi'.
    + inversion Hrun; subst. by eapply Hvar.
Qed.

(** The outcomes of a store under a single key. *)
Lemma _update_result_variable_cases w net result k w' net' out :
  _update_result one w net result (WorkerVariable k) = (w', net', out) →
  (w' = w ∧ ∃ e, out = Raise e)
  ∨ (∃ a full n0 n1 tl rest,
       result = PyArray a ∧ w' = store w k (PyArray full) ∧ out = Ok PyNone
       ∧ shape (i w) = n0 :: n1 :: tl ∧ shape full = n0 :: n1 :: rest
       ∧ ((full = a ∧ net' = net)
          ∨ (∃ ti tj, shape a = ti :: tj :: rest ∧ n0 = ti + 2 ∧ n1 = tj + 2
                      ∧ _update_result_neighbor one w net a = (net', Ok full)))).
Proof.
  rewrite (_update_result_variable one). intros Hrun.
  destruct result as [|a|ress|k'|x|name];
    try (inversion Hrun; subst; left; split; [done|by eexists]).
  destruct (2 <=? ndim a) eqn:Hrank; cbn [negb] in Hrun;
    [|inversion Hrun; subst; left; split; [done|by eexists]].
  destruct (shape (i w)) as [|n0 [|n1 tl]] eqn:Ei;
    try (inversion Hrun; subst; left; split; [done|by eexists]).
  destruct (shape a) as [|r0 [|r1 rest]] eqn:Ea;
    try (inversion Hrun; subst; left; split; [done|by eexists]).
  cbv zeta in Hrun.
  case_bool_decide as Hne.
  - case_bool_decide as Heq;
      [|inversion Hrun; subst; left; split; [done|by eexists]].
    inversion Heq.
    destruct (_update_result_neighbor one w net a) as [net1 [full|e]] eqn:Hn;
      [|inversion Hrun; subst; left; split; [done|by eexists]].
    inversion Hrun; subst. right.
    destruct (_update_result_neighbor_shape one w net a _ _ Hn)
      as (ni & nj & rest' & Ea' & Hfull).
    rewrite Ea in Ea'. inversion Ea'; subst.
    exists a, full, n0, n1, tl, rest'.
    split_and!; try done.
    + rewrite Hfull. f_equal; [lia|f_equal; lia].
    + right. exists ni, nj. split_and!; try done; lia.
  - inversion Hne. inversion Hrun; subst. right.
    exists a, a, n0, n1, tl, rest.
    split_and!; try done.
    + rewrite Ea. f_equal; [lia|f_equal; lia].
    + by left.
Qed.

Lemma _update_result_tiled result_var :
  ∀ w net result w' net' out,
    tiled w → _update_result one w net result result_var = (w', net', out) →
    tiled w' ∧ i w' = i w.
Proof.
  induction result_var as [|a|vars IH|k|x|name] using pyobj_nested_ind;
    intros w net result w' net' out Hw Hrun;
    [simpl in Hrun|simpl in Hrun|simpl in Hrun| |simpl in Hrun|simpl in Hrun];
    try (by inversion Hrun; subst).
  - destruct result as [|a|ress|k|x|name]; try (by inversion Hrun; subst).
    destruct (decide (length ress = length vars));
      [|by inversion Hrun; subst].
    by eapply update_each_tiled.
  - apply _update_result_variable_cases in Hrun
      as [[-> _]|(a & full & n0 & n1 & tl & rest & _ & -> & _ & Ei & Ef & _)];
      [done|].
    split; [|done]. apply tiled_store; [done|]. by rewrite Ei, Ef.
Qed.

(** X13: [_update_result] keeps the store tiled, whatever the result and
    the result key, tuples included, and whether it returns or raises: if
    every variable of the worker is an array with the leading two dimensions
    of the coordinate array [i], the same holds afterwards, and [i] itself is
    unchanged. *)
Theorem tile_shape_invariant w net result result_var w' net' out :
  tiled w →
  _update_result one w net result result_var = (w', net', out) →
  tiled w' ∧ i w' = i w.
Proof. apply _update_result_tiled. Qed.

(** A successful store under a single key: what is stored. *)
Lemma stored_result_cases w net a k w' net' out :
  _update_result one w net (PyArray a) (WorkerVariable k) = (w', net', Ok out) →
  ∃ full, variables w' !! k = Some (PyArray full)
          ∧ (full = a ∨ ∃ mid, interior full = Ok mid ∧ array_equal mid a).
Proof.
  intros Hrun.
  apply _update_result_variable_cases in Hrun
    as [[_ [e ?]]|(a' & full & n0 & n1 & tl & rest & Hres & -> & Hout & Ei & Ef
                   & Hfull)]; [done|].
  inversion Hres; subst a'.
  exists full. split; [simpl; by rewrite lookup_insert_eq|].
  destruct Hfull as [[-> _]|(r0 & r1 & Ea & -> & -> & Hn)]; [by left|].
  right.
  destruct (neighbor_ranks w) as [[[x_m x_p] y_m] y_p] eqn:Hranks.
  destruct (halo_exchange_returned one w net a net' full _ _ _ _ Hranks Hn)
    as (ni & nj & rest' & _ & _ & _ & _ & Ea' & _ & _ & _ & _ & _ & _ & _
        & -> & _).
  by apply (interior_padded one a _ _ _ _ ni nj rest').
Qed.

(** X14: when [_update_result] returns from storing an array [a] under a
    single key [k], it returns [None]; the store holds under [k] an array
    with the leading two dimensions of [i], which is [a] itself or an array
    whose interior [[1:-1, 1:-1]] equals [a]; [_substitute_args] replaces the
    handle [WorkerVariable(k)] by that array; and the variables under other
    keys are unchanged. *)
Theorem stored_result_is_substituted w net a k w' net' out :
  _update_result one w net (PyArray a) (WorkerVariable k) = (w', net', Ok out) →
  ∃ full,
    out = PyNone
    ∧ variables w' !! k = Some (PyArray full)
    ∧ _substitute_args w' [WorkerVariable k] = Ok [PyArray full]
    ∧ (∀ k', k' ≠ k → variables w' !! k' = variables w !! k')
    ∧ take 2 (shape full) = take 2 (shape (i w))
    ∧ (full = a ∨ ∃ mid, interior full = Ok mid ∧ array_equal mid a).
Proof.
  intros Hrun.
  destruct (stored_result_cases _ _ _ _ _ _ _ Hrun) as (full & Hk & Hint).
  apply _update_result_variable_cases in Hrun
    as [[_ [e ?]]|(a' & full' & n0 & n1 & tl & rest & Hres & -> & Hout & Ei & Ef
                   & _)]; [done|].
  inversion Hout; subst out.
  simpl in Hk. rewrite lookup_insert_eq in Hk. inversion Hk; subst full'.
  exists full. split_and!; try done.
  - simpl. by rewrite lookup_insert_eq.
  - unfold _substitute_args. simpl. by rewrite lookup_insert_eq.
  - intros k' Hk'. simpl. by rewrite lookup_insert_ne.
  - by rewrite Ei, Ef.
Qed.

(** X15: a tuple result is stored component by component, and a failure is
    not undone: with a two-component result whose first component has the
    padded tile shape and whose second is not an array with at least two
    dimensions, [_update_result] fails the assertion on the second component
    after it has stored the first. *)
Theorem tuple_store_is_not_atomic w net a bad k1 k2 :
  take 2 (shape a) = take 2 (shape (i w)) → 2 ≤ ndim a →
  (∀ b, bad = PyArray b → ndim b < 2) →
  _update_result one w net (PyTuple [PyArray a; bad])
    (PyTuple [WorkerVariable k1; WorkerVariable k2])
  = (store w k1 (PyArray a), net, Raise AssertionError).
Proof.
  intros Hshape Hrank Hbad.
  cbn [_update_result]. rewrite decide_True by done. cbn [update_each].
  rewrite (_update_result_variable one w net (PyArray a) k1).
  rewrite (proj2 (Nat.leb_le 2 (ndim a))) by done. cbn [negb].
  unfold ndim in Hrank.
  destruct (shape a) as [|r0 [|r1 rest]] eqn:Ea; simpl in Hrank; try lia.
  destruct (shape (i w)) as [|n0 [|n1 tl]] eqn:Ei; simpl in Hshape; try done.
  inversion Hshape; subst. cbv zeta.
  rewrite bool_decide_eq_false_2.
  2: { intros Hne. apply Hne. f_equal; lia. }
  rewrite (_update_result_variable one).
  destruct bad as [|b|l|k|x|name]; try done.
  specialize (Hbad b eq_refl).
  by rewrite (proj2 (Nat.leb_gt 2 (ndim b))) by lia.
Qed.

End Exchange.

Section FreshWorker.
Context {T : Type} (zero : T).

(** X12: [MPI_Worker.__init__] returns exactly when [i] and [j] have the
    same shape, and fails its assertion otherwise.  The new worker has the
    three variables ['i'], ['j'] and ['_z'] and no other; the predefined
    handles [I], [J] and [ZERO] are replaced by [i], [j] and an array of
    zeros of the shape of [i]; and the store is tiled. *)
Theorem fresh_worker_variables (i0 j0 : ndarray T) ranks :
  (shape i0 = shape j0 →
   ∃ w, MPI_Worker_init zero i0 j0 ranks = Ok w
        ∧ tiled w
        ∧ _substitute_args w [WorkerVariable (inl "i"); WorkerVariable (inl "j");
                              WorkerVariable (inl "_z")]
          = Ok [PyArray i0; PyArray j0; PyArray (zeros zero (shape i0))]
        ∧ ∀ k, is_Some (variables w !! k)
               ↔ k = inl "i" ∨ k = inl "j" ∨ k = inl "_z")
  ∧ (shape i0 ≠ shape j0 →
     MPI_Worker_init zero i0 j0 ranks = Raise AssertionError).
Proof.
  unfold MPI_Worker_init. split; intros Hs.
  - rewrite decide_True by done. eexists. split; [reflexivity|].
    split_and!.
    + intros k o. simpl.
      rewrite !lookup_insert_Some, lookup_singleton_Some.
      intros [[_ <-]|[_ [[_ <-]|[_ [_ <-]]]]];
        eexists; (split; [reflexivity|]); simpl; by rewrite ?Hs.
    + reflexivity.
    + intros k. simpl. split.
      * intros [o Ho].
        apply lookup_insert_Some in Ho as [[<- _]|[_ Ho]]; [auto|].
        apply lookup_insert_Some in Ho as [[<- _]|[_ Ho]]; [auto|].
        apply lookup_singleton_Some in Ho as [<- _]. auto.
      * intros [-> | [-> | ->]]; eexists; reflexivity.
  - by rewrite decide_False.
Qed.

End FreshWorker.

Lemma halo_exchange_posts_witness :
  ∃ net' first_row last_row,
    _update_result_neighbor 1%Z WorkerExamples.tile_worker WorkerExamples.quiet
      (WorkerExamples.ramp [2; 3]) = (net', Raise BufferError)
    ∧ sent net' = [(1, first_row); (2, last_row)]
    ∧ item first_row [2] = 20%Z.
Proof.
  destruct (halo_exchange_posts 1%Z WorkerExamples.tile_worker
              WorkerExamples.quiet (WorkerExamples.ramp [2; 3]) 2 3 [] 1 2 3 4)
    as (R0 & R1 & C0 & C1 & (_ & _ & _ & _ & Hitems) & _ & Hrefused & _).
  - reflexivity.
  - lia.
  - lia.
  - reflexivity.
  - reflexivity.
  - destruct Hrefused as (net' & Hrun & Hsent); [lia|lia|apply not_elem_of_nil|].
    exists net', R0, R1. split; [exact Hrun|]. split; [exact Hsent|].
    exact (proj1 (Hitems 0 2 [])).
Defined.

Lemma halo_exchange_fills_witness :
  ∃ net' full,
    _update_result_neighbor 1%Z WorkerExamples.row_worker WorkerExamples.quiet
      (WorkerExamples.ramp [1; 3]) = (net', Ok full)
    ∧ item full [0; 1] = 100%Z ∧ item full [2; 1] = 200%Z
    ∧ received net' 3 = 1.
Proof.
  destruct (halo_exchange_one_row 1%Z WorkerExamples.row_worker
              WorkerExamples.quiet (WorkerExamples.ramp [1; 3]) 3 [])
    as (net' & full & Hrun); [reflexivity|lia|reflexivity|].
  destruct (halo_exchange_fills 1%Z WorkerExamples.row_worker
              WorkerExamples.quiet (WorkerExamples.ramp [1; 3]) net' full
              1 2 3 4 eq_refl Hrun)
    as (ni & nj & rest & E & Hrows & _ & Hrecv & _).
  injection E as <- <- <-.
  exists net', full. split; [exact Hrun|].
  destruct (Hrows 0 [] ltac:(lia)) as [Htop Hbottom].
  split; [exact Htop|]. split; [exact Hbottom|].
  rewrite Hrecv. reflexivity.
Defined.



Lemma halo_exchange_needs_one_row_witness :
  ∃ net',
    _update_result 1%Z WorkerExamples.tile_worker WorkerExamples.quiet
      (PyArray (WorkerExamples.ramp [2; 3])) (WorkerVariable (inl "x"))
    = (WorkerExamples.tile_worker, net', Raise BufferError).
Proof.
  destruct (halo_exchange_needs_one_row 1%Z WorkerExamples.tile_worker
              WorkerExamples.quiet (WorkerExamples.ramp [2; 3]) 2 3 [] eq_refl)
    as [_ Hrefused].
  destruct Hrefused as (net' & _ & Hstore); [lia|lia|apply not_elem_of_nil|].
  exists net'. exact (Hstore (inl "x") [] eq_refl).
Defined.

Lemma tile_worker_tiled : tiled WorkerExamples.tile_worker.
Proof.
  intros k o Hk. unfold WorkerExamples.tile_worker in Hk. simpl in Hk.
  apply lookup_singleton_Some in Hk as [_ <-]. by eexists.
Qed.

Lemma tile_shape_invariant_witness :
  _update_result 1%Z WorkerExamples.tile_worker WorkerExamples.quiet
    (PyArray (WorkerExamples.ramp [4; 5])) (WorkerVariable (inl "x"))
  = (store WorkerExamples.tile_worker (inl "x")
       (PyArray (WorkerExamples.ramp [4; 5])),
     WorkerExamples.quiet, Ok PyNone)
  ∧ tiled (store WorkerExamples.tile_worker (inl "x")
             (PyArray (WorkerExamples.ramp [4; 5]))).
Proof.
  split; [reflexivity|].
  apply (tile_shape_invariant 1%Z WorkerExamples.tile_worker
           WorkerExamples.quiet (PyArray (WorkerExamples.ramp [4; 5]))
           (WorkerVariable (inl "x"))
           (store WorkerExamples.tile_worker (inl "x")
              (PyArray (WorkerExamples.ramp [4; 5])))
           WorkerExamples.quiet (Ok PyNone) tile_worker_tiled eq_refl).
Defined.

Lemma stored_result_is_substituted_witness :
  ∃ full,
    _substitute_args
      (store WorkerExamples.tile_worker (inl "x")
         (PyArray (WorkerExamples.ramp [4; 5])))
      [WorkerVariable (inl "x")] = Ok [PyArray full]
    ∧ take 2 (shape full) = [4; 5].
Proof.
  destruct (stored_result_is_substituted 1%Z WorkerExamples.tile_worker
              WorkerExamples.quiet (WorkerExamples.ramp [4; 5]) (inl "x")
              (store WorkerExamples.tile_worker (inl "x")
                 (PyArray (WorkerExamples.ramp [4; 5])))
              WorkerExamples.quiet PyNone eq_refl)
    as (full & _ & Hk & Hsub & _ & Hshape & _).
  exists full. split; [exact Hsub|exact Hshape].
Defined.

Lemma tuple_store_is_not_atomic_witness :
  _update_result 1%Z WorkerExamples.tile_worker WorkerExamples.quiet
    (PyTuple [PyArray (WorkerExamples.ramp [4; 5]); PyScalar 3%Z])
    (PyTuple [WorkerVariable (inl "x"); WorkerVariable (inl "y")])
  = (store WorkerExamples.tile_worker (inl "x")
       (PyArray (WorkerExamples.ramp [4; 5])),
     WorkerExamples.quiet, Raise AssertionError).
Proof.
  apply (tuple_store_is_not_atomic 1%Z WorkerExamples.tile_worker
           WorkerExamples.quiet (WorkerExamples.ramp [4; 5]) (PyScalar 3%Z)
           (inl "x") (inl "y")).
  - reflexivity.
  - vm_compute. lia.
  - intros b Hb. discriminate Hb.
Defined.

Lemma substitute_args_spec_witness :
  ∃ outs,
    _substitute_args WorkerExamples.tile_worker
      [WorkerVariable (inl "i"); PyTuple [WorkerVariable (inl "i")]; PyNone]
    = Ok outs
    ∧ Forall2 (substituted WorkerExamples.tile_worker)
        [WorkerVariable (inl "i"); PyTuple [WorkerVariable (inl "i")]; PyNone]
        outs.
Proof.
  apply (substitute_args_spec 1%Z WorkerExamples.tile_worker
           [WorkerVariable (inl "i"); PyTuple [WorkerVariable (inl "i")];
            PyNone]).
  intros k Hk.
  repeat (apply elem_of_cons in Hk as [Hk|Hk];
          [try discriminate Hk; inversion Hk; subst; by eexists|]).
  by apply elem_of_nil in Hk.
Defined.

Lemma fresh_worker_variables_witness :
  ∃ w, MPI_Worker_init 0%Z (WorkerExamples.ramp [4; 5])
         (WorkerExamples.ramp [4; 5]) (1, 2, 3, 4) = Ok w
       ∧ tiled w.
Proof.
  destruct (fresh_worker_variables 0%Z (WorkerExamples.ramp [4; 5])
              (WorkerExamples.ramp [4; 5]) (1, 2, 3, 4)) as [Hok _].
  destruct (Hok eq_refl) as (w & Hw & Ht & _).
  exists w. split; [exact Hw|exact Ht].
Defined.

(** *** Tile ranges *)

Import Commander.

Section TilingFacts.
Local Open Scope Z_scope.
Implicit Types (b : list Z) (k x y ni niProc : Z) (p : nat).

(** Away from the half-way points the nearest integer is the rounded
    quotient. *)





Lemma lookup_ranges b p lo hi :
  zip b (drop 1 b) !! p = Some (lo, hi) ↔ b !! p = Some lo ∧ b !! S p = Some hi.
Proof.
  rewrite lookup_zip_with, lookup_drop. simpl.
  destruct (b !! p) as [x|]; simpl; [|by split; [|intros []]].
  destruct (b !! S p) as [y|]; simpl; [|by split; [|intros []]].
  split; [by intros [= -> ->]|by intros [[= ->] [= ->]]].
Qed.

Lemma getitem_lookup b p x : b !! p = Some x → getitem b (Z.of_nat p) = Ok x.
Proof.
  intros Hx. pose proof (lookup_lt_Some _ _ _ Hx) as Hlt. unfold getitem. cbv zeta.
  rewrite (proj2 (Z.ltb_ge _ _)) by lia.
  rewrite (proj2 (Z.leb_le _ _)) by lia.
  rewrite (proj2 (Z.ltb_lt _ _)) by lia. simpl.
  by rewrite Nat2Z.id, Hx.
Qed.

(** The generator of [_i_ranges] pairs each bound with its successor. *)
Lemma ranges_run b n p :
  length b = S (p + n) →
  rmap (fun i => rbind (getitem b i) (fun lo =>
                 rbind (getitem b (i + 1)) (fun hi => Ok (lo, hi))))
       (seqZ (Z.of_nat p) (Z.of_nat n))
  = Ok (zip (drop p b) (drop (S p) b)).
Proof.
  revert p. induction n as [|n IH]; intros p Hlen.
  - rewrite (drop_ge b (S p)) by lia. simpl. by destruct (drop p b).
  - rewrite seqZ_cons by lia.
    destruct (lookup_lt_is_Some_2 b p ltac:(lia)) as [x Hx].
    destruct (lookup_lt_is_Some_2 b (S p) ltac:(lia)) as [y Hy].
    cbn [rmap]. rewrite (getitem_lookup _ _ _ Hx). cbn [rbind].
    replace (Z.of_nat p + 1) with (Z.of_nat (S p)) by lia.
    rewrite (getitem_lookup _ _ _ Hy). cbn [rbind].
    replace (Z.succ (Z.of_nat p)) with (Z.of_nat (S p)) by lia.
    replace (Z.pred (Z.of_nat (S n))) with (Z.of_nat n) by lia.
    rewrite IH by lia. cbn [rbind].
    rewrite (drop_S _ _ _ Hx), (drop_S _ _ _ Hy). done.
Qed.


Lemma iRanges_length ni niProc b :
  iRanges ni niProc = Ok b → length b = Z.to_nat (niProc + 1).
Proof.
  unfold iRanges, true_divide. destruct (niProc =? 0); [done|]. simpl.
  intros [= <-]. unfold arange. by rewrite length_fmap, length_seqZ.
Qed.


(** C7 (amended): for every grid size [1 <= ni <= 1024] and number of
    processes [1 <= NI <= 32], the tile bounds [iRanges[p]], [p = 0 ... NI],
    are each an integer nearest to [p * ni / NI] -- equal to
    [round(p * ni / NI)] whenever that quotient is not half-way between two
    integers; the sequence is non-decreasing, starts at 0 and ends at [ni];
    [_i_ranges] returns the consecutive pairs, and the half-open ranges
    [[iRanges[p], iRanges[p+1])] partition [[0, ni)] with no gap and no
    overlap: every [k] in [[0, ni)] lies in exactly one of them. *)



End TilingFacts.

(** ** Further properties of the calls and the session *)

Import Session.

Section WorkerCalls.
Context {T : Type} (one : T).
Implicit Types (st : worker_state (T:=T)) (net : world T).

(** X20: after [set_custom_func(name, f)], [func] called with the string
    [name] behaves as [func] called with [f] itself, and the functions
    registered under other names are unchanged; [func] called with a name
    under which nothing is registered raises a key error and changes
    nothing. *)
Theorem registered_function_is_called st net name (f : callable) args
    (kwargs : gmap string (pyobj T)) result_var :
  MPI_Worker_func one (MPI_Worker_set_custom_func st name f) net (inl name)
    args kwargs result_var
  = MPI_Worker_func one (MPI_Worker_set_custom_func st name f) net (inr f)
      args kwargs result_var
  ∧ (∀ other, other ≠ name →
       custom_funcs (MPI_Worker_set_custom_func st name f) !! other
       = custom_funcs st !! other)
  ∧ (custom_funcs st !! name = None →
     MPI_Worker_func one st net (inl name) args kwargs result_var
     = (st, net, Raise KeyError)).
Proof.
  split_and!.
  - unfold MPI_Worker_func. simpl. by rewrite lookup_insert_eq.
  - intros other Hne. simpl. by rewrite lookup_insert_ne.
  - intros Hnone. unfold MPI_Worker_func. by rewrite Hnone.
Qed.

(** X21: when [func], called without keyword arguments and with a single
    key [k] for the result, returns, the function returned an array [a];
    the store then holds under [k] the array [a] or an array whose interior
    equals [a]; and a later call of [func] with the argument
    [WorkerVariable(k)], no keyword argument and no result key applies its
    function to exactly that stored array, returns what the function returns
    and leaves the worker and the transport as they are. *)
Theorem func_result_flows st net (f : callable) args k st' net' out :
  MPI_Worker_func one st net (inr f) args ∅ (WorkerVariable k)
  = (st', net', Ok out) →
  ∃ a full,
    rbind (_substitute_args (worker st) args) (λ args, f args ∅)
    = Ok (PyArray a)
    ∧ (full = a ∨ ∃ mid, interior full = Ok mid ∧ array_equal mid a)
    ∧ variables (worker st') !! k = Some (PyArray full)
    ∧ custom_funcs st' = custom_funcs st
    ∧ ∀ g : callable,
        MPI_Worker_func one st' net' (inr g) [WorkerVariable k] ∅ PyNone
        = (st', net', g [PyArray full] ∅).
Proof.
  unfold MPI_Worker_func at 1.
  destruct (_substitute_args (worker st) args) as [args'|e]; [|by inversion 1].
  pose proof (substitute_kwargs_nonempty (worker st) ∅) as Hkw.
  rewrite decide_True in Hkw by done. rewrite Hkw.
  cbn [rbind].
  destruct (f args' ∅) as [result|e]; [|by inversion 1].
  destruct (_update_result one (worker st) net result (WorkerVariable k))
    as [[w1 net1] out1] eqn:Hupd.
  intros Hrun. inversion Hrun; subst. clear Hrun.
  pose proof Hupd as Hstored.
  apply _update_result_variable_cases in Hupd
    as [[_ [e ?]]|(a & full & n0 & n1 & tl & rest & -> & -> & _ & _ & _ & _)];
    [done|].
  destruct (stored_result_cases one _ _ _ _ _ _ _ Hstored) as (full' & Hk & Hint).
  simpl in Hk. rewrite lookup_insert_eq in Hk. inversion Hk; subst full'.
  exists a, full. split_and!; try done.
  - simpl. by rewrite lookup_insert_eq.
  - intros g. unfold MPI_Worker_func, _substitute_args. simpl.
    rewrite lookup_insert_eq. cbn [rbind].
    pose proof (substitute_kwargs_nonempty (store (worker st) k (PyArray full)) ∅)
      as Hkw'.
    rewrite decide_True in Hkw' by done. rewrite Hkw'.
    by destruct (g [PyArray full] ∅).
Qed.

End WorkerCalls.

Section CommanderCalls.
Context {T : Type}.
Implicit Types (self : MPI_Commander).
Implicit Types (cs : list (command (T:=T))) (es : list (event (T:=T))).

(** On a closed commander only [__del__] returns, and it does nothing. *)
Lemma calls_closed_del self cs self' es :
  comm self = false → MPI_Commander_calls self cs = (self', Ok es) →
  es = [] ∧ comm self' = false ∧ ∀ c, c ∈ cs → c = call_del.
Proof.
  revert self es. induction cs as [|c cs IH]; intros self es Hc Hrun.
  - simpl in Hrun. inversion Hrun; subst. split_and!; [done|done|].
    intros c Hin. by apply elem_of_nil in Hin.
  - cbn [MPI_Commander_calls] in Hrun.
    destruct c; cbn [MPI_Commander_call] in Hrun;
      unfold _broadcast_to_workers, _scatter_to_workers in Hrun;
      rewrite ?Hc in Hrun; cbn [rbind] in Hrun;
      try (by inversion Hrun);
      try (destruct (decide _); cbn [rbind] in Hrun; by inversion Hrun).
    destruct (MPI_Commander_calls self cs) as [self1 [es1|e]] eqn:Hrest;
      [|by inversion Hrun].
    inversion Hrun; subst.
    destruct (IH _ _ Hc Hrest) as (-> & Hc' & Hall).
    split_and!; [done|done|].
    intros c [->|Hin]%elem_of_cons; [done|by apply Hall].
Qed.

Lemma call_not_del_events self c self' es :
  comm self = true → c ≠ call_del →
  MPI_Commander_call self c = (self', Ok es) →
  self' = self ∧ send_finalize ∉ es.
Proof.
  intros Hc Hdel Hrun.
  destruct c as [name f|f args kwargs rv rr|f nargs kwargs rv rr
                |v m args kwargs rv rr|]; [| | | |done];
    cbn [MPI_Commander_call] in Hrun;
    unfold _broadcast_to_workers, _scatter_to_workers, then_gather,
      _gather_from_workers in Hrun;
    rewrite ?Hc in Hrun; cbn [rbind] in Hrun;
    try (destruct (decide _); [|by inversion Hrun]; cbn [rbind] in Hrun);
    try (destruct rr as [[|]|]; cbn [truth rbind] in Hrun; rewrite ?Hc in Hrun;
         cbn [rbind] in Hrun);
    inversion Hrun; subst; (split; [done|]);
    intros Hin; repeat (apply elem_of_cons in Hin as [Hin|Hin]; [done|]);
    by apply elem_of_nil in Hin.
Qed.

(** X27: for a sequence of calls on an open commander that all return:
    if [__del__] is not among them the commander stays open and
    ['finalize'] is never broadcast; if it is, the commander ends closed,
    every call after the first [__del__] is a [__del__] again, and
    ['finalize'] is broadcast exactly once, as the last event. *)
Theorem finalize_is_last self cs self' es :
  comm self = true →
  MPI_Commander_calls self cs = (self', Ok es) →
  (call_del ∉ cs → comm self' = true ∧ send_finalize ∉ es)
  ∧ (call_del ∈ cs →
     comm self' = false
     ∧ ∃ cs1 cs2 es1,
         cs = cs1 ++ call_del :: cs2 ∧ call_del ∉ cs1
         ∧ (∀ c, c ∈ cs2 → c = call_del)
         ∧ es = es1 ++ [send_finalize] ∧ send_finalize ∉ es1).
Proof.
  revert self es. induction cs as [|c cs IH]; intros self es Hc Hrun.
  - simpl in Hrun. inversion Hrun; subst. split.
    + intros _. split; [done|]. apply not_elem_of_nil.
    + intros Hin. by apply elem_of_nil in Hin.
  - cbn [MPI_Commander_calls] in Hrun.
    destruct (MPI_Commander_call self c) as [self1 [es1|e]] eqn:Hcall;
      [|by inversion Hrun].
    destruct (MPI_Commander_calls self1 cs) as [self2 [es2|e]] eqn:Hrest;
      [|by inversion Hrun].
    inversion Hrun; subst. clear Hrun.
    assert (Hcase : c = call_del ∨ c ≠ call_del)
      by (destruct c; (by left) || by right).
    destruct Hcase as [->|Hdel].
    + cbn [MPI_Commander_call] in Hcall. rewrite Hc in Hcall.
      inversion Hcall; subst. clear Hcall.
      split; [intros Hnin; destruct Hnin; by left|]. intros _.
      apply calls_closed_del in Hrest as (-> & Hc' & Hall); [|done].
      split; [done|].
      exists [], cs, []. split_and!; try done; apply not_elem_of_nil.
    + destruct (call_not_del_events _ _ _ _ Hc Hdel Hcall) as [-> Hfin1].
      destruct (IH _ _ Hc Hrest) as [IHout IHin].
      split.
      * intros Hnin. destruct IHout as [Hc' Hfin2].
        { intros Hin. apply Hnin. by right. }
        split; [done|]. intros [?|?]%elem_of_app; done.
      * intros [?|Hin]%elem_of_cons; [done|].
        destruct (IHin Hin) as (Hc' & cs1 & cs2 & es3 & -> & Hn1 & Hall & -> & Hn3).
        split; [done|].
        exists (c :: cs1), cs2, (es1 ++ es3).
        split_and!; try done.
        -- intros [?|?]%elem_of_cons; done.
        -- by rewrite <- app_assoc.
        -- intros [?|?]%elem_of_app; done.
Qed.

End CommanderCalls.

Section SessionFacts.
Context {T : Type} (one : T).
Context (bound_method : pyobj T → string → option (callable (T:=T))).
Implicit Types (self : MPI_Commander) (st : worker_state (T:=T)) (net : world T).
Implicit Types (cs : list (command (T:=T))) (es : list (event (T:=T))).
Implicit Types (ops : list collective).

Lemma calls_closed self cs self' es :
  comm self = false → MPI_Commander_calls self cs = (self', Ok es) →
  es = [] ∧ ∀ c, c ∈ cs → silent c = false.
Proof.
  revert self es. induction cs as [|c cs IH]; intros self es Hc Hrun.
  - simpl in Hrun. inversion Hrun; subst. split; [done|].
    intros c Hin. by apply elem_of_nil in Hin.
  - cbn [MPI_Commander_calls] in Hrun.
    destruct c; cbn [MPI_Commander_call] in Hrun;
      unfold _broadcast_to_workers, _scatter_to_workers in Hrun;
      rewrite ?Hc in Hrun; cbn [rbind] in Hrun;
      try (by inversion Hrun);
      try (destruct (decide _); cbn [rbind] in Hrun; by inversion Hrun).
    destruct (MPI_Commander_calls self cs) as [self1 [es1|e]] eqn:Hrest;
      [|by inversion Hrun].
    inversion Hrun; subst.
    destruct (IH _ _ Hc Hrest) as [-> Hs]. split; [done|].
    intros c [->|Hin]%elem_of_cons; [done|by apply Hs].
Qed.

Lemma filter_silent_nil cs :
  (∀ c, c ∈ cs → silent c = false) → filter (λ c, silent c = true) cs = [].
Proof.
  induction cs as [|c cs IH]; intros Hs; [done|].
  rewrite filter_cons, decide_False, IH; [done| |].
  - intros c' Hin. apply Hs. by right.
  - rewrite (Hs c) by left. done.
Qed.

(** One task of the loop, when the loop ends normally. *)
Lemma loop_broadcast st net t rr (inbound : list (delivery (T:=T)))
    st' net' ops :
  mpi_worker_loop one bound_method st net (broadcast t rr :: inbound)
  = (st', net', ops, Ok tt) →
  ∃ st1 net1 ops1,
    mpi_worker_loop one bound_method st1 net1 inbound = (st', net', ops1, Ok tt)
    ∧ ops = bcast :: worker_gather rr ++ ops1.
Proof.
  cbn [mpi_worker_loop].
  destruct (worker_method one bound_method st net t) as [[st1 net1] [v|e]];
    [|by inversion 1].
  destruct (mpi_worker_loop one bound_method st1 net1 inbound)
    as [[[st2 net2] ops2] out2] eqn:Hrest.
  inversion 1; subst. by exists st1, net1, ops2.
Qed.

Lemma loop_scattered st net t rr (inbound : list (delivery (T:=T)))
    st' net' ops :
  mpi_worker_loop one bound_method st net (scattered t rr :: inbound)
  = (st', net', ops, Ok tt) →
  ∃ st1 net1 ops1,
    mpi_worker_loop one bound_method st1 net1 inbound = (st', net', ops1, Ok tt)
    ∧ ops = bcast :: scatter :: worker_gather rr ++ ops1.
Proof.
  cbn [mpi_worker_loop].
  destruct (worker_method one bound_method st net t) as [[st1 net1] [v|e]];
    [|by inversion 1].
  destruct (mpi_worker_loop one bound_method st1 net1 inbound)
    as [[[st2 net2] ops2] out2] eqn:Hrest.
  inversion 1; subst. by exists st1, net1, ops2.
Qed.

(** One call other than [__del__] on an open commander, and the worker's
    iteration for it. *)
Lemma call_open self c es self' rank (inbound : list (delivery (T:=T)))
    st net st' net' ops :
  comm self = true → c ≠ call_del →
  MPI_Commander_call self c = (self', Ok es) →
  rank < length (iRanges self) * length (jRanges self) →
  mpi_worker_loop one bound_method st net (deliveries rank es ++ inbound)
  = (st', net', ops, Ok tt) →
  self' = self
  ∧ ∃ st1 net1 ops1,
      mpi_worker_loop one bound_method st1 net1 inbound
      = (st', net', ops1, Ok tt)
      ∧ ops = flat_map collectives_of es
              ++ (if silent c then [gather] else []) ++ ops1.
Proof.
  intros Hc Hdel Hrun Hrank Hloop.
  destruct c as [name f|f args kwargs rv rr|f nargs kwargs rv rr
                |v m args kwargs rv rr|]; [| | | |done];
    cbn [MPI_Commander_call] in Hrun;
    unfold _broadcast_to_workers, _scatter_to_workers, then_gather,
      _gather_from_workers in Hrun;
    rewrite ?Hc in Hrun; cbn [rbind] in Hrun.
  - inversion Hrun; subst. split; [done|].
    apply loop_broadcast in Hloop as (st1 & net1 & ops1 & Hrest & ->).
    by exists st1, net1, ops1.
  - destruct rr as [[|]|]; cbn [truth rbind] in Hrun; rewrite ?Hc in Hrun;
      cbn [rbind] in Hrun; inversion Hrun; subst; (split; [done|]);
      apply loop_broadcast in Hloop as (st1 & net1 & ops1 & Hrest & ->);
      by exists st1, net1, ops1.
  - destruct (decide _) as [Hlen|]; [|by inversion Hrun].
    cbn [rbind] in Hrun.
    destruct (lookup_lt_is_Some_2 nargs rank ltac:(lia)) as [a Ha].
    destruct rr as [[|]|]; cbn [truth rbind] in Hrun; rewrite ?Hc in Hrun;
      cbn [rbind] in Hrun; inversion Hrun; subst; (split; [done|]);
      cbn [deliveries flat_map app] in Hloop;
      rewrite list_lookup_fmap, Ha in Hloop;
      cbn [fmap option_fmap option_map app] in Hloop;
      apply loop_scattered in Hloop as (st1 & net1 & ops1 & Hrest & ->);
      by exists st1, net1, ops1.
  - destruct rr as [[|]|]; cbn [truth rbind] in Hrun; rewrite ?Hc in Hrun;
      cbn [rbind] in Hrun; inversion Hrun; subst; (split; [done|]);
      apply loop_broadcast in Hloop as (st1 & net1 & ops1 & Hrest & ->);
      by exists st1, net1, ops1.
Qed.

Lemma deliveries_app rank es1 es2 :
  deliveries rank (es1 ++ es2) = deliveries rank es1 ++ deliveries rank es2.
Proof. apply flat_map_app. Qed.

Lemma calls_open cs :
  ∀ self self' es rank st net st' net' ops,
    comm self = true →
    MPI_Commander_calls self cs = (self', Ok es) →
    rank < length (iRanges self) * length (jRanges self) →
    mpi_worker_loop one bound_method st net (deliveries rank es)
    = (st', net', ops, Ok tt) →
    length ops = length (flat_map collectives_of es)
                 + length (filter (λ c, silent c = true) cs)
    ∧ ((∀ c, c ∈ cs → silent c = false) → ops = flat_map collectives_of es).
Proof.
  induction cs as [|c cs IH];
    intros self self' es rank st net st' net' ops Hc Hrun Hrank Hloop.
  - simpl in Hrun. inversion Hrun; subst. simpl in Hloop.
    inversion Hloop; subst. done.
  - cbn [MPI_Commander_calls] in Hrun.
    destruct (MPI_Commander_call self c) as [self1 [es1|e]] eqn:Hcall;
      [|by inversion Hrun].
    destruct (MPI_Commander_calls self1 cs) as [self2 [es2|e]] eqn:Hrest;
      [|by inversion Hrun].
    inversion Hrun; subst. clear Hrun.
    assert (Hcase : c = call_del ∨ c ≠ call_del)
      by (destruct c; (by left) || by right).
    destruct Hcase as [->|Hdel].
    + cbn [MPI_Commander_call] in Hcall. rewrite Hc in Hcall.
      inversion Hcall; subst. clear Hcall.
      apply calls_closed in Hrest as [-> Hs]; [|done].
      simpl in Hloop. inversion Hloop; subst.
      rewrite filter_cons, decide_False by done.
      rewrite (filter_silent_nil cs Hs). done.
    + rewrite deliveries_app in Hloop.
      destruct (call_open _ _ _ _ _ _ _ _ _ _ _ Hc Hdel Hcall Hrank Hloop)
        as [-> (st1 & net1 & ops1 & Hloop1 & ->)].
      destruct (IH _ _ _ _ _ _ _ _ _ Hc Hrest Hrank Hloop1) as [Hlen Heq].
      rewrite flat_map_app, filter_cons, !length_app, Hlen.
      destruct (silent c) eqn:Hsil.
      * rewrite decide_True by done. split; [simpl; lia|].
        intros Hs. rewrite (Hs c) in Hsil by left. done.
      * rewrite decide_False by done. split; [simpl; lia|].
        intros Hs. rewrite Heq; [done|]. intros c' Hin. apply Hs. by right.
Qed.

(** X22: a sequence of calls on an open commander, all returning, and the
    loop of a worker of rank below the number of tiles, handed what the
    commander sent and never raising.  The worker performs the collective
    operations of the commander, in the same order, if and only if no call
    of [func], [func_nonuniform_args] or [method] had [return_result=False]:
    the commander gathers when [return_result] is true, the worker whenever
    it is not [None].  Each such call makes the worker perform one gather
    more than the commander. *)
Theorem collectives_agree self cs self' es rank st net st' net' ops :
  comm self = true →
  MPI_Commander_calls self cs = (self', Ok es) →
  rank < length (iRanges self) * length (jRanges self) →
  mpi_worker_loop one bound_method st net (deliveries rank es)
  = (st', net', ops, Ok tt) →
  (ops = flat_map collectives_of es ↔ ∀ c, c ∈ cs → silent c = false)
  ∧ length ops = length (flat_map collectives_of es)
                 + length (filter (λ c, silent c = true) cs).
Proof.
  intros Hc Hrun Hrank Hloop.
  destruct (calls_open cs _ _ _ _ _ _ _ _ _ Hc Hrun Hrank Hloop) as [Hlen Heq].
  split; [|done]. split; [|done].
  intros Hops c Hin. rewrite Hops in Hlen.
  destruct (silent c) eqn:Hsil; [|done].
  assert (Hf : c ∈ filter (λ c, silent c = true) cs)
    by (by apply list_elem_of_filter).
  destruct (filter (λ c, silent c = true) cs); [|simpl in Hlen; lia].
  by apply elem_of_nil in Hf.
Qed.

(** X19: with a non-empty [kwargs], [MPI_Worker.func] and
    [MPI_Worker.method] always raise and leave the worker and the transport
    as they are: [func] raises a key error (an argument handle not in the
    store) or the name error of [_substitute_kwargs], whatever the function,
    which is never applied; [method] raises an assertion error (the variable
    is not a handle), a key error, an attribute error (no such method) or
    that name error. *)
Theorem keyword_arguments_fail st net args (kwargs : gmap string (pyobj T))
    result_var variable method_name :
  kwargs ≠ ∅ →
  (∃ e, (e = KeyError ∨ e = NameError)
        ∧ ∀ f : callable,
            MPI_Worker_func one st net (inr f) args kwargs result_var
            = (st, net, Raise e))
  ∧ (∃ e, (e = AssertionError ∨ e = KeyError ∨ e = AttributeError
           ∨ e = NameError)
          ∧ MPI_Worker_method one bound_method st net variable method_name
              args kwargs result_var
            = (st, net, Raise e)).
Proof.
  intros Hne.
  pose proof (substitute_kwargs_nonempty (worker st) kwargs) as Hkw.
  rewrite decide_False in Hkw by done.
  assert (Hargs : _substitute_args (worker st) args = Raise KeyError
                  ∨ ∃ outs, _substitute_args (worker st) args = Ok outs).
  { unfold _substitute_args.
    induction args as [|arg args IH]; [right; by eexists|].
    cbn [rmap].
    destruct arg as [|a|l|k|x|name]; cbn [rbind];
      try (destruct IH as [->|[outs ->]]; [by left|right; by eexists]).
    destruct (variables (worker st) !! k); [|by left].
    cbn [rbind]. destruct IH as [->|[outs ->]]; [by left|right; by eexists]. }
  split.
  - unfold MPI_Worker_func.
    destruct Hargs as [->|[outs ->]].
    + exists KeyError. split; [by left|done].
    + rewrite Hkw. exists NameError. split; [by right|done].
  - unfold MPI_Worker_method.
    destruct variable as [|a|l|k|x|name];
      try (exists AssertionError; split; [by left|done]).
    destruct (variables (worker st) !! k) as [o|];
      [|exists KeyError; split; [by right; left|done]].
    destruct (bound_method o method_name);
      [|exists AttributeError; split; [by right; right; left|done]].
    destruct Hargs as [->|[outs ->]].
    + exists KeyError. split; [by right; left|done].
    + rewrite Hkw. exists NameError. split; [by right; right; right|done].
Qed.

End SessionFacts.

Lemma registered_function_is_called_witness :
  MPI_Worker_func 1%Z SessionExamples.idle WorkerExamples.quiet (inl "first")
    [] ∅ PyNone
  = (SessionExamples.idle, WorkerExamples.quiet, Raise KeyError).
Proof.
  apply (registered_function_is_called 1%Z SessionExamples.idle
           WorkerExamples.quiet "first" SessionExamples.first_argument [] ∅
           PyNone).
  reflexivity.
Defined.

Lemma keyword_arguments_fail_witness :
  ∃ e, MPI_Worker_func 1%Z SessionExamples.idle WorkerExamples.quiet
         (inr SessionExamples.first_argument) [WorkerVariable (inl "i")]
         {[ "out" := PyNone ]} PyNone
       = (SessionExamples.idle, WorkerExamples.quiet, Raise e).
Proof.
  destruct (keyword_arguments_fail 1%Z SessionExamples.no_methods
              SessionExamples.idle WorkerExamples.quiet
              [WorkerVariable (inl "i")] {[ "out" := PyNone ]} PyNone
              PyNone "sum") as [(e & _ & Hfunc) _].
  - apply insert_non_empty.
  - exists e. apply Hfunc.
Defined.

Lemma func_result_flows_witness :
  ∃ full,
    MPI_Worker_func 1%Z
      (with_worker SessionExamples.idle
         (store WorkerExamples.tile_worker (inr 0)
            (PyArray (WorkerExamples.ramp [4; 5]))))
      WorkerExamples.quiet (inr SessionExamples.first_argument)
      [WorkerVariable (inr 0)] ∅ PyNone
    = (with_worker SessionExamples.idle
         (store WorkerExamples.tile_worker (inr 0)
            (PyArray (WorkerExamples.ramp [4; 5]))),
       WorkerExamples.quiet, Ok (PyArray full)).
Proof.
  destruct (func_result_flows 1%Z SessionExamples.idle WorkerExamples.quiet
              SessionExamples.first_argument
              [PyArray (WorkerExamples.ramp [4; 5])] (inr 0)
              (with_worker SessionExamples.idle
                 (store WorkerExamples.tile_worker (inr 0)
                    (PyArray (WorkerExamples.ramp [4; 5]))))
              WorkerExamples.quiet PyNone eq_refl)
    as (a & full & _ & _ & _ & _ & Hflow).
  exists full. exact (Hflow SessionExamples.first_argument).
Defined.

Lemma collectives_agree_witness :
  let run := mpi_worker_loop 1%Z SessionExamples.no_methods SessionExamples.idle
               WorkerExamples.quiet (deliveries 1 SessionExamples.events) in
  (MPI_Commander_calls SessionExamples.one_by_two SessionExamples.calls).2
  = Ok SessionExamples.events
  ∧ run.2 = Ok tt
  ∧ run.1.2 = flat_map collectives_of SessionExamples.events
  ∧ run.1.2 = [bcast; gather; bcast; gather; bcast; scatter; bcast].
Proof.
  cbv zeta. split; [reflexivity|]. split; [reflexivity|].
  split; [|reflexivity].
  destruct (mpi_worker_loop 1%Z SessionExamples.no_methods SessionExamples.idle
              WorkerExamples.quiet (deliveries 1 SessionExamples.events))
    as [[[st' net'] ops] out] eqn:Hloop.
  assert (Hout : (mpi_worker_loop 1%Z SessionExamples.no_methods
                    SessionExamples.idle WorkerExamples.quiet
                    (deliveries 1 SessionExamples.events)).2 = Ok tt)
    by reflexivity.
  rewrite Hloop in Hout. cbn [snd] in Hout. subst out. cbn [fst snd].
  apply (collectives_agree 1%Z SessionExamples.no_methods
           SessionExamples.one_by_two SessionExamples.calls
           (MPI_Commander_calls SessionExamples.one_by_two
              SessionExamples.calls).1
           SessionExamples.events 1
           SessionExamples.idle WorkerExamples.quiet st' net' ops).
  - reflexivity.
  - reflexivity.
  - simpl. lia.
  - exact Hloop.
  - intros c Hc. unfold SessionExamples.calls in Hc.
    repeat (apply elem_of_cons in Hc as [->|Hc]; [reflexivity|]).
    by apply elem_of_nil in Hc.
Defined.

Lemma finalize_is_last_witness :
  ∃ es1, SessionExamples.events = es1 ++ [send_finalize]
         ∧ send_finalize ∉ es1.
Proof.
  destruct (finalize_is_last SessionExamples.one_by_two SessionExamples.calls
              (MPI_Commander_calls SessionExamples.one_by_two
                 SessionExamples.calls).1
              SessionExamples.events eq_refl eq_refl) as [_ Hdel].
  destruct Hdel as (_ & cs1 & cs2 & es1 & _ & _ & _ & Hes & Hnin).
  - unfold SessionExamples.calls. by do 3 right; left.
  - exists es1. split; [exact Hes|exact Hnin].
Defined.

Section HandleFacts.

Lemma WorkerVariable_inits_run keys :
  ∀ counter,
    length (WorkerVariable_inits keys counter).1 = length keys
    ∧ (WorkerVariable_inits keys counter).2
      = counter + length (filter (λ key, key = None) keys)
    ∧ ∀ p key, keys !! p = Some key →
        (WorkerVariable_inits keys counter).1 !! p
        = Some (match key with
                | Some k => k
                | None => inr (counter + length (filter (λ key, key = None)
                                                   (take p keys)))
                end).
Proof.
  induction keys as [|key keys IH]; intros counter.
  - split_and!; [done|simpl; lia|]. intros p key Hp. by rewrite lookup_nil in Hp.
  - cbn [WorkerVariable_inits].
    destruct (WorkerVariable_init key counter) as [k counter1] eqn:Hinit.
    destruct (WorkerVariable_inits keys counter1) as [ks counter2] eqn:Hrest.
    specialize (IH counter1). rewrite Hrest in IH. cbn [fst snd] in IH |- *.
    destruct IH as (Hlen & Hcount & Hkeys).
    rewrite filter_cons.
    destruct key as [k0|]; cbn [WorkerVariable_init] in Hinit;
      inversion Hinit; subst.
    + rewrite decide_False by done. split_and!; [simpl; lia|done|].
      intros [|p] key Hp; simpl in Hp.
      * by inversion Hp.
      * cbn [take]. rewrite filter_cons, decide_False by done.
        by apply Hkeys.
    + rewrite decide_True by done. split_and!; [simpl; lia|simpl; lia|].
      intros [|p] key Hp; simpl in Hp.
      * inversion Hp; subst. simpl. do 2 f_equal. lia.
      * cbn [take]. rewrite filter_cons, decide_True by done.
        etrans; [apply (Hkeys p key Hp)|]. simpl. destruct key; [done|].
        do 2 f_equal. lia.
Qed.

Lemma filter_take_lt {A} (P : A → Prop) `{!∀ x, Decision (P x)}
    (l : list A) p q x :
  p < q → l !! p = Some x → P x →
  length (filter P (take p l)) < length (filter P (take q l)).
Proof.
  revert p q. induction l as [|y l IH]; intros p q Hpq Hp Hx.
  - by rewrite lookup_nil in Hp.
  - destruct q as [|q]; [lia|]. destruct p as [|p].
    + simpl in Hp. inversion Hp; subst. cbn [take].
      rewrite filter_cons, decide_True by done. simpl. lia.
    + simpl in Hp. cbn [take]. rewrite !filter_cons.
      specialize (IH p q ltac:(lia) Hp Hx).
      destruct (decide (P y)); simpl; lia.
Qed.

(** X23: handles created one after the other: two handles created without
    a key get two numbers as keys, never a string; the later one gets the
    larger number; both are at least the counter at the start and below the
    counter at the end. *)
Theorem anonymous_keys_are_fresh keys counter p q kp kq :
  keys !! p = Some None → keys !! q = Some None → p < q →
  (WorkerVariable_inits keys counter).1 !! p = Some kp →
  (WorkerVariable_inits keys counter).1 !! q = Some kq →
  ∃ n m, kp = inr n ∧ kq = inr m ∧ counter ≤ n < m
         ∧ m < (WorkerVariable_inits keys counter).2.
Proof.
  intros Hp Hq Hpq Hkp Hkq.
  destruct (WorkerVariable_inits_run keys counter) as (_ & Hc & Hk).
  rewrite (Hk p None Hp) in Hkp. rewrite (Hk q None Hq) in Hkq.
  inversion Hkp; subst. inversion Hkq; subst. clear Hkp Hkq.
  eexists _, _. split_and!; [done|done|lia| |].
  - pose proof (filter_take_lt (λ key, key = None) keys p q None Hpq Hp eq_refl).
    lia.
  - rewrite Hc.
    pose proof (filter_take_lt (λ key, key = None) keys q (S (length keys)) None
                  ltac:(apply lookup_lt_Some in Hq; lia) Hq eq_refl) as Hlt.
    rewrite (take_ge keys (S (length keys))) in Hlt by lia. lia.
Qed.

End HandleFacts.

Section CommanderFacts.
Local Open Scope Z_scope.

Lemma _i_ranges_run ni niProc :
  0 < niProc →
  ∃ b, Commander.iRanges ni niProc = Ok b
       ∧ length b = S (Z.to_nat niProc)
       ∧ _i_ranges ni niProc = Ok (zip b (drop 1 b))
       ∧ length (zip b (drop 1 b)) = Z.to_nat niProc.
Proof.
  intros Hn.
  destruct (Commander.iRanges ni niProc) as [b|e] eqn:Hb.
  2: { unfold Commander.iRanges, true_divide in Hb.
       rewrite (proj2 (Z.eqb_neq niProc 0)) in Hb by lia. done. }
  pose proof (iRanges_length _ _ _ Hb) as Hlen.
  exists b. split; [done|]. split; [lia|]. split.
  - unfold _i_ranges. rewrite Hb. cbn [rbind].
    pose proof (ranges_run b (Z.to_nat niProc) 0 ltac:(lia)) as Hr.
    rewrite Z2Nat.id in Hr by lia. exact Hr.
  - rewrite length_zip_with, length_drop. lia.
Qed.

(** X24: for a grid size and a process count below [2^53] in magnitude,
    where doubles hold them exactly: [_i_ranges] raises a zero-division
    error for the process count 0, returns the empty tuple for a negative
    one, and for a positive one returns as many ranges as processes, each
    range ending where the next one starts. *)
Theorem i_ranges_edges ni niProc :
  Z.abs ni < 2 ^ 53 → Z.abs niProc < 2 ^ 53 →
  (niProc = 0 → _i_ranges ni niProc = Raise ZeroDivisionError)
  ∧ (niProc < 0 → _i_ranges ni niProc = Ok [])
  ∧ (0 < niProc →
     ∃ r, _i_ranges ni niProc = Ok r
          ∧ length r = Z.to_nat niProc
          ∧ ∀ p lo hi lo' hi',
              r !! p = Some (lo, hi) → r !! S p = Some (lo', hi') → hi = lo').
Proof.
  intros _ _. split_and!.
  - intros ->. reflexivity.
  - intros Hneg. unfold _i_ranges, Commander.iRanges, true_divide.
    rewrite (proj2 (Z.eqb_neq niProc 0)) by lia. cbn [rbind].
    unfold seqZ. by replace (Z.to_nat niProc) with 0%nat by lia.
  - intros Hpos.
    destruct (_i_ranges_run ni niProc Hpos) as (b & _ & _ & Hr & Hlen).
    exists (zip b (drop 1 b)). split_and!; [done|done|].
    intros p lo hi lo' hi' [_ Hhi]%lookup_ranges [Hlo' _]%lookup_ranges.
    congruence.
Qed.

Lemma mod_pred n i :
  0 ≤ i < n → 0 ≤ (i + n - 1) mod n < n ∧ ((i + n - 1) mod n + 1) mod n = i
              ∧ ((i + n - 1) mod n = i ↔ n = 1)
              ∧ ((i + n - 1) mod n = (i + 1) mod n ↔ n ≤ 2).
Proof.
  intros Hi.
  destruct (decide (i = 0)) as [->|Hne].
  - replace (0 + n - 1) with (n - 1) by lia.
    rewrite (Z.mod_small (n - 1)) by lia.
    replace (n - 1 + 1) with n by lia. rewrite Z.mod_same by lia.
    destruct (decide (n = 1)) as [->|Hn1]; [done|].
    rewrite (Z.mod_small (0 + 1)) by lia. lia.
  - replace (i + n - 1) with (i - 1 + 1 * n) by lia.
    rewrite Z.mod_add by lia. rewrite (Z.mod_small (i - 1)) by lia.
    replace (i - 1 + 1) with i by lia. rewrite (Z.mod_small i) by lia.
    destruct (decide (i + 1 = n)) as [Heq|Hlt].
    + rewrite Heq, Z.mod_same by lia. lia.
    + rewrite (Z.mod_small (i + 1)) by lia. lia.
Qed.

Lemma mod_succ n i :
  0 ≤ i < n → 0 ≤ (i + 1) mod n < n ∧ ((i + 1) mod n + n - 1) mod n = i.
Proof.
  intros Hi.
  destruct (decide (i + 1 = n)) as [Heq|Hlt].
  - rewrite Heq, Z.mod_same by lia.
    replace (0 + n - 1) with (n - 1) by lia.
    rewrite (Z.mod_small (n - 1)) by lia. lia.
  - rewrite (Z.mod_small (i + 1)) by lia.
    replace (i + 1 + n - 1) with (i + 1 * n) by lia.
    rewrite Z.mod_add by lia. rewrite (Z.mod_small i) by lia. lia.
Qed.

(** X26: for a worker at [(i, j)] of a grid of [niProc] by [njProc]
    processes, the four neighbour ranks computed by
    [MPI_Commander.__init__] are ranks of the grid; they are the ranks of
    the workers at [i - 1], [i + 1], [j - 1] and [j + 1], wrapped around;
    and the neighbourhood is mutual: the [x_p] neighbour of the [x_m]
    neighbour is the worker itself, and likewise in the other three
    directions.  [x_m] and [x_p] are the same rank exactly when there are at
    most two processes along [i], and the worker itself exactly when there is
    one; likewise along [j]. *)
Theorem torus_neighbours niProc njProc i j x_m x_p y_m y_p :
  0 ≤ i < niProc → 0 ≤ j < njProc →
  neighbor_ranks_at niProc njProc i j = (x_m, x_p, y_m, y_p) →
  let rank := i * njProc + j in
  let i_m := (i + niProc - 1) mod niProc in
  let i_p := (i + 1) mod niProc in
  let j_m := (j + njProc - 1) mod njProc in
  let j_p := (j + 1) mod njProc in
  (0 ≤ x_m < niProc * njProc ∧ 0 ≤ x_p < niProc * njProc
   ∧ 0 ≤ y_m < niProc * njProc ∧ 0 ≤ y_p < niProc * njProc)
  ∧ (∃ a c d, neighbor_ranks_at niProc njProc i_m j = (a, rank, c, d)
              ∧ x_m = i_m * njProc + j ∧ 0 ≤ i_m < niProc)
  ∧ (∃ b c d, neighbor_ranks_at niProc njProc i_p j = (rank, b, c, d)
              ∧ x_p = i_p * njProc + j ∧ 0 ≤ i_p < niProc)
  ∧ (∃ a b c, neighbor_ranks_at niProc njProc i j_m = (a, b, c, rank)
              ∧ y_m = i * njProc + j_m ∧ 0 ≤ j_m < njProc)
  ∧ (∃ a b d, neighbor_ranks_at niProc njProc i j_p = (a, b, rank, d)
              ∧ y_p = i * njProc + j_p ∧ 0 ≤ j_p < njProc)
  ∧ (x_m = x_p ↔ niProc ≤ 2) ∧ (x_m = rank ↔ niProc = 1)
  ∧ (y_m = y_p ↔ njProc ≤ 2) ∧ (y_m = rank ↔ njProc = 1).
Proof.
  intros Hi Hj Hn. cbv zeta. unfold neighbor_ranks_at in *.
  inversion Hn; subst. clear Hn.
  destruct (mod_pred niProc i Hi) as (Him & Him1 & Himi & Himp).
  destruct (mod_succ niProc i Hi) as (Hip & Hip1).
  destruct (mod_pred njProc j Hj) as (Hjm & Hjm1 & Hjmj & Hjmp).
  destruct (mod_succ njProc j Hj) as (Hjp & Hjp1).
  set (i_m := (i + niProc - 1) mod niProc) in *.
  set (i_p := (i + 1) mod niProc) in *.
  set (j_m := (j + njProc - 1) mod njProc) in *.
  set (j_p := (j + 1) mod njProc) in *.
  split_and!; try nia.
  - eexists _, _, _. split; [|done]. rewrite Him1. done.
  - eexists _, _, _. split; [|done]. rewrite Hip1. done.
  - eexists _, _, _. split; [|done]. rewrite Hjm1. done.
  - eexists _, _, _. split; [|done]. rewrite Hjp1. done.
Qed.

Lemma lookup_enumerate {A} (xs : list A) (p : nat) (a : A) :
  xs !! p = Some a → enumerate xs !! p = Some (p, a).
Proof.
  intros Hp. unfold enumerate. rewrite lookup_zip_with.
  rewrite lookup_seq_lt by (by eapply lookup_lt_Some). simpl. by rewrite Hp.
Qed.

Lemma length_enumerate {A} (xs : list A) : length (enumerate xs) = length xs.
Proof. unfold enumerate. rewrite length_zip_with, length_seq. lia. Qed.

Lemma length_flat_map_uniform {A B} (f : A → list B) (l : list A) (n : nat) :
  (∀ y, y ∈ l → length (f y) = n) → length (flat_map f l) = (length l * n)%nat.
Proof.
  induction l as [|y l IH]; intros Hf; [done|].
  cbn [flat_map]. rewrite length_app, IH, (Hf y).
  - simpl. lia.
  - by left.
  - intros y' Hin. apply Hf. by right.
Qed.

Lemma lookup_flat_map_uniform {A B} (f : A → list B) (l : list A) (n : nat)
    (p q : nat) x :
  (∀ y, y ∈ l → length (f y) = n) → l !! p = Some x → (q < n)%nat →
  flat_map f l !! (p * n + q)%nat = f x !! q.
Proof.
  revert p. induction l as [|y l IH]; intros p Hf Hp Hq.
  - by rewrite lookup_nil in Hp.
  - cbn [flat_map]. destruct p as [|p]; simpl in Hp.
    + inversion Hp; subst. rewrite lookup_app_l; [done|].
      rewrite (Hf x) by left. lia.
    + rewrite lookup_app_r by (rewrite (Hf y) by left; lia).
      rewrite (Hf y) by left.
      replace (S p * n + q - n)%nat with (p * n + q)%nat by lia.
      apply IH; [|done|done]. intros y' Hin. apply Hf. by right.
Qed.

(** The messages of [__init__]. *)
Lemma MPI_Commander_init_run ni nj niProc njProc :
  0 < niProc → 0 < njProc →
  ∃ self msgs,
    MPI_Commander_init ni nj niProc njProc = Ok (self, msgs)
    ∧ comm self = true
    ∧ _i_ranges ni niProc = Ok (Session.iRanges self)
    ∧ _i_ranges nj njProc = Ok (jRanges self)
    ∧ length (Session.iRanges self) = Z.to_nat niProc
    ∧ length (jRanges self) = Z.to_nat njProc
    ∧ length msgs = (Z.to_nat niProc * Z.to_nat njProc)%nat
    ∧ ∀ (p q : nat) iRange jRange,
        Session.iRanges self !! p = Some iRange → jRanges self !! q = Some jRange →
        msgs !! (p * Z.to_nat njProc + q)%nat
        = Some (Z.of_nat p * njProc + Z.of_nat q,
                (iRange, jRange,
                 neighbor_ranks_at niProc njProc (Z.of_nat p) (Z.of_nat q))).
Proof.
  intros Hni Hnj.
  destruct (_i_ranges_run ni niProc Hni) as (bi & _ & _ & Hri & Hli).
  destruct (_i_ranges_run nj njProc Hnj) as (bj & _ & _ & Hrj & Hlj).
  unfold MPI_Commander_init. rewrite Hri, Hrj. cbn [rbind]. cbv zeta.
  set (iR := zip bi (drop 1 bi)) in *. set (jR := zip bj (drop 1 bj)) in *.
  match goal with |- context [flat_map ?f _] => set (block := f) end.
  eexists _, _. split; [reflexivity|]. cbn [comm Session.iRanges jRanges].
  assert (Hblock : ∀ y, y ∈ enumerate iR → length (block y) = Z.to_nat njProc).
  { intros [i0 r0] _. unfold block. by rewrite length_fmap, length_enumerate. }
  split_and!; try done.
  - rewrite (length_flat_map_uniform _ _ _ Hblock), length_enumerate. lia.
  - intros p q iRange jRange Hp Hq.
    etrans; [apply (lookup_flat_map_uniform block _ _ p q (p, iRange) Hblock
                      (lookup_enumerate _ _ _ Hp))|].
    + apply lookup_lt_Some in Hq. lia.
    + unfold block. rewrite list_lookup_fmap, (lookup_enumerate _ _ _ Hq). done.
Qed.

(** X25: for grid sizes below [2^53] in magnitude and positive process
    counts below [2^53], [MPI_Commander.__init__] returns; it sends one
    first message to each of the ranks [0, 1, ..., niProc * njProc - 1], in
    this order; and the message for the rank [p * njProc + q] carries the
    [p]-th range of [_i_ranges(ni, niProc)], the [q]-th range of
    [_i_ranges(nj, njProc)] and the neighbour ranks of [(p, q)]. *)
Theorem first_messages_reach_every_worker ni nj niProc njProc :
  Z.abs ni < 2 ^ 53 → Z.abs nj < 2 ^ 53 →
  0 < niProc < 2 ^ 53 → 0 < njProc < 2 ^ 53 →
  ∃ self msgs,
    MPI_Commander_init ni nj niProc njProc = Ok (self, msgs)
    ∧ comm self = true
    ∧ _i_ranges ni niProc = Ok (Session.iRanges self)
    ∧ _i_ranges nj njProc = Ok (jRanges self)
    ∧ msgs.*1 = seqZ 0 (niProc * njProc)
    ∧ ∀ (p q : nat) iRange jRange,
        Session.iRanges self !! p = Some iRange → jRanges self !! q = Some jRange →
        msgs !! (p * Z.to_nat njProc + q)%nat
        = Some (Z.of_nat p * njProc + Z.of_nat q,
                (iRange, jRange,
                 neighbor_ranks_at niProc njProc (Z.of_nat p) (Z.of_nat q))).
Proof.
  intros _ _ [Hni _] [Hnj _].
  destruct (MPI_Commander_init_run ni nj niProc njProc Hni Hnj)
    as (self & msgs & Hrun & Hc & Hi & Hj & Hli & Hlj & Hlen & Hmsgs).
  exists self, msgs. split_and!; try done.
  apply list_eq. intros k.
  destruct (decide (k < Z.to_nat niProc * Z.to_nat njProc)%nat) as [Hk|Hk].
  - set (n := Z.to_nat njProc) in *.
    assert (Hn : (0 < n)%nat) by (unfold n; lia).
    pose proof (Nat.div_mod_eq k n) as Hdm.
    pose proof (Nat.mod_upper_bound k n ltac:(lia)) as Hq.
    assert (Hp : (k / n < Z.to_nat niProc)%nat).
    { apply Nat.Div0.div_lt_upper_bound. lia. }
    destruct (lookup_lt_is_Some_2 (Session.iRanges self) (k / n)%nat
                ltac:(lia)) as [iRange HiR].
    destruct (lookup_lt_is_Some_2 (jRanges self) (k mod n)%nat
                ltac:(lia)) as [jRange HjR].
    pose proof (Hmsgs _ _ _ _ HiR HjR) as Hm.
    replace (k / n * n + k mod n)%nat with k in Hm by lia.
    unfold first_message in *. rewrite (list_lookup_fmap fst msgs k), Hm.
    cbn [fmap option_fmap option_map fst].
    rewrite lookup_seqZ_lt by nia. f_equal. unfold n in *. nia.
  - rewrite lookup_ge_None_2 by (rewrite length_fmap; lia).
    rewrite lookup_ge_None_2; [done|]. rewrite length_seqZ. nia.
Qed.

End CommanderFacts.

Lemma anonymous_keys_are_fresh_witness :
  ∃ n m, (WorkerVariable_inits [None; Some (inl "i"); None] 0).1 !! 0
         = Some (inr n)
         ∧ (WorkerVariable_inits [None; Some (inl "i"); None] 0).1 !! 2
           = Some (inr m)
         ∧ n < m.
Proof.
  destruct (anonymous_keys_are_fresh [None; Some (inl "i"); None] 0 0 2
              (inr 0) (inr 1))
    as (n & m & Hn & Hm & Hlt & _).
  - reflexivity.
  - reflexivity.
  - lia.
  - reflexivity.
  - reflexivity.
  - exists n, m. inversion Hn; subst. inversion Hm; subst.
    split; [reflexivity|]. split; [reflexivity|lia].
Defined.

Lemma i_ranges_edges_witness :
  _i_ranges 100 0 = Raise ZeroDivisionError
  ∧ _i_ranges 100 (-2) = Ok []
  ∧ ∃ r, _i_ranges 100 2 = Ok r ∧ length r = 2.
Proof.
  split; [|split].
  - apply (i_ranges_edges 100 0); [reflexivity|reflexivity|reflexivity].
  - apply (i_ranges_edges 100 (-2)); reflexivity.
  - destruct (i_ranges_edges 100 2 eq_refl eq_refl) as (_ & _ & Hpos).
    destruct (Hpos eq_refl) as (r & Hr & Hlen & _).
    exists r. split; [exact Hr|exact Hlen].
Defined.

Lemma first_messages_reach_every_worker_witness :
  ∃ self msgs,
    MPI_Commander_init 8 8 2 2 = Ok (self, msgs)
    ∧ msgs.*1 = [0; 1; 2; 3]%Z.
Proof.
  destruct (first_messages_reach_every_worker 8 8 2 2)
    as (self & msgs & Hrun & _ & _ & _ & Hranks & _).
  - reflexivity.
  - reflexivity.
  - split; reflexivity.
  - split; reflexivity.
  - exists self, msgs. split; [exact Hrun|exact Hranks].
Defined.

Lemma torus_neighbours_witness :
  neighbor_ranks_at 2 2 0 0 = (2, 2, 1, 1)%Z
  ∧ ∃ a c d, neighbor_ranks_at 2 2 1 0 = (a, 0, c, d)%Z.
Proof.
  split; [reflexivity|].
  destruct (torus_neighbours 2 2 0 0 2 2 1 1)%Z
    as (_ & (a & c & d & Hback & _) & _).
  - lia.
  - lia.
  - reflexivity.
  - exists a, c, d. exact Hback.
Defined.
